(** * GZMetroSpinWheel: the roulette component, the metro store and the page

    A shallow embedding of [src/components/MetroRoulette.vue],
    [src/stores/metro.ts], the script of [src/App.vue] and the
    conversion of [convert_metro_data.js].

    Numbers.  A JavaScript number is modelled as an exact rational ([Q]):
    every arithmetic operation is the mathematical one, without the
    rounding of IEEE doubles, and NaN and the infinities do not occur.
    Equality of numbers is therefore [Qeq] ([==]).  Integers that the code
    obtains with [Math.floor] or from [.length] are [Z].

    Effects.  [Math.random()] and [performance.now()] are inputs of the
    functions that call them.  [requestAnimationFrame] is a queue of
    pending callbacks kept in the component state; a display frame runs
    the callbacks that were queued when it starts and then flushes the
    [watch(currentRotation, ...)] watcher.  What the component does to the
    outside (store writes, emitted events) is also logged, in order, in a
    trace.  The page puts the store and the wheel together: clicks on
    the spin button, the timer of the store and display frames are the
    actions of a run, and the wheel gets new items when the page computes
    them anew. *)

From Stdlib Require Import ZArith QArith Qround Qpower.
From Stdlib Require Import List Sorted String Ascii Bool Lia Lqa.
Import ListNotations.

Local Open Scope Q_scope.

(** ** JavaScript primitives on exact numbers *)

Module JS.

(** [x < y] on numbers, as a boolean. *)
Definition ltb (x y : Q) : bool := negb (Qle_bool y x).

(** [Math.floor]. *)
Definition floor (x : Q) : Z := Qfloor x.

(** Rounding towards zero, the quotient that [%] uses. *)
Definition trunc (x : Q) : Z :=
  if ltb x 0 then Qceiling x else Qfloor x.

(** [x % y] on numbers: the remainder has the sign of the dividend. *)
Definition rem (x y : Q) : Q := x - y * inject_Z (trunc (x / y)).

(** [Math.min]. *)
Definition min (x y : Q) : Q := if ltb y x then y else x.

(** [Math.pow(x, n)] for a literal natural exponent. *)
Definition pow (x : Q) (n : positive) : Q := Qpower_positive x n.

(** [a[k]] for an integer [k]: [undefined] (here [None]) out of range. *)
Definition index {A : Type} (a : list A) (k : Z) : option A :=
  if (k <? 0)%Z then None else nth_error a (Z.to_nat k).

(** [a.length]. *)
Definition length {A : Type} (a : list A) : Z := Z.of_nat (List.length a).

End JS.

(** ** Types ([src/types/index.ts]) *)

Record LineTag := mkLineTag { tag_name : string; tag_color : string }.

Record MetroStation := mkMetroStation {
  name : string;
  lines : list LineTag
}.

Record MetroLine := mkMetroLine {
  line_id : string;
  line_name : string;
  line_color : string;
  stations : list string
}.

Inductive GameMode := single | double.

(** ** The roulette component ([MetroRoulette.vue]) *)

Module Roulette.

(** What [spinWheel] computes before the first frame and [animate]
    closes over. *)
Record Anim := mkAnim {
  totalItems : Z;
  sliceAngle : Q;
  targetIndex : Z;
  targetItem : option MetroStation;
  angleDiff : Q;
  startTime : Q;
  startRotation : Q;
  endRotation : Q;
  duration : Q
}.

(** Observable effects, in the order the component performs them. *)
Inductive Event :=
| EvAnimating (b : bool)          (* isAnimating.value = b *)
| EvRotation (r : Q)              (* rotation.value = r *)
| EvSelect (s : MetroStation)     (* metroStore.selectStation(s) *)
| EvRequestFrame                  (* requestAnimationFrame(animate) *)
| EvEmit (s : MetroStation).      (* emit('spin-complete', s) *)

Record Wheel := mkWheel {
  items : list MetroStation;              (* props.items *)
  rotation : Q;
  currentRotation : Q;
  watched : Q;                            (* value the watcher last saw *)
  isAnimating : bool;
  selectedStation : option MetroStation;  (* metroStore.selectedStation *)
  raf : list Anim;                        (* queued animate callbacks *)
  trace : list Event
}.

(** [((r % 360) + 360) % 360] *)
Definition normalize (r : Q) : Q := JS.rem (JS.rem r 360 + 360) 360.

(** Line 129: [Math.floor(Math.random() * totalItems)]. *)
Definition drawIndex (r1 : Q) (n : Z) : Z := JS.floor (r1 * inject_Z n).

(** Line 134: [360 - (targetIndex * sliceAngle)]. *)
Definition baseTargetAngle (idx : Z) (slice : Q) : Q :=
  360 - inject_Z idx * slice.

(** Lines 137-139. *)
Definition minRotations : Q := 3.
Definition maxRotations : Q := 5.
Definition fullRotations (r2 : Q) : Q :=
  minRotations + r2 * (maxRotations - minRotations).

(** Lines 134-140: the target angle with the extra turns added. *)
Definition targetAngle (idx : Z) (slice r2 : Q) : Q :=
  baseTargetAngle idx slice + 360 * fullRotations r2.

(** Line 143: the difference before the test of line 144. *)
Definition rawAngleDiff (idx : Z) (slice r2 rot : Q) : Q :=
  targetAngle idx slice r2 - normalize rot.

(** Lines 143-144. *)
Definition computeAngleDiff (idx : Z) (slice r2 rot : Q) : Q :=
  let d := rawAngleDiff idx slice r2 rot in
  if JS.ltb d 0 then d + 360 else d.

Definition baseDuration : Q := 1000.

(** Lines 125-154 of [spinWheel]: everything the closure captures.
    [r1] and [r2] are the two results of [Math.random()], [now] that of
    [performance.now()]. *)
Definition planSpin (r1 r2 now : Q) (its : list MetroStation) (rot : Q)
  : Anim :=
  let n := JS.length its in
  let slice := 360 / inject_Z n in
  let idx := drawIndex r1 n in
  let d := computeAngleDiff idx slice r2 rot in
  let rotationFactor := d / 360 in
  {| totalItems := n;
     sliceAngle := slice;
     targetIndex := idx;
     targetItem := JS.index its idx;
     angleDiff := d;
     startTime := now;
     startRotation := rot;
     endRotation := rot + d;
     duration := baseDuration * (1 + rotationFactor * (1 # 2)) |}.

Definition log (e : Event) (w : Wheel) : Wheel :=
  {| items := items w; rotation := rotation w;
     currentRotation := currentRotation w; watched := watched w;
     isAnimating := isAnimating w; selectedStation := selectedStation w;
     raf := raf w; trace := trace w ++ [e] |}.

Definition setAnimating (b : bool) (w : Wheel) : Wheel :=
  log (EvAnimating b)
    {| items := items w; rotation := rotation w;
       currentRotation := currentRotation w; watched := watched w;
       isAnimating := b; selectedStation := selectedStation w;
       raf := raf w; trace := trace w |}.

(** [rotation.value = r; currentRotation.value = r]. *)
Definition setRotation (r : Q) (w : Wheel) : Wheel :=
  log (EvRotation r)
    {| items := items w; rotation := r;
       currentRotation := r; watched := watched w;
       isAnimating := isAnimating w; selectedStation := selectedStation w;
       raf := raf w; trace := trace w |}.

(** [metroStore.selectStation(s)]. *)
Definition selectStation (s : MetroStation) (w : Wheel) : Wheel :=
  log (EvSelect s)
    {| items := items w; rotation := rotation w;
       currentRotation := currentRotation w; watched := watched w;
       isAnimating := isAnimating w; selectedStation := Some s;
       raf := raf w; trace := trace w |}.

Definition requestAnimationFrame (a : Anim) (w : Wheel) : Wheel :=
  log EvRequestFrame
    {| items := items w; rotation := rotation w;
       currentRotation := currentRotation w; watched := watched w;
       isAnimating := isAnimating w; selectedStation := selectedStation w;
       raf := raf w ++ [a]; trace := trace w |}.

Definition emitSpinComplete (s : MetroStation) (w : Wheel) : Wheel :=
  log (EvEmit s) w.

(** Lines 120-195. *)
Definition spinWheel (r1 r2 now : Q) (w : Wheel) : Wheel :=
  if (JS.length (items w) =? 0)%Z || isAnimating w then w
  else
    let w1 := setAnimating true w in
    requestAnimationFrame (planSpin r1 r2 now (items w) (rotation w)) w1.

(** Lines 163-165. *)
Definition easing (progress : Q) : Q :=
  if JS.ltb progress (1 # 2)
  then 3 * progress * progress * progress
  else 1 - JS.pow (-2 * progress + 2) 4 / 2.

(** Line 160. *)
Definition progressAt (a : Anim) (timestamp : Q) : Q :=
  JS.min ((timestamp - startTime a) / duration a) 1.

(** Line 168. *)
Definition rotationAt (a : Anim) (timestamp : Q) : Q :=
  startRotation a + angleDiff a * easing (progressAt a timestamp).

(** Lines 173-175: the index into [props.items] of the item that
    [animate] reports for the live rotation [r]. *)
Definition frameIndex (n : Z) (slice r : Q) : Z :=
  let normalizedRotation := normalize r in
  let currentIndex := Z.rem (JS.floor (normalizedRotation / slice)) n in
  Z.rem (n - currentIndex) n.

(** Lines 91-96: the index that [updateCurrentItem] uses. *)
Definition watcherIndex (n : Z) (r : Q) : Z :=
  let normalizedRotation := normalize r in
  let perAngle := 360 / inject_Z n in
  let index := JS.floor (normalizedRotation / perAngle) in
  Z.rem (n - index) n.

Definition sameName (s : MetroStation) (o : option MetroStation) : bool :=
  match o with
  | Some t => String.eqb (name s) (name t)
  | None => false
  end.

(** Lines 87-102. *)
Definition updateCurrentItem (w : Wheel) : Wheel :=
  if (JS.length (items w) =? 0)%Z then w
  else
    match JS.index (items w)
            (watcherIndex (JS.length (items w)) (currentRotation w)) with
    | Some newItem =>
        if sameName newItem (selectedStation w) then w
        else selectStation newItem w
    | None => w
    end.

(** Lines 156-192. *)
Definition animate (a : Anim) (timestamp : Q) (w : Wheel) : Wheel :=
  if negb (isAnimating w) then w
  else
    let progress := progressAt a timestamp in
    let w1 := setRotation (rotationAt a timestamp) w in
    let w2 :=
      match JS.index (items w1)
              (frameIndex (totalItems a) (sliceAngle a)
                 (rotationAt a timestamp)) with
      | Some newItem => selectStation newItem w1
      | None => w1
      end in
    if JS.ltb progress 1 then requestAnimationFrame a w2
    else
      let w3 := setAnimating false (setRotation (endRotation a) w2) in
      match targetItem a with
      | Some s => emitSpinComplete s w3
      | None => w3
      end.

Definition setWatched (r : Q) (w : Wheel) : Wheel :=
  {| items := items w; rotation := rotation w;
     currentRotation := currentRotation w; watched := r;
     isAnimating := isAnimating w; selectedStation := selectedStation w;
     raf := raf w; trace := trace w |}.

(** The [watch(currentRotation, updateCurrentItem)] watcher, run when
    the callbacks of a frame have returned: it fires when the value
    differs from the one it saw last. *)
Definition flushWatcher (w : Wheel) : Wheel :=
  if Qeq_bool (currentRotation w) (watched w) then w
  else updateCurrentItem (setWatched (currentRotation w) w).

Definition clearRaf (w : Wheel) : Wheel :=
  {| items := items w; rotation := rotation w;
     currentRotation := currentRotation w; watched := watched w;
     isAnimating := isAnimating w; selectedStation := selectedStation w;
     raf := []; trace := trace w |}.

(** One display frame at [timestamp]. *)
Definition frame (timestamp : Q) (w : Wheel) : Wheel :=
  flushWatcher
    (fold_left (fun s a => animate a timestamp s) (raf w) (clearRaf w)).

(** The frames the browser delivers, oldest first. *)
Definition runFrames (ts : list Q) (w : Wheel) : Wheel :=
  fold_left (fun s t => frame t s) ts w.

(** The states after each frame, oldest first. *)
Fixpoint frameStates (ts : list Q) (w : Wheel) : list Wheel :=
  match ts with
  | [] => []
  | t :: ts' => frame t w :: frameStates ts' (frame t w)
  end.

(** The [spin-complete] events of a trace, oldest first. *)
Fixpoint emitted (tr : list Event) : list MetroStation :=
  match tr with
  | [] => []
  | EvEmit s :: tr' => s :: emitted tr'
  | _ :: tr' => emitted tr'
  end.

(** A wheel at rest: not animating and no callback queued. *)
Definition Idle (w : Wheel) : Prop :=
  isAnimating w = false /\ raf w = [].

(** Lines 32-33 of [wheelBackground]: the part of the conic gradient,
    measured from the pointer, that is painted for item [i]. *)
Definition sectorStart (i n : Z) : Q := (inject_Z i / inject_Z n) * 360.
Definition sectorEnd (i n : Z) : Q :=
  (inject_Z (i + 1) / inject_Z n) * 360.

(** [x mod y], the representative in [0, y). *)
Definition modulo (x y : Q) : Q := x - y * inject_Z (Qfloor (x / y)).

(** The wheel angle that faces the fixed pointer when the wheel is
    rotated by [r]: [(360 - r) mod 360]. *)
Definition pointerAngle (r : Q) : Q := modulo (360 - r) 360.

(** Item [i] is under the pointer at rotation [r]. *)
Definition underPointer (n : Z) (r : Q) (i : Z) : Prop :=
  sectorStart i n <= pointerAngle r /\ pointerAngle r < sectorEnd i n.

(** The smallest non-negative angle that takes [from] to [to]. *)
Definition forwardAngle (from to : Q) : Q := modulo (to - from) 360.

(** The spin planned as [a] over the items [its] is in flight: its
    callback, and only it, is queued. *)
Definition Running (its : list MetroStation) (a : Anim) (w : Wheel)
  : Prop :=
  isAnimating w = true /\ raf w = [a] /\ items w = its.

(** The spin is over and the watcher has seen the final angle. *)
Definition Finished (its : list MetroStation) (a : Anim) (w : Wheel)
  : Prop :=
  isAnimating w = false /\ raf w = [] /\ items w = its
  /\ rotation w = endRotation a
  /\ Qeq_bool (currentRotation w) (watched w) = true.

(** The refs of lines 17-18 and 84 as they are created, over an empty
    store. *)
Definition initialWheel (its : list MetroStation) : Wheel :=
  {| items := its; rotation := 0; currentRotation := 0; watched := 0;
     isAnimating := false; selectedStation := None; raf := [];
     trace := [] |}.

(** The component once set up: the watcher of line 118 is [immediate]
    and runs [updateCurrentItem] once. *)
Definition mounted (its : list MetroStation) : Wheel :=
  updateCurrentItem (initialWheel its).

(** Four items, ninety degrees each. *)
Definition itemA : MetroStation := mkMetroStation "A" [].
Definition itemB : MetroStation := mkMetroStation "B" [].
Definition itemC : MetroStation := mkMetroStation "C" [].
Definition itemD : MetroStation := mkMetroStation "D" [].
Definition fourItems : list MetroStation := [itemA; itemB; itemC; itemD].

(** [props.items] as the parent passes a new array. *)
Definition replaceItems (its : list MetroStation) (w : Wheel) : Wheel :=
  {| items := its; rotation := rotation w;
     currentRotation := currentRotation w; watched := watched w;
     isAnimating := isAnimating w; selectedStation := selectedStation w;
     raf := raf w; trace := trace w |}.

(** The parent replaces [props.items]: the watcher of line 118 runs
    [updateCurrentItem] on the new list.  A spin in flight keeps the
    [totalItems] and [sliceAngle] it captured. *)
Definition setItems (its : list MetroStation) (w : Wheel) : Wheel :=
  updateCurrentItem (replaceItems its w).

End Roulette.

(** ** The metro store ([src/stores/metro.ts]) *)

Module Store.

Record State := mkState {
  mode : option GameMode;
  selectedLine : option MetroLine;
  selectedStation : option MetroStation;
  isSpinning : bool;
  isInitialized : bool;
  metroData : list MetroLine;
  stationIndex : list MetroStation
}.

(** Lines 6-10; [r] is the result of [Math.random()]. *)
Definition getRandomElement {T : Type} (r : Q) (array : list T)
  : option T :=
  if (JS.length array =? 0)%Z then None
  else
    let randomIndex := JS.floor (r * inject_Z (JS.length array)) in
    JS.index array randomIndex.

Definition setSpinning (b : bool) (st : State) : State :=
  {| mode := mode st; selectedLine := selectedLine st;
     selectedStation := selectedStation st; isSpinning := b;
     isInitialized := isInitialized st; metroData := metroData st;
     stationIndex := stationIndex st |}.

Definition setSelectedLine (l : option MetroLine) (st : State) : State :=
  {| mode := mode st; selectedLine := l;
     selectedStation := selectedStation st; isSpinning := isSpinning st;
     isInitialized := isInitialized st; metroData := metroData st;
     stationIndex := stationIndex st |}.

Definition setSelectedStation (s : option MetroStation) (st : State)
  : State :=
  {| mode := mode st; selectedLine := selectedLine st;
     selectedStation := s; isSpinning := isSpinning st;
     isInitialized := isInitialized st; metroData := metroData st;
     stationIndex := stationIndex st |}.

(** Lines 45-51. *)
Definition startSpinning (st : State) : State := setSpinning true st.
Definition stopSpinning (st : State) : State := setSpinning false st.

(** Lines 115-118. *)
Definition selectRandomLine (r : Q) (st : State) : option MetroLine :=
  if (JS.length (metroData st) =? 0)%Z then None
  else getRandomElement r (metroData st).

(** Lines 121-126. *)
Definition selectRandomStationFromLine (r : Q) (line : MetroLine)
    (st : State) : option MetroStation :=
  if (JS.length (stations line) =? 0)%Z then None
  else
    match getRandomElement r (stations line) with
    | Some stationName =>
        find (fun s => String.eqb (name s) stationName) (stationIndex st)
    | None => None
    end.

(** Lines 129-132. *)
Definition selectRandomStation (r : Q) (st : State)
  : option MetroStation :=
  if (JS.length (stationIndex st) =? 0)%Z then None
  else getRandomElement r (stationIndex st).

(** Lines 136-138 of [spin]: up to the [await].  [None] is the return
    of line 136. *)
Definition spinBegin (st : State) : option State :=
  if isSpinning st then None else Some (setSpinning true st).

(** Lines 143-164 of [spin]: what runs when the timer of line 141 has
    fired, on the store as it is then. *)
Definition spinResume (r : Q) (st : State) : State :=
  let st' :=
    match mode st with
    | Some single =>
        match selectRandomStation r st with
        | Some station =>
            setSelectedLine None (setSelectedStation (Some station) st)
        | None => st
        end
    | _ =>
        match selectedLine st with
        | None => setSelectedLine (selectRandomLine r st) st
        | Some line =>
            match selectRandomStationFromLine r line st with
            | Some station => setSelectedStation (Some station) st
            | None => st
            end
        end
    end in
  setSpinning false st'.

(** [spin] when nothing else writes to the store during the wait. *)
Definition spin (r : Q) (st : State) : State :=
  match spinBegin st with
  | None => st
  | Some st1 => spinResume r st1
  end.

(** *** The station index (lines 71-99 of [loadMetroData]) *)

(** [stationMap]: a [Map] keeps its keys in insertion order. *)
Definition StationMap := list (string * MetroStation).

Fixpoint mapHas (m : StationMap) (k : string) : bool :=
  match m with
  | [] => false
  | (k', _) :: m' => String.eqb k' k || mapHas m' k
  end.

Fixpoint mapGet (m : StationMap) (k : string) : option MetroStation :=
  match m with
  | [] => None
  | (k', v) :: m' => if String.eqb k' k then Some v else mapGet m' k
  end.

(** [Map.prototype.set]: a new key goes last, an old one keeps its
    place. *)
Fixpoint mapSet (m : StationMap) (k : string) (v : MetroStation)
  : StationMap :=
  match m with
  | [] => [(k, v)]
  | (k', v') :: m' =>
      if String.eqb k' k then (k', v) :: m' else (k', v') :: mapSet m' k v
  end.

(** [station.lines.push(tag)] on the object that the map holds under
    [k]: the entry itself changes. *)
Fixpoint mapPush (m : StationMap) (k : string) (tag : LineTag)
  : StationMap :=
  match m with
  | [] => []
  | (k', v) :: m' =>
      if String.eqb k' k
      then (k', mkMetroStation (name v) (lines v ++ [tag])) :: m'
      else (k', v) :: mapPush m' k tag
  end.

(** Lines 79-96: the body of the inner [forEach]. *)
Definition addStation (line : MetroLine) (m : StationMap)
    (stationName : string) : StationMap :=
  if String.eqb stationName "" then m
  else
    let m1 :=
      if negb (mapHas m stationName)
      then mapSet m stationName (mkMetroStation stationName [])
      else m in
    match mapGet m1 stationName with
    | Some _ =>
        mapPush m1 stationName
          (mkLineTag (line_name line) (line_color line))
    | None => m1
    end.

(** Lines 73-97: the body of the outer [forEach].  [stations] is an
    array by its type, so the guard of line 74 does not fire. *)
Definition addLine (m : StationMap) (line : MetroLine) : StationMap :=
  fold_left (addStation line) (stations line) m.

(** Lines 71-99. *)
Definition buildStationIndex (lines : list MetroLine)
  : list MetroStation :=
  map snd (fold_left addLine lines []).

(** Lines 68-100 of [loadMetroData], on the parsed array. *)
Definition loadMetroData (lines : list MetroLine) (st : State) : State :=
  {| mode := mode st; selectedLine := selectedLine st;
     selectedStation := selectedStation st; isSpinning := isSpinning st;
     isInitialized := true; metroData := lines;
     stationIndex := buildStationIndex lines |}.

(** *** What the index is expected to hold *)

Definition tagOf (line : MetroLine) : LineTag :=
  mkLineTag (line_name line) (line_color line).

Fixpoint mem (x : string) (l : list string) : bool :=
  match l with
  | [] => false
  | y :: l' => String.eqb y x || mem x l'
  end.

(** The distinct elements of a list, in order of first appearance. *)
Fixpoint firstOccurrences (l : list string) : list string :=
  match l with
  | [] => []
  | x :: l' =>
      x :: filter (fun y => negb (String.eqb y x)) (firstOccurrences l')
  end.

(** The lines that serve a station, each once, in dataset order. *)
Definition servingLines (s : string) (ds : list MetroLine)
  : list LineTag :=
  map tagOf (filter (fun l => mem s (stations l)) ds).

Definition expectedIndex (ds : list MetroLine) : list MetroStation :=
  map (fun s => mkMetroStation s (servingLines s ds))
      (firstOccurrences (flat_map stations ds)).

(** The station names in the order the two loops visit them, each
    with the tag of its line. *)
Definition tagged (ds : list MetroLine) : list (string * LineTag) :=
  flat_map (fun l => map (fun s => (s, tagOf l)) (stations l)) ds.

(** [addStation], as a function of the name and the tag. *)
Definition addTagged (m : StationMap) (p : string * LineTag)
  : StationMap :=
  let (stationName, tag) := p in
  if String.eqb stationName "" then m
  else
    let m1 :=
      if negb (mapHas m stationName)
      then mapSet m stationName (mkMetroStation stationName [])
      else m in
    match mapGet m1 stationName with
    | Some _ => mapPush m1 stationName tag
    | None => m1
    end.

Definition nonEmpty (s : string) : bool := negb (String.eqb s "").

(** The tags visited with the name [k], one per visit. *)
Definition tagsOf (k : string) (ps : list (string * LineTag))
  : list LineTag :=
  map snd (filter (fun p => String.eqb (fst p) k) ps).

(** The map after the visits [ps]. *)
Definition indexOf (ps : list (string * LineTag)) : StationMap :=
  map (fun k => (k, mkMetroStation k (tagsOf k ps)))
      (firstOccurrences (filter nonEmpty (map fst ps))).

(** A line whose array names a station twice: not an output of the
    converter. *)
Definition loopLine : MetroLine :=
  mkMetroLine "l3" "Line 3" "#ECA154"
    ["Tiyuxilu"%string; "Linhexi"%string; "Tiyuxilu"%string].

(** Two lines that share a station. *)
Definition line1 : MetroLine :=
  mkMetroLine "l1" "Line 1" "#F3D03E"
    ["Xilang"%string; "Gongyuanqian"%string].
Definition line2 : MetroLine :=
  mkMetroLine "l2" "Line 2" "#00629B"
    ["Gongyuanqian"%string; "Jiahewanggang"%string].

End Store.

(** ** The station names of a converted line ([convert_metro_data.js]) *)

Module Converter.

Record RawStation := mkRawStation { stationName : string }.

Section Unique.
(** [String.prototype.trim], left abstract: nothing below depends on
    which characters it removes. *)
Variable trim : string -> string.

(** Lines 53-58: the body of the [forEach]; the state is
    [stationNames] and [seenStations]. *)
Definition addUnique (acc : list string * list string)
    (station : RawStation) : list string * list string :=
  let (stationNames, seenStations) := acc in
  let name := trim (stationName station) in
  if negb (String.eqb name "") && negb (Store.mem name seenStations)
  then (stationNames ++ [name], name :: seenStations)
  else acc.

(** Lines 49-59. *)
Definition uniqueStationNames (raw : list RawStation) : list string :=
  fst (fold_left addUnique raw ([], [])).

(** A dataset whose station lists all come out of lines 49-59. *)
Definition Converted (ds : list MetroLine) : Prop :=
  Forall (fun l => exists raw, stations l = uniqueStationNames raw) ds.
End Unique.

(** Removes blanks (tab, line feed, vertical tab, form feed, carriage
    return, space) at both ends: [trim] on ASCII text. *)
Definition isBlank (c : ascii) : bool :=
  let k := nat_of_ascii c in
  ((9 <=? k) && (k <=? 13))%nat || (k =? 32)%nat.

Fixpoint trimStart (s : string) : string :=
  match s with
  | String c s' => if isBlank c then trimStart s' else s
  | EmptyString => EmptyString
  end.

Fixpoint trimEnd (s : string) : string :=
  match s with
  | String c s' =>
      match trimEnd s' with
      | EmptyString => if isBlank c then EmptyString else String c EmptyString
      | t => String c t
      end
  | EmptyString => EmptyString
  end.

Definition asciiTrim (s : string) : string := trimEnd (trimStart s).

(** The stations of two raw lines, with a repeated and a blank name. *)
Definition rawStations1 : list RawStation :=
  [mkRawStation " Xilang"; mkRawStation "Gongyuanqian";
   mkRawStation "Xilang "; mkRawStation "  "].
Definition rawStations2 : list RawStation :=
  [mkRawStation "Gongyuanqian"; mkRawStation "Jiahewanggang";
   mkRawStation "Gongyuanqian"].
Definition converted1 : MetroLine :=
  mkMetroLine "l1" "Line 1" "#F3D03E"
    (uniqueStationNames asciiTrim rawStations1).
Definition converted2 : MetroLine :=
  mkMetroLine "l2" "Line 2" "#00629B"
    (uniqueStationNames asciiTrim rawStations2).

End Converter.

(** ** The wheel background ([wheelBackground], lines 21-54) *)

Module Background.

(** One entry of [gradientStops]: a colour and the two angles, which the
    template prints as [color fromdeg todeg].  The colour is [None]
    where the template prints [undefined]. *)
Record Stop := mkStop {
  stop_color : option string;
  stop_from : Q;
  stop_to : Q
}.

(** [forEach((x, idx) => ...)], collecting what each call pushes; [k] is
    the index of the first element. *)
Fixpoint mapi {A B : Type} (f : Z -> A -> B) (k : Z) (l : list A)
  : list B :=
  match l with
  | [] => []
  | x :: l' => f k x :: mapi f (k + 1) l'
  end.

(** Lines 29-48: the stops pushed for the item at index [i].  The items
    and their lines are objects by their types, so the guards of lines
    30 and 39 do not fire. *)
Definition itemStops (totalItems i : Z) (item : MetroStation)
  : list Stop :=
  let startAngle := (inject_Z i / inject_Z totalItems) * 360 in
  let endAngle := (inject_Z (i + 1) / inject_Z totalItems) * 360 in
  if (1 <? JS.length (lines item))%Z
  then
    let lineCount := JS.length (lines item) in
    mapi (fun idx line =>
            let lineStart :=
              startAngle + (endAngle - startAngle)
                           * (inject_Z idx / inject_Z lineCount) in
            let lineEnd :=
              startAngle + (endAngle - startAngle)
                           * (inject_Z (idx + 1) / inject_Z lineCount) in
            mkStop (Some (tag_color line)) lineStart lineEnd)
         0 (lines item)
  else
    let color := option_map tag_color (JS.index (lines item) 0) in
    [mkStop color startAngle endAngle].

(** Lines 24-49. *)
Definition gradientStops (its : list MetroStation) : list Stop :=
  List.concat (mapi (itemStops (JS.length its)) 0 its).

(** The computed style: [transparent], or the conic gradient of the
    stops, to which line 52 appends [white 0deg]. *)
Inductive Style :=
| Transparent
| ConicGradient (stops : list Stop).

(** Lines 21-54. *)
Definition wheelBackground (its : list MetroStation) : Style :=
  if (JS.length its =? 0)%Z then Transparent
  else ConicGradient (gradientStops its).

(** The stops go from [x] to [y] without gap or overlap. *)
Fixpoint chained (x : Q) (stops : list Stop) (y : Q) : Prop :=
  match stops with
  | [] => x == y
  | s :: rest => stop_from s == x /\ chained (stop_to s) rest y
  end.

(** The number of stops an item is painted with. *)
Definition bands (item : MetroStation) : nat :=
  Nat.max 1 (List.length (lines item)).

(** An item with two lines between two items with one. *)
Definition threeItems : list MetroStation :=
  [mkMetroStation "Xilang" [mkLineTag "Line 1" "#F3D03E"];
   mkMetroStation "Gongyuanqian"
     [mkLineTag "Line 1" "#F3D03E"; mkLineTag "Line 2" "#00629B"];
   mkMetroStation "Jiahewanggang" [mkLineTag "Line 2" "#00629B"]].

End Background.

(** ** The other actions of the store (lines 31-56 of [metro.ts]) *)

Module StoreActions.

Definition setModeField (m : option GameMode) (st : Store.State)
  : Store.State :=
  {| Store.mode := m; Store.selectedLine := Store.selectedLine st;
     Store.selectedStation := Store.selectedStation st;
     Store.isSpinning := Store.isSpinning st;
     Store.isInitialized := Store.isInitialized st;
     Store.metroData := Store.metroData st;
     Store.stationIndex := Store.stationIndex st |}.

(** Lines 53-56. *)
Definition resetSelection (st : Store.State) : Store.State :=
  Store.setSelectedStation None (Store.setSelectedLine None st).

(** Lines 31-34. *)
Definition setMode (newMode : GameMode) (st : Store.State) : Store.State :=
  resetSelection (setModeField (Some newMode) st).

(** Lines 36-38. *)
Definition selectLine (line : MetroLine) (st : Store.State) : Store.State :=
  Store.setSelectedLine (Some line) st.

(** Lines 40-43. *)
Definition selectStation (station : MetroStation) (st : Store.State)
  : Store.State :=
  Store.setSelectedStation (Some station) st.

(** A store before anything is loaded (lines 14-20). *)
Definition emptyStore : Store.State :=
  Store.mkState None None None false false [] [].

End StoreActions.

(** ** The guard of line 74 of [loadMetroData] *)

Module Loader.

(** An element of the fetched array: its [stations] may be missing or
    not an array ([None]). *)
Record ParsedLine := mkParsedLine {
  parsed_id : string;
  parsed_name : string;
  parsed_color : string;
  parsed_stations : option (list string)
}.

Definition asLine (p : ParsedLine) (names : list string) : MetroLine :=
  mkMetroLine (parsed_id p) (parsed_name p) (parsed_color p) names.

(** Lines 73-97: the body of the outer [forEach], with the guard. *)
Definition addParsedLine (m : Store.StationMap) (p : ParsedLine)
  : Store.StationMap :=
  match parsed_stations p with
  | None => m
  | Some names => fold_left (Store.addStation (asLine p names)) names m
  end.

(** Lines 71-99. *)
Definition buildStationIndexParsed (ps : list ParsedLine)
  : list MetroStation :=
  map snd (fold_left addParsedLine ps []).

(** The elements that have a [stations] array, as lines. *)
Definition wellFormed (ps : list ParsedLine) : list MetroLine :=
  flat_map (fun p => match parsed_stations p with
                     | Some names => [asLine p names]
                     | None => []
                     end) ps.

End Loader.

(** ** The page ([src/App.vue]) *)

Module App.

Definition unknownStation : string := "未知站点".
Definition unknownLine : string := "未知线路".
Definition defaultColor : string := "#4CAF50".

(** [s || fallback] on strings: the empty string is falsy. *)
Definition orElse (s fallback : string) : string :=
  if String.eqb s "" then fallback else s.

(** Lines 53-59: the item shown for a line. *)
Definition lineItem (line : MetroLine) : MetroStation :=
  mkMetroStation (orElse (line_name line) unknownLine)
    [mkLineTag (orElse (line_name line) unknownLine)
               (orElse (line_color line) defaultColor)].

(** Lines 65-71: the item shown for a station of the selected line. *)
Definition stationItem (line : MetroLine) (stationName : string)
  : MetroStation :=
  mkMetroStation stationName
    [mkLineTag (orElse (line_name line) unknownLine)
               (orElse (line_color line) defaultColor)].

(** Lines 44-47: the item shown for a record of the index; an array of
    lines is truthy, so the fallback of line 46 is not used. *)
Definition indexItem (station : MetroStation) : MetroStation :=
  mkMetroStation (orElse (name station) unknownStation) (lines station).

(** Lines 34-80; [isInitialized] is the ref of the page (line 7).  The
    store's [metroData] and [stationIndex] are arrays by their types. *)
Definition rouletteItems (isInitialized : bool) (st : Store.State)
  : list MetroStation :=
  if negb isInitialized then []
  else
    match Store.mode st with
    | Some single => map indexItem (Store.stationIndex st)
    | Some double =>
        match Store.selectedLine st with
        | None => map lineItem (Store.metroData st)
        | Some line => map (stationItem line) (stations line)
        end
    | None => []
    end.

(** Lines 82-96. *)
Definition selectedItem (st : Store.State) : option MetroStation :=
  match Store.mode st, Store.selectedStation st, Store.selectedLine st with
  | Some single, Some station, _ => Some station
  | Some double, _, Some line =>
      Some (mkMetroStation (line_name line)
              [mkLineTag (line_name line) (line_color line)])
  | _, _, _ => None
  end.

(** Lines 14-17. *)
Definition selectMode (m : GameMode) (st : Store.State) : Store.State :=
  StoreActions.resetSelection (StoreActions.setMode m st).

(** Lines 24-28. *)
Definition resetGame (st : Store.State) : Store.State :=
  StoreActions.setModeField None (StoreActions.resetSelection st).

(** Lines 30-32. *)
Definition reset (st : Store.State) : Store.State :=
  StoreActions.resetSelection st.

(** The wheel as the page mounts it: the component over the items of
    the page. *)
Definition wheelOf (isInitialized : bool) (st : Store.State)
  : Roulette.Wheel :=
  Roulette.mounted (rouletteItems isInitialized st).

End App.

(** ** The page at work: store, wheel and timers together

    The wheel is mounted over [rouletteItems] and shares
    [metroStore.selectedStation] with the store.  Between two display
    frames the user may click the spin button, and the timer of a
    pending [spin()] of the store may fire. *)

Module Page.

Record State := mkPage {
  store : Store.State;
  wheel : Roulette.Wheel;
  timers : nat            (* calls of [spin()] waiting at line 141 *)
}.

(** The two views of [metroStore.selectedStation]. *)
Definition storeSees (w : Roulette.Wheel) (st : Store.State)
  : Store.State :=
  Store.setSelectedStation (Roulette.selectedStation w) st.

Definition wheelSees (st : Store.State) (w : Roulette.Wheel)
  : Roulette.Wheel :=
  {| Roulette.items := Roulette.items w;
     Roulette.rotation := Roulette.rotation w;
     Roulette.currentRotation := Roulette.currentRotation w;
     Roulette.watched := Roulette.watched w;
     Roulette.isAnimating := Roulette.isAnimating w;
     Roulette.selectedStation := Store.selectedStation st;
     Roulette.raf := Roulette.raf w;
     Roulette.trace := Roulette.trace w |}.

(** The page once the data is loaded and a mode chosen: the wheel is
    mounted over the items of the store. *)
Definition start (st : Store.State) : State :=
  let w := Roulette.updateCurrentItem
             (wheelSees st
                (Roulette.initialWheel (App.rouletteItems true st))) in
  mkPage (storeSees w st) w 0.

(** [spin] of [App.vue] (lines 19-22), from the spin button: the store
    starts a spin and waits; [isSpinning] turns true, so the watcher of
    lines 198-202 of the wheel calls [spinWheel].  [r1], [r2] and [now]
    are what [spinWheel] reads if it accepts. *)
Definition onClick (r1 r2 now : Q) (p : State) : State :=
  match Store.spinBegin (store p) with
  | None => p
  | Some st1 =>
      mkPage st1 (Roulette.spinWheel r1 r2 now (wheel p)) (S (timers p))
  end.

(** [rouletteItems] is computed anew when a value it has read changes:
    in the first stage of double mode, when a line gets selected. *)
Definition itemsReplaced (st st' : Store.State) : bool :=
  match Store.mode st, Store.selectedLine st, Store.selectedLine st' with
  | Some double, None, Some _ => true
  | _, _, _ => false
  end.

(** The timer of a waiting [spin()] fires: lines 143-164 of the store
    run on the store as it is now with the draw [r]; if the items
    change, the wheel gets the new ones. *)
Definition onTimer (r : Q) (p : State) : State :=
  match timers p with
  | O => p
  | S k =>
      let st1 := Store.spinResume r (store p) in
      let w1 := wheelSees st1 (wheel p) in
      let w2 :=
        if itemsReplaced (store p) st1
        then Roulette.setItems (App.rouletteItems true st1) w1
        else w1 in
      mkPage (storeSees w2 st1) w2 k
  end.

(** A display frame; a [spin-complete] emitted in it calls
    [stopSpinning] (line 145 of the template). *)
Definition onFrame (t : Q) (p : State) : State :=
  let w' := Roulette.frame t (wheel p) in
  let completed :=
    (List.length (Roulette.emitted (Roulette.trace (wheel p)))
     <? List.length (Roulette.emitted (Roulette.trace w')))%nat in
  let st1 := if completed then Store.stopSpinning (store p) else store p in
  mkPage (storeSees w' st1) w' (timers p).

Inductive Action :=
| Click (r1 r2 now : Q)
| Timer (r : Q)
| Frame (t : Q).

Definition act (p : State) (a : Action) : State :=
  match a with
  | Click r1 r2 now => onClick r1 r2 now p
  | Timer r => onTimer r p
  | Frame t => onFrame t p
  end.

Definition run (acts : list Action) (p : State) : State :=
  fold_left act acts p.

(** The station shown is named after one of the items on the wheel. *)
Definition Named (w : Roulette.Wheel) : Prop :=
  exists s, Roulette.selectedStation w = Some s
            /\ In (name s) (map name (Roulette.items w)).

(** From [w] to [w'] the items are the same and the station shown is
    the same or has been replaced by one of the items. *)
Definition Keeps (w w' : Roulette.Wheel) : Prop :=
  Roulette.items w' = Roulette.items w
  /\ (Roulette.selectedStation w' = Roulette.selectedStation w
      \/ exists s, Roulette.selectedStation w' = Some s
                   /\ In s (Roulette.items w)).

(** The store and the wheel see the same selected station. *)
Definition Synced (p : State) : Prop :=
  Store.selectedStation (store p) = Roulette.selectedStation (wheel p).

(** Double mode on the loaded dataset [ds], with [sel] as selected
    line. *)
Definition Stage (ds : list MetroLine) (sel : option MetroLine)
    (st : Store.State) : Prop :=
  Store.mode st = Some double /\ Store.selectedLine st = sel
  /\ Store.metroData st = ds
  /\ Store.stationIndex st = Store.buildStationIndex ds.

(** A line with a single station, and a dataset of three lines. *)
Definition apm : MetroLine :=
  mkMetroLine "apm" "APM" "#00B5E2" ["Linhexi"%string].
Definition threeLines : list MetroLine :=
  [Store.line1; Store.line2; apm].

(** Double mode chosen on the loaded dataset. *)
Definition doubleMode (ds : list MetroLine) : Store.State :=
  App.selectMode double (Store.loadMetroData ds StoreActions.emptyStore).

End Page.

(** ** The conversion script ([convert_metro_data.js], lines 35-88) *)

Module Script.

(** A line of [businessObject]; [rawStations] is [None] when [stations]
    is missing, [lineColor] when the colour is. *)
Record RawLine := mkRawLine {
  lineShowCode : string;
  lineName : string;
  lineNameEn : string;
  lineColor : option string;
  rawStations : option (list Converter.RawStation)
}.

(** The test of line 37, negated: the line has a non-empty [stations]. *)
Definition hasStations (line : RawLine) : bool :=
  match rawStations line with
  | Some (_ :: _) => true
  | _ => false
  end.

Definition isDigit (c : ascii) : bool :=
  let k := nat_of_ascii c in ((48 <=? k) && (k <=? 57))%nat.

Fixpoint takeDigits (s : string) : string :=
  match s with
  | String c s' => if isDigit c then String c (takeDigits s') else EmptyString
  | EmptyString => EmptyString
  end.

(** [s.match(/[0-9]+/)]: the first run of digits, if any. *)
Fixpoint firstNumber (s : string) : option string :=
  match s with
  | String c s' => if isDigit c then Some (takeDigits s) else firstNumber s'
  | EmptyString => None
  end.

(** [s.includes(sub)]. *)
Definition includes (s sub : string) : bool :=
  match String.index 0 sub s with
  | Some _ => true
  | None => false
  end.

Section Builtins.
(** [trim], [toUpperCase] and [toLowerCase] of [String.prototype], left
    abstract. *)
Variables trim toUpperCase toLowerCase : string -> string.

(** Lines 40-47.  [String.length] counts bytes, which is [length] on
    the ASCII text of a colour code. *)
Definition convertColor (c : option string) : string :=
  let color :=
    match c with
    | Some x => if String.eqb x "" then "#000000"%string else x
    | None => "#000000"%string
    end in
  let color :=
    if (String.length color =? 8)%nat then String.substring 0 6 color
    else color in
  toUpperCase (String.append "#" color).

(** Lines 62-80. *)
Definition convertName (line : RawLine) : string :=
  let relabelled :=
    match firstNumber (lineName line) with
    | Some num => String.append num "号线"
    | None => lineName line
    end in
  if String.eqb (lineNameEn line) "Line 3"
     && includes (lineName line) "北延"
  then "3号线北延段"%string
  else if String.eqb (lineNameEn line) "Line 14"
          && includes (lineName line) "知识城"
  then "14号线支线"%string
  else if String.eqb (lineNameEn line) "Guangfo Line"
          && String.eqb (lineName line) "广佛线后通段"
  then "广佛线后通段"%string
  else if String.eqb (lineNameEn line) "APM"
  then "APM线"%string
  else relabelled.

(** Lines 35-87: the function given to [map]; [None] is [null]. *)
Definition convertLine (line : RawLine) : option MetroLine :=
  match rawStations line with
  | None => None
  | Some [] => None
  | Some sts =>
      Some (mkMetroLine (toLowerCase (lineShowCode line))
              (convertName line)
              (convertColor (lineColor line))
              (Converter.uniqueStationNames trim sts))
  end.

(** [filter(Boolean)] on an array of objects and [null]. *)
Fixpoint compact {A : Type} (l : list (option A)) : list A :=
  match l with
  | [] => []
  | Some x :: l' => x :: compact l'
  | None :: l' => compact l'
  end.

(** Lines 35-88. *)
Definition convert (businessObject : list RawLine) : list MetroLine :=
  compact (map convertLine businessObject).

End Builtins.

(** [toUpperCase] and [toLowerCase] on ASCII text. *)
Definition upperChar (c : ascii) : ascii :=
  let k := nat_of_ascii c in
  if ((97 <=? k) && (k <=? 122))%nat then ascii_of_nat (k - 32) else c.

Definition lowerChar (c : ascii) : ascii :=
  let k := nat_of_ascii c in
  if ((65 <=? k) && (k <=? 90))%nat then ascii_of_nat (k + 32) else c.

Fixpoint mapString (f : ascii -> ascii) (s : string) : string :=
  match s with
  | String c s' => String (f c) (mapString f s')
  | EmptyString => EmptyString
  end.

Definition asciiUpper : string -> string := mapString upperChar.
Definition asciiLower : string -> string := mapString lowerChar.

(** Three raw lines: one with a colour with alpha, one without colour,
    one without stations. *)
Definition rawLine1 : RawLine :=
  mkRawLine "L1" "1号线" "Line 1" (Some "f3d03eff"%string)
    (Some Converter.rawStations1).
Definition rawLine2 : RawLine :=
  mkRawLine "L2" "2号线" "Line 2" None (Some Converter.rawStations2).
Definition rawLine3 : RawLine :=
  mkRawLine "L9" "9号线" "Line 9" (Some "71CC98"%string) (Some []).

End Script.

(** ** Facts about the number primitives *)

Section Numbers.

Lemma ltb_lt (x y : Q) : JS.ltb x y = true <-> x < y.
Proof.
  unfold JS.ltb. rewrite negb_true_iff. split; intro H.
  - apply Qnot_le_lt. intro Hle. apply Qle_bool_iff in Hle. congruence.
  - destruct (Qle_bool y x) eqn:E; auto. apply Qle_bool_iff in E. exfalso. lra.
Qed.

Lemma ltb_ge (x y : Q) : JS.ltb x y = false <-> y <= x.
Proof.
  unfold JS.ltb. rewrite negb_false_iff. apply Qle_bool_iff.
Qed.

Lemma floor_spec (x : Q) :
  inject_Z (JS.floor x) <= x < inject_Z (JS.floor x) + 1.
Proof.
  split; [apply Qfloor_le|].
  generalize (Qlt_floor x). rewrite inject_Z_plus. auto.
Qed.

Lemma ceiling_spec (x : Q) :
  inject_Z (Qceiling x) - 1 < x <= inject_Z (Qceiling x).
Proof.
  split; [|apply Qle_ceiling].
  generalize (Qceiling_lt x). unfold Z.sub.
  rewrite inject_Z_plus, inject_Z_opp.
  change (inject_Z 1) with 1. lra.
Qed.

(** An integer lies between two rationals one apart. *)
Lemma floor_bounds (x : Q) (a b : Z) :
  inject_Z a <= x -> x < inject_Z b -> (a <= JS.floor x < b)%Z.
Proof.
  intros Ha Hb. destruct (floor_spec x) as [H1 H2]. split.
  - apply Z.lt_succ_r. rewrite Zlt_Qlt. unfold Z.succ.
    rewrite inject_Z_plus. change (inject_Z 1) with 1. lra.
  - rewrite Zlt_Qlt. lra.
Qed.

Lemma rem_nonneg (x y : Q) : 0 < y -> 0 <= x -> 0 <= JS.rem x y < y.
Proof.
  intros Hy Hx. unfold JS.rem, JS.trunc.
  assert (Hq : 0 <= x / y) by (apply Qle_shift_div_l; lra).
  destruct (JS.ltb (x / y) 0) eqn:E.
  - apply ltb_lt in E. lra.
  - destruct (floor_spec (x / y)) as [H1 H2]. unfold JS.floor in *.
    assert (Hxy : x == y * (x / y)) by (field; lra).
    set (q := x / y) in *. set (f := inject_Z (Qfloor q)) in *.
    assert (0 <= y * (q - f)) by (apply Qmult_le_0_compat; lra).
    assert (y * (q - f) < y * 1) by (apply Qmult_lt_l; lra).
    lra.
Qed.

Lemma rem_range (x y : Q) : 0 < y -> - y < JS.rem x y < y.
Proof.
  intros Hy. destruct (Qlt_le_dec x 0) as [Hx|Hx].
  - unfold JS.rem, JS.trunc.
    assert (Hq : x / y < 0) by (apply Qlt_shift_div_r; lra).
    apply ltb_lt in Hq. rewrite Hq. apply ltb_lt in Hq.
    destruct (ceiling_spec (x / y)) as [H1 H2].
    assert (Hxy : x == y * (x / y)) by (field; lra).
    set (q := x / y) in *. set (c := inject_Z (Qceiling q)) in *.
    assert (0 <= y * (c - q)) by (apply Qmult_le_0_compat; lra).
    assert (y * (c - q) < y * 1) by (apply Qmult_lt_l; lra).
    lra.
  - destruct (rem_nonneg x y Hy Hx). lra.
Qed.

Lemma normalize_range (r : Q) :
  0 <= Roulette.normalize r < 360.
Proof.
  unfold Roulette.normalize.
  apply rem_nonneg; [lra|].
  destruct (rem_range r 360); lra.
Qed.

(** [normalize] only removes whole turns. *)
Lemma normalize_turns (r : Q) :
  exists k : Z, Roulette.normalize r == r + 360 * inject_Z k.
Proof.
  unfold Roulette.normalize.
  exists (1 + - JS.trunc ((JS.rem r 360 + 360) / 360) + - JS.trunc (r / 360))%Z.
  unfold JS.rem. rewrite !inject_Z_plus, !inject_Z_opp.
  change (inject_Z 1) with 1. ring.
Qed.

End Numbers.

(** The primitives respect equality of numbers. *)

#[export] Instance ltb_comp : Proper (Qeq ==> Qeq ==> eq) JS.ltb.
Proof.
  intros x x' Hx y y' Hy. unfold JS.ltb. now rewrite Hx, Hy.
Qed.

#[export] Instance floor_comp : Proper (Qeq ==> eq) JS.floor.
Proof. intros x y H. unfold JS.floor. now rewrite H. Qed.

#[export] Instance trunc_comp : Proper (Qeq ==> eq) JS.trunc.
Proof.
  intros x y H. unfold JS.trunc.
  rewrite (ltb_comp x y H 0 0 (Qeq_refl 0)).
  now rewrite (Qceiling_comp x y H), (Qfloor_comp x y H).
Qed.

#[export] Instance rem_comp : Proper (Qeq ==> Qeq ==> Qeq) JS.rem.
Proof.
  intros x x' Hx y y' Hy. unfold JS.rem.
  assert (E : JS.trunc (x / y) = JS.trunc (x' / y'))
    by (apply trunc_comp; now rewrite Hx, Hy).
  rewrite E. apply Qplus_comp; [exact Hx|].
  apply Qopp_comp. apply Qmult_comp; [exact Hy|reflexivity].
Qed.

#[export] Instance normalize_comp : Proper (Qeq ==> Qeq) Roulette.normalize.
Proof.
  intros x y H. unfold Roulette.normalize.
  apply rem_comp; [|reflexivity].
  apply Qplus_comp; [|reflexivity]. now apply rem_comp.
Qed.

#[export] Instance frameIndex_comp (n : Z) :
  Proper (Qeq ==> Qeq ==> eq) (Roulette.frameIndex n).
Proof.
  intros s s' Hs r r' Hr. unfold Roulette.frameIndex.
  assert (E : JS.floor (Roulette.normalize r / s)
              = JS.floor (Roulette.normalize r' / s')).
  { apply floor_comp. apply Qmult_comp; [now apply normalize_comp|].
    now apply Qinv_comp. }
  now rewrite E.
Qed.

#[export] Instance watcherIndex_comp (n : Z) :
  Proper (Qeq ==> eq) (Roulette.watcherIndex n).
Proof.
  intros r r' Hr. unfold Roulette.watcherIndex.
  assert (E : JS.floor (Roulette.normalize r / (360 / inject_Z n))
              = JS.floor (Roulette.normalize r' / (360 / inject_Z n))).
  { apply floor_comp. apply Qmult_comp; [now apply normalize_comp|].
    reflexivity. }
  now rewrite E.
Qed.

(** ** The plan of a spin *)

Section Plan.
Import Roulette.

Lemma length_pos {A : Type} (a : list A) : a <> [] -> (0 < JS.length a)%Z.
Proof.
  destruct a; [congruence|]. intros _. unfold JS.length. simpl. lia.
Qed.

Lemma index_in_range {A : Type} (a : list A) (k : Z) :
  (0 <= k < JS.length a)%Z -> exists x, JS.index a k = Some x /\ In x a.
Proof.
  intros [H0 H1]. unfold JS.index, JS.length in *.
  destruct (Z.ltb_spec k 0); [lia|].
  destruct (nth_error a (Z.to_nat k)) eqn:E.
  - exists a0. split; [reflexivity|]. eapply nth_error_In; eauto.
  - apply nth_error_None in E. lia.
Qed.

Lemma inject_Z_pos (n : Z) : (0 < n)%Z -> 0 < inject_Z n.
Proof. intro H. change 0 with (inject_Z 0). now rewrite <- Zlt_Qlt. Qed.

Lemma slice_pos (n : Z) : (0 < n)%Z -> 0 < 360 / inject_Z n.
Proof.
  intro H. apply Qlt_shift_div_l; [now apply inject_Z_pos|lra].
Qed.

Lemma slice_total (n : Z) :
  (0 < n)%Z -> inject_Z n * (360 / inject_Z n) == 360.
Proof.
  intro H. apply inject_Z_pos in H. field. lra.
Qed.

Lemma drawIndex_range (r1 : Q) (n : Z) :
  0 <= r1 < 1 -> (0 < n)%Z -> (0 <= drawIndex r1 n < n)%Z.
Proof.
  intros [H0 H1] Hn. apply inject_Z_pos in Hn. unfold drawIndex.
  apply floor_bounds.
  - change (inject_Z 0) with 0. apply Qmult_le_0_compat; lra.
  - assert (r1 * inject_Z n < 1 * inject_Z n)
      by (apply Qmult_lt_r; lra).
    lra.
Qed.

(** The angle of line 134 is in (0, 360]: sector 0 gives 360, not 0. *)
Lemma baseTargetAngle_range (idx n : Z) :
  (0 <= idx < n)%Z ->
  360 / inject_Z n <= baseTargetAngle idx (360 / inject_Z n) <= 360.
Proof.
  intros [H0 H1]. assert (Hn : (0 < n)%Z) by lia.
  pose proof (slice_pos n Hn) as Hs. pose proof (slice_total n Hn) as Ht.
  unfold baseTargetAngle. set (s := 360 / inject_Z n) in *.
  assert (Hi0 : 0 <= inject_Z idx)
    by (change 0 with (inject_Z 0); now rewrite <- Zle_Qle).
  assert (Hi1 : inject_Z idx <= inject_Z n - 1).
  { assert (idx <= n + - (1))%Z by lia.
    rewrite Zle_Qle, inject_Z_plus, inject_Z_opp in H.
    change (inject_Z 1) with 1 in H. lra. }
  assert (0 <= inject_Z idx * s) by (apply Qmult_le_0_compat; lra).
  assert (inject_Z idx * s <= (inject_Z n - 1) * s)
    by (apply Qmult_le_compat_r; lra).
  split; lra.
Qed.

(** Line 143: with the turns already in [targetAngle], the difference
    is more than two turns. *)
Lemma rawAngleDiff_lower (idx n : Z) (r2 rot : Q) :
  (0 <= idx < n)%Z -> 0 <= r2 ->
  720 < rawAngleDiff idx (360 / inject_Z n) r2 rot.
Proof.
  intros Hi Hr. pose proof (baseTargetAngle_range idx n Hi) as [Hb _].
  pose proof (slice_pos n ltac:(lia)) as Hs.
  pose proof (normalize_range rot) as [_ Hc].
  unfold rawAngleDiff, targetAngle, fullRotations,
    minRotations, maxRotations.
  lra.
Qed.

Lemma computeAngleDiff_raw (idx n : Z) (r2 rot : Q) :
  (0 <= idx < n)%Z -> 0 <= r2 ->
  computeAngleDiff idx (360 / inject_Z n) r2 rot
  = rawAngleDiff idx (360 / inject_Z n) r2 rot.
Proof.
  intros Hi Hr. pose proof (rawAngleDiff_lower idx n r2 rot Hi Hr) as H.
  unfold computeAngleDiff.
  destruct (JS.ltb _ 0) eqn:E; [|reflexivity].
  apply ltb_lt in E. lra.
Qed.

End Plan.

(** ** The sector under the pointer, as the code computes it *)

Section Sector.
Import Roulette.

(** [Math.floor(normalizedRotation / sliceAngle)] is a sector number. *)
Lemma sector_quotient_range (n : Z) (r : Q) :
  (0 < n)%Z -> (0 <= JS.floor (normalize r / (360 / inject_Z n)) < n)%Z.
Proof.
  intro Hn. pose proof (slice_pos n Hn) as Hs.
  pose proof (slice_total n Hn) as Ht.
  pose proof (normalize_range r) as [H0 H1].
  apply floor_bounds.
  - change (inject_Z 0) with 0. apply Qle_shift_div_l; lra.
  - apply Qlt_shift_div_r; lra.
Qed.

(** The two remainders of lines 174-175 keep any integer in range. *)
Lemma frameIndex_range (n : Z) (slice r : Q) :
  (0 < n)%Z -> (0 <= frameIndex n slice r < n)%Z.
Proof.
  intro Hn. unfold frameIndex.
  set (c := Z.rem (JS.floor (normalize r / slice)) n).
  assert (Hc : (Z.abs c < Z.abs n)%Z) by (apply Z.rem_bound_abs; lia).
  apply Z.rem_bound_pos; lia.
Qed.

Lemma watcherIndex_range (n : Z) (r : Q) :
  (0 < n)%Z -> (0 <= watcherIndex n r < n)%Z.
Proof.
  intro Hn. unfold watcherIndex.
  pose proof (sector_quotient_range n r Hn).
  apply Z.rem_bound_pos; lia.
Qed.

(** [animate] and [updateCurrentItem] agree on the item. *)
Lemma frameIndex_watcherIndex (n : Z) (r : Q) :
  (0 < n)%Z -> frameIndex n (360 / inject_Z n) r = watcherIndex n r.
Proof.
  intro Hn. unfold frameIndex, watcherIndex.
  rewrite (Z.rem_small (JS.floor _) n); [reflexivity|].
  now apply sector_quotient_range.
Qed.

End Sector.

(** ** The easing curve *)

Section Easing.
Import Roulette.

Lemma pow4 (x : Q) : JS.pow x 4 == x * x * x * x.
Proof. unfold JS.pow. simpl. ring. Qed.

Lemma square_nonneg (a : Q) : 0 <= a * a.
Proof.
  destruct (Qlt_le_dec a 0).
  - assert (0 <= (- a) * (- a)) by (apply Qmult_le_0_compat; lra). lra.
  - apply Qmult_le_0_compat; lra.
Qed.

Lemma cube_monotone (p q : Q) : p <= q -> p * p * p <= q * q * q.
Proof.
  intro H.
  pose proof (square_nonneg (q + p * (1 # 2))).
  pose proof (square_nonneg p).
  assert (0 <= (q - p) * ((q + p * (1 # 2)) * (q + p * (1 # 2))
                          + (3 # 4) * (p * p)))
    by (apply Qmult_le_0_compat; lra).
  lra.
Qed.

Lemma fourth_monotone (a b : Q) :
  0 <= b -> b <= a -> b * b * b * b <= a * a * a * a.
Proof.
  intros H0 H1.
  assert (0 <= b * b) by (apply Qmult_le_0_compat; lra).
  assert (b * b <= a * a).
  { assert (b * b <= a * b) by (apply Qmult_le_compat_r; lra).
    assert (b * a <= a * a) by (apply Qmult_le_compat_r; lra).
    lra. }
  assert ((b * b) * (b * b) <= (a * a) * (b * b))
    by (apply Qmult_le_compat_r; lra).
  assert ((b * b) * (a * a) <= (a * a) * (a * a))
    by (apply Qmult_le_compat_r; lra).
  lra.
Qed.

Lemma half (x : Q) : x / 2 == x * (1 # 2).
Proof. reflexivity. Qed.

Lemma easing_first_half (p : Q) :
  p < 1 # 2 -> easing p == 3 * p * p * p.
Proof.
  intro H. unfold easing. apply ltb_lt in H. now rewrite H.
Qed.

Lemma easing_second_half (p : Q) :
  1 # 2 <= p ->
  easing p == 1 - (-2 * p + 2) * (-2 * p + 2) * (-2 * p + 2) * (-2 * p + 2) / 2.
Proof.
  intro H. unfold easing. apply ltb_ge in H. rewrite H.
  rewrite pow4. reflexivity.
Qed.

#[export] Instance easing_comp : Proper (Qeq ==> Qeq) easing.
Proof.
  intros p q H. destruct (Qlt_le_dec p (1 # 2)) as [Hp|Hp].
  - rewrite (easing_first_half p Hp), (easing_first_half q) by lra.
    now rewrite H.
  - rewrite (easing_second_half p Hp), (easing_second_half q) by lra.
    now rewrite H.
Qed.

Lemma easing_one : easing 1 == 1.
Proof. reflexivity. Qed.

(** The curve jumps from 3/8 to 1/2 at one half but never goes back. *)
Lemma easing_monotone (p q : Q) :
  p <= q -> q <= 1 -> easing p <= easing q.
Proof.
  intros Hpq Hq.
  destruct (Qlt_le_dec q (1 # 2)) as [Hq2|Hq2].
  - rewrite (easing_first_half p), (easing_first_half q) by lra.
    pose proof (cube_monotone p q Hpq). lra.
  - rewrite (easing_second_half q Hq2).
    assert (Hb : (-2 * q + 2) * (-2 * q + 2) * (-2 * q + 2) * (-2 * q + 2)
                 <= 1 * 1 * 1 * 1)
      by (apply fourth_monotone; lra).
    destruct (Qlt_le_dec p (1 # 2)) as [Hp2|Hp2].
    + rewrite (easing_first_half p Hp2).
      pose proof (cube_monotone p (1 # 2) ltac:(lra)) as Hc.
      assert (Hh : (1 # 2) * (1 # 2) * (1 # 2) == 1 # 8) by reflexivity.
      rewrite Hh in Hc.
      set (X := (-2 * q + 2) * (-2 * q + 2) * (-2 * q + 2) * (-2 * q + 2))
        in *.
      set (Y := p * p * p) in *.
      assert (3 * p * p * p == 3 * Y) by (unfold Y; ring).
      clearbody X Y. rewrite half. lra.
    + rewrite (easing_second_half p Hp2).
      assert ((-2 * q + 2) * (-2 * q + 2) * (-2 * q + 2) * (-2 * q + 2)
              <= (-2 * p + 2) * (-2 * p + 2) * (-2 * p + 2) * (-2 * p + 2))
        by (apply fourth_monotone; lra).
      rewrite !half. lra.
Qed.

Lemma min_spec (x y : Q) :
  (y < x /\ JS.min x y = y) \/ (x <= y /\ JS.min x y = x).
Proof.
  unfold JS.min. destruct (JS.ltb y x) eqn:E.
  - left. apply ltb_lt in E. auto.
  - right. apply ltb_ge in E. auto.
Qed.

Lemma min_le_r (x y : Q) : JS.min x y <= y.
Proof. destruct (min_spec x y) as [[? ->]|[? ->]]; lra. Qed.

Lemma min_monotone (x x' y : Q) : x <= x' -> JS.min x y <= JS.min x' y.
Proof.
  intro H. destruct (min_spec x y) as [[? ->]|[? ->]];
    destruct (min_spec x' y) as [[? ->]|[? ->]]; lra.
Qed.

End Easing.

(** ** An accepted spin *)

Section Spin.
Import Roulette.

Variables (its : list MetroStation) (r1 r2 now rot : Q).
Hypothesis Hits : its <> [].
Hypothesis Hr1 : 0 <= r1 < 1.
Hypothesis Hr2 : 0 <= r2.

Let a : Anim := planSpin r1 r2 now its rot.
Let n : Z := JS.length its.

Lemma plan_index_range : (0 <= targetIndex a < n)%Z.
Proof. apply drawIndex_range; [exact Hr1|now apply length_pos]. Qed.

Lemma plan_target : exists s, targetItem a = Some s /\ In s its.
Proof. apply index_in_range, plan_index_range. Qed.

Lemma plan_angleDiff :
  angleDiff a = rawAngleDiff (targetIndex a) (360 / inject_Z n) r2 rot.
Proof. apply computeAngleDiff_raw; [apply plan_index_range|exact Hr2]. Qed.

Lemma plan_angleDiff_lower : 720 < angleDiff a.
Proof.
  rewrite plan_angleDiff.
  apply rawAngleDiff_lower; [apply plan_index_range|exact Hr2].
Qed.

Lemma plan_duration_lower : 2000 < duration a.
Proof.
  pose proof plan_angleDiff_lower as H.
  change (duration a)
    with (1000 * (1 + angleDiff a * (1 # 360) * (1 # 2))).
  lra.
Qed.

Lemma plan_endRotation : endRotation a = startRotation a + angleDiff a.
Proof. reflexivity. Qed.

Lemma progressAt_le_1 (t : Q) : progressAt a t <= 1.
Proof. apply min_le_r. Qed.

Lemma progressAt_monotone (t t' : Q) :
  t <= t' -> progressAt a t <= progressAt a t'.
Proof.
  intro H. apply min_monotone. unfold Qdiv.
  apply Qmult_le_compat_r; [lra|].
  apply Qinv_le_0_compat. pose proof plan_duration_lower. lra.
Qed.

(** Line 180 takes the completion branch exactly when the duration has
    elapsed. *)
Lemma progress_complete (t : Q) :
  JS.ltb (progressAt a t) 1 = false <-> startTime a + duration a <= t.
Proof.
  pose proof plan_duration_lower as HD.
  rewrite ltb_ge. unfold progressAt.
  assert (Hx : t - startTime a
               == (t - startTime a) / duration a * duration a)
    by (field; lra).
  set (q := (t - startTime a) / duration a) in *.
  assert (Hq : 1 <= q <-> 1 * duration a <= q * duration a)
    by (symmetry; apply Qmult_le_r; lra).
  destruct (min_spec q 1) as [[H ->]|[H ->]]; split; intro H'; lra.
Qed.

Lemma progress_complete_eq (t : Q) :
  JS.ltb (progressAt a t) 1 = false -> progressAt a t == 1.
Proof.
  intro H. apply ltb_ge in H. pose proof (progressAt_le_1 t). lra.
Qed.

Lemma rotationAt_monotone (t t' : Q) :
  t <= t' -> rotationAt a t <= rotationAt a t'.
Proof.
  intro H. unfold rotationAt.
  pose proof plan_angleDiff_lower as Hd.
  pose proof (easing_monotone _ _ (progressAt_monotone t t' H)
                (progressAt_le_1 t')) as He.
  assert (angleDiff a * easing (progressAt a t)
          <= angleDiff a * easing (progressAt a t')).
  { rewrite !(Qmult_comm (angleDiff a)).
    apply Qmult_le_compat_r; lra. }
  lra.
Qed.

Lemma rotationAt_from_start (t : Q) :
  startTime a <= t -> startRotation a <= rotationAt a t.
Proof.
  intro H. pose proof (rotationAt_monotone _ _ H) as Hm.
  assert (Hp : progressAt a (startTime a) == 0).
  { unfold progressAt.
    assert (Hz : (startTime a - startTime a) / duration a == 0).
    { unfold Qdiv. setoid_replace (startTime a - startTime a) with 0 by ring.
      ring. }
    destruct (min_spec ((startTime a - startTime a) / duration a) 1)
      as [[Hlt ->]|[_ ->]]; [lra|exact Hz]. }
  assert (Hs : rotationAt a (startTime a) == startRotation a).
  { unfold rotationAt. rewrite Hp.
    assert (E0 : easing 0 == 0) by reflexivity. rewrite E0. ring. }
  lra.
Qed.

Lemma rotationAt_complete (t : Q) :
  JS.ltb (progressAt a t) 1 = false -> rotationAt a t == endRotation a.
Proof.
  intro H. apply progress_complete_eq in H.
  unfold rotationAt. rewrite H, easing_one, plan_endRotation. ring.
Qed.

(** *** The frames of the spin *)

Lemma frame_item (r : Q) :
  exists item, JS.index its (frameIndex n (360 / inject_Z n) r) = Some item
               /\ JS.index its (watcherIndex n r) = Some item.
Proof.
  pose proof (length_pos its Hits) as Hn.
  destruct (index_in_range its (frameIndex n (360 / inject_Z n) r))
    as [item [Hi _]]; [now apply frameIndex_range|].
  exists item. split; [exact Hi|].
  now rewrite <- frameIndex_watcherIndex.
Qed.

Lemma animate_running (t : Q) (w : Wheel) (item : MetroStation) :
  isAnimating w = true -> items w = its ->
  JS.index its (frameIndex n (360 / inject_Z n) (rotationAt a t))
  = Some item ->
  JS.ltb (progressAt a t) 1 = true ->
  animate a t w
  = requestAnimationFrame a
      (selectStation item (setRotation (rotationAt a t) w)).
Proof.
  intros Ha Hi Hx Hp. unfold animate. rewrite Ha. simpl negb. cbv iota.
  simpl items. rewrite Hi.
  change (totalItems a) with n.
  change (sliceAngle a) with (360 / inject_Z n).
  rewrite Hx, Hp. reflexivity.
Qed.

Lemma animate_complete (t : Q) (w : Wheel) (item s : MetroStation) :
  isAnimating w = true -> items w = its ->
  JS.index its (frameIndex n (360 / inject_Z n) (rotationAt a t))
  = Some item ->
  targetItem a = Some s ->
  JS.ltb (progressAt a t) 1 = false ->
  animate a t w
  = emitSpinComplete s
      (setAnimating false
         (setRotation (endRotation a)
            (selectStation item (setRotation (rotationAt a t) w)))).
Proof.
  intros Ha Hi Hx Hs Hp. unfold animate. rewrite Ha. simpl negb. cbv iota.
  simpl items. rewrite Hi.
  change (totalItems a) with n.
  change (sliceAngle a) with (360 / inject_Z n).
  rewrite Hx, Hp, Hs. reflexivity.
Qed.

Lemma setWatched_same (w : Wheel) : setWatched (watched w) w = w.
Proof. now destruct w. Qed.

Lemma clearRaf_same (w : Wheel) : raf w = [] -> clearRaf w = w.
Proof. destruct w. simpl. now intros ->. Qed.

(** When the store already holds the item at the live angle, the
    watcher changes nothing but what it has seen. *)
Lemma flushWatcher_settled (w : Wheel) (item : MetroStation) :
  items w = its -> selectedStation w = Some item ->
  JS.index its (watcherIndex n (currentRotation w)) = Some item ->
  exists seen, flushWatcher w = setWatched seen w
               /\ Qeq_bool (currentRotation w) seen = true.
Proof.
  intros Hi Hs Hx. unfold flushWatcher.
  destruct (Qeq_bool (currentRotation w) (watched w)) eqn:E.
  - exists (watched w). now rewrite setWatched_same.
  - exists (currentRotation w). split; [|apply Qeq_bool_refl].
    unfold updateCurrentItem. simpl items. simpl currentRotation.
    simpl selectedStation. rewrite Hi. fold n.
    pose proof (length_pos its Hits) as Hn. fold n in Hn.
    destruct (Z.eqb_spec n 0); [lia|].
    rewrite Hx, Hs. simpl. now rewrite String.eqb_refl.
Qed.

(** A frame before the duration has elapsed. *)
Lemma frame_running (t : Q) (w : Wheel) :
  Running its a w -> JS.ltb (progressAt a t) 1 = true ->
  exists seen item,
    frame t w
    = setWatched seen
        (requestAnimationFrame a
           (selectStation item
              (setRotation (rotationAt a t) (clearRaf w)))).
Proof.
  intros (Ha & Hq & Hi) Hp.
  destruct (frame_item (rotationAt a t)) as [item [Hx Hy]].
  unfold frame. rewrite Hq. simpl fold_left.
  rewrite (animate_running t (clearRaf w) item Ha Hi Hx Hp).
  destruct (flushWatcher_settled
              (requestAnimationFrame a
                 (selectStation item
                    (setRotation (rotationAt a t) (clearRaf w)))) item)
    as [seen [Hf _]]; try reflexivity; try assumption.
  exists seen, item. exact Hf.
Qed.

(** The frame on which the duration has elapsed. *)
Lemma frame_complete (t : Q) (w : Wheel) :
  Running its a w -> JS.ltb (progressAt a t) 1 = false ->
  exists seen item s,
    targetItem a = Some s
    /\ Qeq_bool (endRotation a) seen = true
    /\ frame t w
       = setWatched seen
           (emitSpinComplete s
              (setAnimating false
                 (setRotation (endRotation a)
                    (selectStation item
                       (setRotation (rotationAt a t) (clearRaf w)))))).
Proof.
  intros (Ha & Hq & Hi) Hp.
  destruct (frame_item (rotationAt a t)) as [item [Hx Hy]].
  destruct plan_target as [s [Hs _]].
  unfold frame. rewrite Hq. simpl fold_left.
  rewrite (animate_complete t (clearRaf w) item s Ha Hi Hx Hs Hp).
  destruct (flushWatcher_settled
              (emitSpinComplete s
                 (setAnimating false
                    (setRotation (endRotation a)
                       (selectStation item
                          (setRotation (rotationAt a t) (clearRaf w))))))
              item)
    as [seen [Hf Hseen]]; try reflexivity; try assumption.
  - change (JS.index its (watcherIndex n (endRotation a)) = Some item).
    rewrite <- (watcherIndex_comp n _ _ (rotationAt_complete t Hp)).
    exact Hy.
  - exists seen, item, s. auto.
Qed.

Lemma frame_finished (t : Q) (w : Wheel) : Finished its a w -> frame t w = w.
Proof.
  intros (Ha & Hq & Hi & Hr & Hw). unfold frame.
  rewrite Hq. simpl fold_left. rewrite (clearRaf_same w Hq).
  unfold flushWatcher. now rewrite Hw.
Qed.

Lemma runFrames_finished (ts : list Q) (w : Wheel) :
  Finished its a w -> runFrames ts w = w.
Proof.
  intro H. induction ts as [|t ts IH]; [reflexivity|].
  unfold runFrames in *. simpl. now rewrite (frame_finished t w H).
Qed.

Lemma spinWheel_accepted (w : Wheel) :
  Idle w -> items w = its -> rotation w = rot ->
  spinWheel r1 r2 now w = requestAnimationFrame a (setAnimating true w).
Proof.
  intros [Ha Hq] Hi Hr. unfold spinWheel. rewrite Ha, Hi, Hr.
  pose proof (length_pos its Hits) as Hn.
  destruct (Z.eqb_spec (JS.length its) 0); [lia|]. reflexivity.
Qed.

Lemma spinWheel_running (w : Wheel) :
  Idle w -> items w = its -> rotation w = rot ->
  Running its a (spinWheel r1 r2 now w).
Proof.
  intros Hidle Hi Hr. rewrite (spinWheel_accepted w Hidle Hi Hr).
  destruct Hidle as [Ha Hq]. repeat split; simpl; auto.
  now rewrite Hq.
Qed.

Lemma emitted_app (l l' : list Event) :
  emitted (l ++ l') = emitted l ++ emitted l'.
Proof.
  induction l as [|e l IH]; [reflexivity|].
  destruct e; simpl; now rewrite IH.
Qed.

(** What a run of frames adds to the trace: either the spin is still in
    flight and nothing was emitted, or it is over and the trace ends
    with the last rotation, [isAnimating = false] and the one event. *)
Lemma run_trace (ts : list Q) : forall w : Wheel,
  Running its a w ->
  (Running its a (runFrames ts w)
   /\ Forall (fun t => JS.ltb (progressAt a t) 1 = true) ts
   /\ exists upd, trace (runFrames ts w) = trace w ++ upd
                  /\ emitted upd = [])
  \/
  (Finished its a (runFrames ts w)
   /\ exists upd s,
       targetItem a = Some s
       /\ trace (runFrames ts w)
          = trace w ++ upd ++ [EvRotation (endRotation a);
                               EvAnimating false; EvEmit s]
       /\ emitted upd = []).
Proof.
  induction ts as [|t ts IH]; intros w Hw.
  - left. repeat split; try apply Hw; [constructor|].
    exists []. now rewrite app_nil_r.
  - change (runFrames (t :: ts) w) with (runFrames ts (frame t w)).
    destruct (JS.ltb (progressAt a t) 1) eqn:Hp.
    + destruct (frame_running t w Hw Hp) as (seen & item & Hf).
      destruct Hw as (Ha & Hq & Hi).
      assert (Hw' : Running its a (frame t w)).
      { rewrite Hf. repeat split; simpl; auto. }
      assert (Ht : trace (frame t w)
                   = trace w ++ [EvRotation (rotationAt a t);
                                 EvSelect item; EvRequestFrame]).
      { rewrite Hf. simpl. now rewrite <- !app_assoc. }
      destruct (IH _ Hw') as [(Hr & Hall & upd & Hu & He)
                             |(Hfin & upd & s & Hs & Hu & He)].
      * left. repeat split; try apply Hr; [now constructor|].
        exists ([EvRotation (rotationAt a t); EvSelect item;
                 EvRequestFrame] ++ upd).
        split; [now rewrite Hu, Ht, <- app_assoc|].
        now rewrite emitted_app, He.
      * right. split; [exact Hfin|].
        exists ([EvRotation (rotationAt a t); EvSelect item;
                 EvRequestFrame] ++ upd), s.
        split; [exact Hs|]. split.
        -- now rewrite Hu, Ht, <- !app_assoc.
        -- now rewrite emitted_app, He.
    + destruct (frame_complete t w Hw Hp)
        as (seen & item & s & Hs & Hseen & Hf).
      destruct Hw as (Ha & Hq & Hi).
      assert (Hfin : Finished its a (frame t w)).
      { rewrite Hf. repeat split; simpl; auto. }
      right. rewrite (runFrames_finished ts _ Hfin).
      split; [exact Hfin|].
      exists [EvRotation (rotationAt a t); EvSelect item], s.
      split; [exact Hs|]. split; [|reflexivity].
      rewrite Hf. simpl. now rewrite <- !app_assoc.
Qed.

Lemma frameStates_finished (ts : list Q) (w : Wheel) :
  Finished its a w ->
  map rotation (frameStates ts w) = map (fun _ => endRotation a) ts.
Proof.
  intro H. induction ts as [|t ts IH]; [reflexivity|].
  simpl. rewrite (frame_finished t w H), IH.
  destruct H as (_ & _ & _ & Hr & _). now rewrite Hr.
Qed.

(** On non-decreasing timestamps every frame leaves the wheel at the
    eased angle of its timestamp. *)
Lemma run_rotations (ts : list Q) : forall w : Wheel,
  Running its a w -> StronglySorted Qle ts ->
  Forall2 Qeq (map rotation (frameStates ts w)) (map (rotationAt a) ts).
Proof.
  induction ts as [|t ts IH]; intros w Hw Hs; [constructor|].
  apply StronglySorted_inv in Hs. destruct Hs as [Hs Hle].
  simpl. destruct (JS.ltb (progressAt a t) 1) eqn:Hp.
  - destruct (frame_running t w Hw Hp) as (seen & item & Hf).
    destruct Hw as (Ha & Hq & Hi).
    constructor.
    + rewrite Hf. simpl. reflexivity.
    + apply IH; [|exact Hs]. rewrite Hf. repeat split; simpl; auto.
  - destruct (frame_complete t w Hw Hp)
      as (seen & item & s & Hsome & Hseen & Hf).
    destruct Hw as (Ha & Hq & Hi).
    assert (Hfin : Finished its a (frame t w)).
    { rewrite Hf. repeat split; simpl; auto. }
    constructor.
    + rewrite Hf. simpl rotation. symmetry.
      now apply rotationAt_complete.
    + rewrite (frameStates_finished ts _ Hfin).
      clear IH Hs. induction ts as [|t' ts IH']; [constructor|].
      apply Forall_cons_iff in Hle. destruct Hle as [Ht' Hle].
      simpl. constructor; [|now apply IH'].
      symmetry. apply rotationAt_complete.
      apply progress_complete. apply progress_complete in Hp. lra.
Qed.

Lemma rotationAt_sorted (ts : list Q) :
  StronglySorted Qle ts -> StronglySorted Qle (map (rotationAt a) ts).
Proof.
  induction 1 as [|t ts Hs IH Hle]; simpl; constructor; [exact IH|].
  apply Forall_map. eapply Forall_impl; [|exact Hle].
  intros t' Ht'. now apply rotationAt_monotone.
Qed.

End Spin.

Lemma Forall2_Qeq_Forall_le (x y : Q) (l l' : list Q) :
  x == y -> Forall2 Qeq l l' -> Forall (Qle y) l' -> Forall (Qle x) l.
Proof.
  intros Hxy H. induction H as [|u v l l' Huv H IH]; intro Hl; constructor.
  - apply Forall_inv in Hl. lra.
  - apply IH. now apply Forall_inv_tail in Hl.
Qed.

Lemma StronglySorted_Qeq (l l' : list Q) :
  Forall2 Qeq l l' -> StronglySorted Qle l' -> StronglySorted Qle l.
Proof.
  induction 1 as [|x y l l' Hxy H IH]; intro Hs; constructor.
  - apply IH. now apply StronglySorted_inv in Hs.
  - apply StronglySorted_inv in Hs. destruct Hs as [_ Hle].
    now apply (Forall2_Qeq_Forall_le x y l l').
Qed.

(** ** Where the wheel stops and what is under the pointer *)

Section Landing.
Import Roulette.

Lemma integer_below_one (k : Z) : -1 < inject_Z k < 1 -> k = 0%Z.
Proof.
  intros [H0 H1].
  assert ((-1 < k)%Z) by (rewrite Zlt_Qlt; exact H0).
  assert ((k < 1)%Z) by (rewrite Zlt_Qlt; exact H1).
  lia.
Qed.

(** Two numbers of [0, m) that differ by a multiple of [m] are equal. *)
Lemma congruent_in_range (u v m : Q) (k : Z) :
  0 < m -> 0 <= u < m -> 0 <= v < m -> u == v + m * inject_Z k -> u == v.
Proof.
  intros Hm Hu Hv E.
  assert (Hk : k = 0%Z).
  { apply integer_below_one. split.
    - apply (Qmult_lt_l _ _ m Hm). lra.
    - apply (Qmult_lt_l _ _ m Hm). lra. }
  subst k. change (inject_Z 0) with 0 in E. lra.
Qed.

Lemma normalize_unique (x y : Q) (k : Z) :
  0 <= y < 360 -> x == y + 360 * inject_Z k -> normalize x == y.
Proof.
  intros Hy E. destruct (normalize_turns x) as [j Hj].
  apply (congruent_in_range _ _ 360 (k + j)); [lra|apply normalize_range|exact Hy|].
  rewrite inject_Z_plus, Hj. lra.
Qed.

Lemma modulo_range (x m : Q) : 0 < m -> 0 <= modulo x m < m.
Proof.
  intro Hm. unfold modulo.
  destruct (floor_spec (x / m)) as [H1 H2]. unfold JS.floor in *.
  assert (Hx : x == m * (x / m)) by (field; lra).
  set (q := x / m) in *. set (f := inject_Z (Qfloor q)) in *.
  assert (0 <= m * (q - f)) by (apply Qmult_le_0_compat; lra).
  assert (m * (q - f) < m * 1) by (apply Qmult_lt_l; lra).
  lra.
Qed.

Lemma modulo_unique (x y m : Q) (k : Z) :
  0 < m -> 0 <= y < m -> x == y + m * inject_Z k -> modulo x m == y.
Proof.
  intros Hm Hy E.
  apply (congruent_in_range _ _ m (k - Qfloor (x / m)));
    [exact Hm|now apply modulo_range|exact Hy|].
  unfold modulo, Z.sub. rewrite inject_Z_plus, inject_Z_opp. lra.
Qed.

(** The pointer faces the wheel angle [360 - r], taken mod 360. *)
Lemma pointerAngle_normalize (r : Q) :
  (normalize r == 0 -> pointerAngle r == 0)
  /\ (0 < normalize r -> pointerAngle r == 360 - normalize r).
Proof.
  destruct (normalize_turns r) as [j Hj].
  pose proof (normalize_range r) as Hr.
  unfold pointerAngle. split; intro H.
  - apply (modulo_unique _ _ _ (1 + j)); [lra|lra|].
    rewrite inject_Z_plus. change (inject_Z 1) with 1. lra.
  - apply (modulo_unique _ _ _ j); lra.
Qed.

Lemma quotient_bounds (x w : Q) :
  0 < w ->
  inject_Z (JS.floor (x / w)) * w <= x
  /\ x < (inject_Z (JS.floor (x / w)) + 1) * w.
Proof.
  intro Hw. destruct (floor_spec (x / w)) as [H1 H2].
  assert (Hx : x == (x / w) * w) by (field; lra).
  set (q := x / w) in *. set (f := inject_Z (JS.floor q)) in *.
  assert (f * w <= q * w) by (apply Qmult_le_compat_r; lra).
  assert (q * w < (f + 1) * w) by (apply Qmult_lt_r; lra).
  lra.
Qed.

Lemma sectorStart_slice (i n : Z) :
  (0 < n)%Z -> sectorStart i n == inject_Z i * (360 / inject_Z n).
Proof.
  intro Hn. apply inject_Z_pos in Hn. unfold sectorStart. field. lra.
Qed.

Lemma sectorEnd_slice (i n : Z) :
  (0 < n)%Z -> sectorEnd i n == (inject_Z i + 1) * (360 / inject_Z n).
Proof.
  intro Hn. apply inject_Z_pos in Hn. unfold sectorEnd.
  rewrite inject_Z_plus. change (inject_Z 1) with 1. field. lra.
Qed.

(** At most one item is under the pointer. *)
Lemma underPointer_unique (n : Z) (r : Q) (i j : Z) :
  (0 < n)%Z -> underPointer n r i -> underPointer n r j -> i = j.
Proof.
  intros Hn [Hi0 Hi1] [Hj0 Hj1].
  rewrite sectorStart_slice in Hi0, Hj0 by exact Hn.
  rewrite sectorEnd_slice in Hi1, Hj1 by exact Hn.
  pose proof (slice_pos n Hn) as Hs. set (w := 360 / inject_Z n) in *.
  assert (Hlt : forall a b : Z,
             inject_Z a * w < (inject_Z b + 1) * w -> (a <= b)%Z).
  { intros a b H. apply Qmult_lt_r in H; [|exact Hs].
    apply Z.lt_succ_r. rewrite Zlt_Qlt. unfold Z.succ.
    rewrite inject_Z_plus. exact H. }
  assert ((i <= j)%Z) by (apply Hlt; lra).
  assert ((j <= i)%Z) by (apply Hlt; lra).
  lia.
Qed.

(** When the rotation is an exact multiple of the slice the frame
    reports the item whose part starts under the pointer. *)
Lemma frameIndex_on_boundary (n : Z) (r : Q) :
  (0 < n)%Z ->
  normalize r
  == inject_Z (JS.floor (normalize r / (360 / inject_Z n)))
     * (360 / inject_Z n) ->
  underPointer n r (frameIndex n (360 / inject_Z n) r).
Proof.
  intros Hn Hb. pose proof (slice_pos n Hn) as Hs.
  pose proof (slice_total n Hn) as Ht.
  pose proof (sector_quotient_range n r Hn) as Hk.
  pose proof (normalize_range r) as Hr.
  destruct (pointerAngle_normalize r) as [Hp0 Hp1].
  unfold underPointer, frameIndex.
  rewrite sectorStart_slice, sectorEnd_slice by exact Hn.
  rewrite (Z.rem_small _ n Hk).
  set (w := 360 / inject_Z n) in *.
  set (k := JS.floor (normalize r / w)) in *.
  destruct (Z.eq_dec k 0) as [Hk0|Hk0].
  - rewrite Hk0 in *. change (inject_Z 0) with 0 in Hb.
    rewrite Z.sub_0_r, Z.rem_same by lia.
    rewrite Hp0 by lra. change (inject_Z 0) with 0. lra.
  - rewrite (Z.rem_small (n - k) n) by lia.
    assert (Hkpos : 1 <= inject_Z k).
    { change 1 with (inject_Z 1). rewrite <- Zle_Qle. lia. }
    assert (w <= inject_Z k * w).
    { assert (1 * w <= inject_Z k * w) by (apply Qmult_le_compat_r; lra).
      lra. }
    rewrite Hp1 by lra.
    unfold Z.sub. rewrite inject_Z_plus, inject_Z_opp. lra.
Qed.

(** Anywhere else it reports the item after the one under the pointer. *)
Lemma frameIndex_off_boundary (n : Z) (r : Q) :
  (0 < n)%Z ->
  inject_Z (JS.floor (normalize r / (360 / inject_Z n)))
  * (360 / inject_Z n) < normalize r ->
  underPointer n r (Z.rem (frameIndex n (360 / inject_Z n) r + n - 1) n).
Proof.
  intros Hn Hb. pose proof (slice_pos n Hn) as Hs.
  pose proof (slice_total n Hn) as Ht.
  pose proof (sector_quotient_range n r Hn) as Hk.
  pose proof (normalize_range r) as Hr.
  destruct (pointerAngle_normalize r) as [_ Hp1].
  destruct (quotient_bounds (normalize r) (360 / inject_Z n) Hs) as [_ Hq].
  unfold underPointer, frameIndex.
  rewrite sectorStart_slice, sectorEnd_slice by exact Hn.
  rewrite (Z.rem_small _ n Hk).
  set (w := 360 / inject_Z n) in *.
  set (k := JS.floor (normalize r / w)) in *.
  assert (Hk0 : 0 <= inject_Z k).
  { change 0 with (inject_Z 0). rewrite <- Zle_Qle. lia. }
  assert (0 <= inject_Z k * w) by (apply Qmult_le_0_compat; lra).
  assert (Hidx : Z.rem (Z.rem (n - k) n + n - 1) n = (n - k - 1)%Z).
  { destruct (Z.eq_dec k 0) as [->|Hne].
    - rewrite Z.sub_0_r, Z.rem_same by lia. apply Z.rem_small. lia.
    - rewrite (Z.rem_small (n - k) n) by lia.
      symmetry. apply (Z.rem_unique _ _ 1); lia. }
  rewrite Hidx, Hp1 by lra.
  unfold Z.sub. rewrite !inject_Z_plus, !inject_Z_opp.
  change (inject_Z 1) with 1. lra.
Qed.

(** The wheel stops at the base target angle plus the fraction of a turn
    that the second draw adds, up to whole turns. *)
Lemma landing_angle (its : list MetroStation) (r1 r2 now rot : Q) :
  its <> [] -> 0 <= r1 < 1 -> 0 <= r2 ->
  let a := planSpin r1 r2 now its rot in
  exists k : Z,
    endRotation a
    == baseTargetAngle (targetIndex a) (sliceAngle a)
       + 720 * r2 + 360 * inject_Z k.
Proof.
  intros Hits Hr1 Hr2 a. subst a.
  destruct (normalize_turns rot) as [j Hj].
  exists (3 + - j)%Z.
  rewrite (plan_endRotation its r1 r2 now rot).
  rewrite (plan_angleDiff its r1 r2 now rot Hits Hr1 Hr2).
  unfold rawAngleDiff, targetAngle, fullRotations, minRotations,
    maxRotations.
  rewrite Hj, inject_Z_plus, inject_Z_opp.
  change (inject_Z 3) with 3.
  change (startRotation (planSpin r1 r2 now its rot)) with rot.
  change (sliceAngle (planSpin r1 r2 now its rot))
    with (360 / inject_Z (JS.length its)).
  ring.
Qed.

(** With a whole number of extra turns the wheel stops where the frame's
    sector lookup gives the target item. *)
Lemma landing_on_whole_turns (its : list MetroStation) (r1 r2 now rot : Q) :
  its <> [] -> 0 <= r1 < 1 -> r2 == 0 \/ r2 == 1 # 2 ->
  let a := planSpin r1 r2 now its rot in
  frameIndex (totalItems a) (sliceAngle a) (endRotation a) = targetIndex a
  /\ JS.index its (frameIndex (totalItems a) (sliceAngle a) (endRotation a))
     = targetItem a.
Proof.
  intros Hits Hr1 Hr2 a.
  assert (Hr2' : 0 <= r2) by (destruct Hr2 as [->| ->]; lra).
  pose proof (length_pos its Hits) as Hn.
  pose proof (plan_index_range its r1 r2 now rot Hits Hr1) as Hi.
  fold a in Hi.
  destruct (landing_angle its r1 r2 now rot Hits Hr1 Hr2') as [k Hk].
  fold a in Hk.
  change (totalItems a) with (JS.length its) in *.
  change (sliceAngle a) with (360 / inject_Z (JS.length its)) in *.
  set (n := JS.length its) in *.
  pose proof (slice_pos n Hn) as Hs. pose proof (slice_total n Hn) as Ht.
  set (w := 360 / inject_Z n) in *.
  assert (Hturn : exists z : Z,
             endRotation a
             == baseTargetAngle (targetIndex a) w + 360 * inject_Z z).
  { destruct Hr2 as [E|E]; rewrite E in Hk.
    - exists k. rewrite Hk. ring.
    - exists (k + 1)%Z. rewrite Hk, inject_Z_plus.
      change (inject_Z 1) with 1. ring. }
  destruct Hturn as [z Hz]. unfold baseTargetAngle in Hz.
  assert (Hidx : frameIndex n w (endRotation a) = targetIndex a).
  { unfold frameIndex. destruct (Z.eq_dec (targetIndex a) 0) as [E0|E0].
    - assert (Hnorm : normalize (endRotation a) == 0).
      { apply (normalize_unique _ _ (z + 1)); [lra|].
        rewrite Hz, E0, inject_Z_plus.
        change (inject_Z 0) with 0. change (inject_Z 1) with 1. ring. }
      assert (Hq : normalize (endRotation a) / w == inject_Z 0).
      { rewrite Hnorm. change (inject_Z 0) with 0. field. lra. }
      rewrite (floor_comp _ _ Hq). unfold JS.floor. rewrite Qfloor_Z.
      rewrite Z.rem_0_l, Z.sub_0_r, Z.rem_same by lia. now rewrite E0.
    - assert (Hlo : 1 <= inject_Z (targetIndex a)).
      { change 1 with (inject_Z 1). rewrite <- Zle_Qle. lia. }
      assert (Hhi : inject_Z (targetIndex a) <= inject_Z n - 1).
      { assert (targetIndex a <= n + - (1))%Z by lia.
        rewrite Zle_Qle, inject_Z_plus, inject_Z_opp in H.
        change (inject_Z 1) with 1 in H. lra. }
      assert (1 * w <= inject_Z (targetIndex a) * w)
        by (apply Qmult_le_compat_r; lra).
      assert (inject_Z (targetIndex a) * w <= (inject_Z n - 1) * w)
        by (apply Qmult_le_compat_r; lra).
      assert (Hnorm : normalize (endRotation a)
                      == 360 - inject_Z (targetIndex a) * w).
      { apply (normalize_unique _ _ z); [lra|exact Hz]. }
      assert (Hq : normalize (endRotation a) / w
                   == inject_Z (n - targetIndex a)).
      { rewrite Hnorm. unfold Z.sub. rewrite inject_Z_plus, inject_Z_opp.
        rewrite <- Ht. field. lra. }
      rewrite (floor_comp _ _ Hq). unfold JS.floor. rewrite Qfloor_Z.
      rewrite (Z.rem_small (n - targetIndex a) n) by lia.
      replace (n - (n - targetIndex a))%Z with (targetIndex a) by lia.
      apply Z.rem_small. lia. }
  split; [exact Hidx|]. rewrite Hidx. reflexivity.
Qed.

End Landing.

(** ** The claims about the wheel *)

Import Roulette.

Lemma modulo_le (x y : Q) : 0 < y -> 0 <= x -> modulo x y <= x.
Proof.
  intros Hy Hx. unfold modulo.
  assert (Hq : 0 <= x / y) by (apply Qle_shift_div_l; lra).
  assert (Hf : (0 <= Qfloor (x / y))%Z).
  { change 0%Z with (Qfloor 0). now apply Qfloor_resp_le. }
  rewrite Zle_Qle in Hf. change (inject_Z 0) with 0 in Hf.
  assert (0 <= y * inject_Z (Qfloor (x / y)))
    by (apply Qmult_le_0_compat; lra).
  lra.
Qed.

(** C10: in an accepted spin the difference [targetAngle - currentAngle]
    of line 143 is already positive, because the three to five turns are
    in [targetAngle] while [currentAngle] is below 360; the test of line
    144 is never true and [angleDiff] is more than two full turns. *)
Theorem C10_normalization_branch_is_dead
  (its : list MetroStation) (r1 r2 now rot : Q) :
  its <> [] -> 0 <= r1 < 1 -> 0 <= r2 < 1 ->
  let n := JS.length its in
  let idx := drawIndex r1 n in
  let slice := 360 / inject_Z n in
  let raw := rawAngleDiff idx slice r2 rot in
  0 <= normalize rot < 360
  /\ 0 < raw
  /\ JS.ltb raw 0 = false
  /\ computeAngleDiff idx slice r2 rot = raw
  /\ 2 * 360 < angleDiff (planSpin r1 r2 now its rot).
Proof.
  intros Hits Hr1 [Hr2 _] n idx slice raw.
  pose proof (plan_index_range its r1 r2 now rot Hits Hr1) as Hi.
  pose proof (plan_angleDiff_lower its r1 r2 now rot Hits Hr1 Hr2) as Hd.
  pose proof (rawAngleDiff_lower idx n r2 rot Hi Hr2) as Hraw.
  fold slice raw in Hraw.
  split; [apply normalize_range|].
  split; [lra|].
  split; [apply ltb_ge; lra|].
  split; [now apply computeAngleDiff_raw|].
  lra.
Qed.

Lemma C10_normalization_branch_is_dead_witness :
  2 * 360 < angleDiff (planSpin (1 # 2) (1 # 4) 0 fourItems 270).
Proof.
  apply (C10_normalization_branch_is_dead fourItems (1 # 2) (1 # 4) 0 270).
  - discriminate.
  - split; reflexivity || discriminate.
  - split; reflexivity || discriminate.
Defined.

(** X24: for a spin planned over a non-empty list [its] with a draw in
    [0,1), the target index [Math.floor(r * length)] is in range of
    [its] and the target item is one of its elements; the index that
    [animate] computes from any rotation is in [0, totalItems) for the
    [totalItems] captured by the spin, so it is in range of [its], the
    list the spin started with; the index of [updateCurrentItem] is in
    range of the list it is computed for. *)
Theorem sector_index_in_range
  (its : list MetroStation) (r1 r2 now rot : Q) :
  its <> [] -> 0 <= r1 < 1 ->
  let n := JS.length its in
  let a := planSpin r1 r2 now its rot in
  targetIndex a = JS.floor (r1 * inject_Z n)
  /\ (0 <= targetIndex a < n)%Z
  /\ (exists s, targetItem a = Some s /\ In s its)
  /\ forall r : Q,
       (0 <= frameIndex (totalItems a) (sliceAngle a) r < n)%Z
       /\ (exists s, JS.index its (frameIndex (totalItems a) (sliceAngle a) r)
                     = Some s /\ In s its)
       /\ (0 <= watcherIndex n r < n)%Z
       /\ (exists s, JS.index its (watcherIndex n r) = Some s /\ In s its).
Proof.
  intros Hits Hr1 n a. pose proof (length_pos its Hits) as Hn.
  split; [reflexivity|].
  split; [now apply plan_index_range|].
  split; [now apply plan_target|].
  intro r.
  assert (Hf : (0 <= frameIndex (totalItems a) (sliceAngle a) r < n)%Z)
    by now apply frameIndex_range.
  assert (Hw : (0 <= watcherIndex n r < n)%Z)
    by now apply watcherIndex_range.
  split; [exact Hf|]. split; [now apply index_in_range|].
  split; [exact Hw|]. now apply index_in_range.
Qed.

Lemma sector_index_in_range_witness :
  (0 <= targetIndex (planSpin (3 # 4) 0 0 fourItems 0) < 4)%Z.
Proof.
  apply (sector_index_in_range fourItems (3 # 4) 0 0 0).
  - discriminate.
  - split; reflexivity || discriminate.
Defined.

(** C7: on a frame with [progress = min(elapsed / duration, 1)] the eased
    progress is [3 * progress^3] below one half and
    [1 - (-2 * progress + 2)^4 / 2] from one half on, and the callback
    sets the rotation to [startRotation + angleDiff * eased]; that is
    also the angle the wheel has when the callback returns. *)
Theorem C7_easing_and_angle_update
  (its : list MetroStation) (r1 r2 now rot t : Q) (w : Wheel) :
  isAnimating w = true ->
  let a := planSpin r1 r2 now its rot in
  let progress := JS.min ((t - startTime a) / duration a) 1 in
  let eased := easing progress in
  (progress < 1 # 2 -> eased == 3 * progress ^ 3)
  /\ (1 # 2 <= progress -> eased == 1 - (-2 * progress + 2) ^ 4 / 2)
  /\ (exists rest,
        trace (animate a t w)
        = trace w ++ EvRotation (startRotation a + angleDiff a * eased)
                     :: rest)
  /\ rotation (animate a t w) == startRotation a + angleDiff a * eased.
Proof.
  intros Ha a progress eased.
  split.
  { intro H. unfold eased. rewrite (easing_first_half _ H). simpl. ring. }
  split.
  { intro H. unfold eased. rewrite (easing_second_half _ H). simpl.
    unfold Qdiv. ring. }
  unfold animate. rewrite Ha. simpl negb. cbv iota.
  change (progressAt a t) with progress.
  change (rotationAt a t) with (startRotation a + angleDiff a * eased).
  set (v := startRotation a + angleDiff a * eased).
  destruct (JS.index (items (setRotation v w))
              (frameIndex (totalItems a) (sliceAngle a) v)) as [item|];
    destruct (JS.ltb progress 1) eqn:Hp.
  - split; [|reflexivity]. eexists. simpl. rewrite <- !app_assoc.
    reflexivity.
  - assert (Hone : progress == 1).
    { apply ltb_ge in Hp. pose proof (min_le_r ((t - startTime a) / duration a) 1).
      fold progress in H. lra. }
    assert (Hend : endRotation a == v).
    { unfold v, eased. rewrite Hone, easing_one. simpl. ring. }
    destruct (targetItem a); (split; [|exact Hend]);
      eexists; simpl; rewrite <- !app_assoc; reflexivity.
  - split; [|reflexivity]. eexists. simpl. rewrite <- !app_assoc.
    reflexivity.
  - assert (Hone : progress == 1).
    { apply ltb_ge in Hp. pose proof (min_le_r ((t - startTime a) / duration a) 1).
      fold progress in H. lra. }
    assert (Hend : endRotation a == v).
    { unfold v, eased. rewrite Hone, easing_one. simpl. ring. }
    destruct (targetItem a); (split; [|exact Hend]);
      eexists; simpl; rewrite <- !app_assoc; reflexivity.
Qed.

Lemma C7_easing_and_angle_update_witness :
  isAnimating (spinWheel 0 0 0 (mounted fourItems)) = true
  /\ rotation (animate (planSpin 0 0 0 fourItems 0) 750
                 (spinWheel 0 0 0 (mounted fourItems)))
     == 135 # 2.
Proof.
  split; [reflexivity|].
  destruct (C7_easing_and_angle_update fourItems 0 0 0 0 750
              (spinWheel 0 0 0 (mounted fourItems)) eq_refl)
    as (_ & _ & _ & H).
  rewrite H. vm_compute. reflexivity.
Defined.

(** C4: [spinWheel] called with an empty item list, or while a spin is
    animating, changes nothing: no frame is requested, no event is
    emitted, [isAnimating] keeps its value (false stays false), and the
    frames that follow move the wheel exactly as without the call. *)
Theorem C4_rejected_spin_is_noop (r1 r2 now : Q) (w : Wheel) :
  items w = [] \/ isAnimating w = true ->
  let w' := spinWheel r1 r2 now w in
  w' = w
  /\ raf w' = raf w
  /\ trace w' = trace w
  /\ isAnimating w' = isAnimating w
  /\ forall ts : list Q, frameStates ts w' = frameStates ts w.
Proof.
  intros H w'.
  assert (E : w' = w).
  { unfold w', spinWheel. destruct H as [H|H]; rewrite H.
    - reflexivity.
    - now rewrite orb_true_r. }
  rewrite E. repeat split; reflexivity.
Qed.

Lemma C4_rejected_spin_is_noop_witness :
  isAnimating (spinWheel (1 # 2) (1 # 2) 0 (mounted []))
  = isAnimating (mounted [])
  /\ raf (spinWheel (1 # 2) (1 # 2) 100
            (spinWheel 0 0 0 (mounted fourItems)))
     = raf (spinWheel 0 0 0 (mounted fourItems)).
Proof.
  split.
  - apply (C4_rejected_spin_is_noop (1 # 2) (1 # 2) 0 (mounted [])).
    left. reflexivity.
  - apply (C4_rejected_spin_is_noop (1 # 2) (1 # 2) 100
             (spinWheel 0 0 0 (mounted fourItems))).
    right. reflexivity.
Defined.

(** C5: an accepted spin emits [spin-complete] at most once whatever
    frames follow, and exactly once as soon as a frame arrives whose
    timestamp is not before [startTime + duration]: the event carries the
    target item, it is the last effect of the spin, coming after the last
    write of the rotation and after [isAnimating] has been set to
    false, and the wheel is idle again. *)
Theorem C5_single_completion_per_spin
  (r1 r2 now : Q) (w : Wheel) :
  Idle w -> items w <> [] -> 0 <= r1 < 1 -> 0 <= r2 < 1 ->
  let a := planSpin r1 r2 now (items w) (rotation w) in
  exists s,
    targetItem a = Some s
    /\ (forall ts : list Q,
          let w' := runFrames ts (spinWheel r1 r2 now w) in
          emitted (trace w') = emitted (trace w)
          \/ emitted (trace w') = emitted (trace w) ++ [s])
    /\ (forall ts : list Q,
          Exists (fun t => startTime a + duration a <= t) ts ->
          let w' := runFrames ts (spinWheel r1 r2 now w) in
          Idle w'
          /\ emitted (trace w') = emitted (trace w) ++ [s]
          /\ exists upd,
               emitted upd = []
               /\ trace w'
                  = trace w ++ upd ++ [EvRotation (endRotation a);
                                       EvAnimating false; EvEmit s]).
Proof.
  intros Hidle Hits Hr1 [Hr2 _] a.
  destruct (plan_target (items w) r1 r2 now (rotation w) Hits Hr1)
    as [s [Hs _]].
  exists s. split; [exact Hs|].
  pose proof (spinWheel_running (items w) r1 r2 now (rotation w)
                Hits w Hidle eq_refl eq_refl) as Hrun.
  assert (Ht0 : trace (spinWheel r1 r2 now w)
                = trace w ++ [EvAnimating true; EvRequestFrame]).
  { rewrite (spinWheel_accepted (items w) r1 r2 now (rotation w)
               Hits w Hidle eq_refl eq_refl).
    simpl. now rewrite <- app_assoc. }
  assert (Hcases : forall ts,
    let w' := runFrames ts (spinWheel r1 r2 now w) in
    (Forall (fun t => JS.ltb (progressAt a t) 1 = true) ts
     /\ emitted (trace w') = emitted (trace w))
    \/ (Idle w'
        /\ emitted (trace w') = emitted (trace w) ++ [s]
        /\ exists upd,
             emitted upd = []
             /\ trace w'
                = trace w ++ upd ++ [EvRotation (endRotation a);
                                     EvAnimating false; EvEmit s])).
  { intros ts w'.
    destruct (run_trace (items w) r1 r2 now (rotation w) Hits Hr1
                ts _ Hrun)
      as [(_ & Hall & upd & Hu & He)|(Hfin & upd & s' & Hs' & Hu & He)].
    - left. split; [exact Hall|].
      unfold w'. rewrite Hu, Ht0, !emitted_app, He. simpl.
      now rewrite !app_nil_r.
    - right. pose proof (eq_trans (eq_sym Hs') Hs) as E.
      injection E as ->.
      split; [split; apply Hfin|].
      assert (Hw' : trace w'
                    = trace w ++ ([EvAnimating true; EvRequestFrame] ++ upd)
                      ++ [EvRotation (endRotation a);
                          EvAnimating false; EvEmit s]).
      { unfold w'. rewrite Hu, Ht0. now rewrite <- !app_assoc. }
      split.
      + rewrite Hw', !emitted_app, He. simpl. reflexivity.
      + exists ([EvAnimating true; EvRequestFrame] ++ upd).
        split; [now rewrite emitted_app, He|exact Hw']. }
  split.
  - intros ts w'. destruct (Hcases ts) as [[_ H]|(_ & H & _)]; auto.
  - intros ts Hex w'. destruct (Hcases ts) as [[Hall _]|H]; [|exact H].
    exfalso. apply Exists_exists in Hex. destruct Hex as [t [Hin Ht]].
    rewrite Forall_forall in Hall. specialize (Hall t Hin).
    apply (progress_complete (items w) r1 r2 now (rotation w)
             Hits Hr1 Hr2) in Ht.
    fold a in Ht. congruence.
Qed.

Lemma C5_single_completion_per_spin_witness :
  emitted (trace (runFrames [1500; 3000]
                    (spinWheel (1 # 2) (1 # 4) 0 (mounted fourItems))))
  = [itemC].
Proof.
  destruct (C5_single_completion_per_spin (1 # 2) (1 # 4) 0
              (mounted fourItems))
    as (s & Hs & _ & H).
  - split; reflexivity.
  - discriminate.
  - split; reflexivity || discriminate.
  - split; reflexivity || discriminate.
  - injection Hs as <-.
    destruct (H [1500; 3000]) as (_ & He & _).
    + apply Exists_cons_tl, Exists_cons_hd. vm_compute. discriminate.
    + exact He.
Defined.

(** On non-decreasing frame timestamps the rotation after each frame of
    an accepted spin is non-decreasing (and not below the rotation at
    the start when no timestamp is before [startTime]), and the total
    rotation is more than two full turns; when the current angle (mod
    360) is not beyond the base target angle
    [360 - targetIndex * sliceAngle], it is at least three full turns
    plus the smallest forward angle from the one to the other. *)
Lemma rotation_is_monotone
  (r1 r2 now : Q) (w : Wheel) (ts : list Q) :
  Idle w -> items w <> [] -> 0 <= r1 < 1 -> 0 <= r2 < 1 ->
  StronglySorted Qle ts ->
  let a := planSpin r1 r2 now (items w) (rotation w) in
  let base := baseTargetAngle (targetIndex a) (sliceAngle a) in
  let angles := map rotation (frameStates ts (spinWheel r1 r2 now w)) in
  StronglySorted Qle angles
  /\ (Forall (Qle now) ts -> StronglySorted Qle (rotation w :: angles))
  /\ 2 * 360 < endRotation a - startRotation a
  /\ (normalize (rotation w) <= base ->
      3 * 360 + forwardAngle (normalize (rotation w)) base
      <= endRotation a - startRotation a).
Proof.
  intros Hidle Hits Hr1 [Hr2 _] Hs a base angles.
  pose proof (spinWheel_running (items w) r1 r2 now (rotation w)
                Hits w Hidle eq_refl eq_refl) as Hrun.
  pose proof (plan_angleDiff_lower (items w) r1 r2 now (rotation w)
                Hits Hr1 Hr2) as Hd.
  fold a in Hd.
  assert (He : endRotation a - startRotation a == angleDiff a)
    by (unfold a; simpl; ring).
  pose proof (run_rotations (items w) r1 r2 now (rotation w)
                Hits Hr1 Hr2 ts _ Hrun Hs) as Hrot.
  fold a angles in Hrot.
  assert (Hsorted : StronglySorted Qle angles).
  { eapply StronglySorted_Qeq; [exact Hrot|].
    now apply rotationAt_sorted. }
  split; [exact Hsorted|]. split; [|split].
  - intro Hnow. constructor; [exact Hsorted|].
    apply (Forall2_Qeq_Forall_le (rotation w) (rotation w) _ _
             (Qeq_refl _) Hrot).
    apply Forall_map. eapply Forall_impl; [|exact Hnow].
    intros t Ht.
    exact (rotationAt_from_start (items w) r1 r2 now (rotation w)
             Hits Hr1 Hr2 t Ht).
  - lra.
  - intro Hle. rewrite He.
    pose proof (plan_angleDiff (items w) r1 r2 now (rotation w)
                  Hits Hr1 Hr2) as Hraw.
    fold a in Hraw. rewrite Hraw.
    unfold rawAngleDiff, targetAngle, fullRotations,
      minRotations, maxRotations.
    change (baseTargetAngle (targetIndex a)
              (360 / inject_Z (JS.length (items w)))) with base.
    pose proof (modulo_le (base - normalize (rotation w)) 360
                  ltac:(lra) ltac:(lra)) as Hm.
    unfold forwardAngle. lra.
Qed.

(** The rotation of a spin is the extra turns plus the signed difference
    from the current angle to the base target angle.  The test of line
    144 looks at the sum, which is positive, so a negative difference is
    never made up for: when the current angle is beyond the base target
    angle the spin is a full turn short of three turns, the forward
    angle and the random part of the turns. *)
Lemma rotation_delta (its : list MetroStation) (r1 r2 now rot : Q) :
  its <> [] -> 0 <= r1 < 1 -> 0 <= r2 ->
  let a := planSpin r1 r2 now its rot in
  let base := baseTargetAngle (targetIndex a) (sliceAngle a) in
  endRotation a - startRotation a
  == 360 * fullRotations r2 + (base - normalize rot)
  /\ (base < normalize rot ->
      endRotation a - startRotation a
      == 2 * 360 + forwardAngle (normalize rot) base + 720 * r2).
Proof.
  intros Hits Hr1 Hr2 a base.
  assert (He : endRotation a - startRotation a == angleDiff a)
    by (unfold a; simpl; ring).
  pose proof (plan_angleDiff its r1 r2 now rot Hits Hr1 Hr2) as Hraw.
  fold a in Hraw.
  pose proof (plan_index_range its r1 r2 now rot Hits Hr1) as Hi.
  pose proof (baseTargetAngle_range _ _ Hi) as [Hb0 Hb1].
  pose proof (slice_pos _ (length_pos its Hits)) as Hs.
  pose proof (normalize_range rot) as [Hc0 Hc1].
  change (baseTargetAngle (targetIndex (planSpin r1 r2 now its rot))
            (360 / inject_Z (JS.length its))) with base in Hb0, Hb1.
  set (slice := 360 / inject_Z (JS.length its)) in Hb0, Hs.
  assert (E : endRotation a - startRotation a
              == 360 * fullRotations r2 + (base - normalize rot)).
  { rewrite He, Hraw. unfold rawAngleDiff, targetAngle.
    change (baseTargetAngle (targetIndex a)
              (360 / inject_Z (JS.length its))) with base.
    ring. }
  split; [exact E|]. intro Hlt.
  assert (Hf : forwardAngle (normalize rot) base
               == base - normalize rot + 360).
  { unfold forwardAngle.
    apply (modulo_unique _ _ 360 (-1)); [lra|lra|].
    change (inject_Z (-1)) with (-(1)). ring. }
  rewrite E, Hf. unfold fullRotations, minRotations, maxRotations. ring.
Qed.

(** C2 on the code: four items.  A first spin (draws 1/2 and 0) leaves
    the wheel idle at 1260 degrees, which is 180 mod 360.  The next spin
    draws 3/4 (target index 3, base target angle 90) and 1/10 (3.2
    turns): the difference of line 143 is 90 + 1152 - 180 = 1062, which
    is positive, so line 144 adds nothing and the wheel turns by 1062
    degrees, up to 2322.  That is less than three full turns (1080), and
    less than three turns plus the forward angle of 270 degrees from 180
    to 90 (1350). *)
Theorem C2_spin_falls_short_of_three_turns :
  let w1 := runFrames [5000]
              (spinWheel (1 # 2) 0 0 (mounted fourItems)) in
  let a := planSpin (3 # 4) (1 # 10) 6000 (items w1) (rotation w1) in
  let base := baseTargetAngle (targetIndex a) (sliceAngle a) in
  let w2 := runFrames [12000] (spinWheel (3 # 4) (1 # 10) 6000 w1) in
  Idle w1 /\ rotation w1 == 1260 /\ normalize (rotation w1) == 180
  /\ targetIndex a = 3%Z /\ base == 90
  /\ fullRotations (1 # 10) == 16 # 5
  /\ rawAngleDiff (targetIndex a) (sliceAngle a) (1 # 10) (rotation w1)
     == 1062
  /\ angleDiff a == 1062
  /\ forwardAngle (normalize (rotation w1)) base == 270
  /\ Idle w2 /\ emitted (trace w2) = [itemC; itemD]
  /\ rotation w2 - rotation w1 == 1062
  /\ rotation w2 - rotation w1 < 3 * 360
  /\ ~ (3 * 360 + forwardAngle (normalize (rotation w1)) base
        < endRotation a - startRotation a).
Proof.
  vm_compute. repeat split; try discriminate.
Qed.

(** C1 on the code: four items, first draw 1/2 (target index 2, item C,
    base target angle 180), second draw 1/4 (three and a half turns).
    The spin completes, emits C, and leaves the wheel at 1440 degrees:
    0 mod 360 instead of 180, where the sector lookup of the frame gives
    item A, which is also the item left highlighted in the store. *)
Theorem C1_landing_misses_target :
  let w := runFrames [1500; 3000]
             (spinWheel (1 # 2) (1 # 4) 0 (mounted fourItems)) in
  let a := planSpin (1 # 2) (1 # 4) 0 fourItems 0 in
  targetIndex a = 2%Z
  /\ fullRotations (1 # 4) == 7 # 2
  /\ isAnimating w = false
  /\ emitted (trace w) = [itemC]
  /\ rotation w == 1440
  /\ normalize (rotation w) == 0
  /\ normalize (baseTargetAngle (targetIndex a) (sliceAngle a)) == 180
  /\ JS.index fourItems
       (frameIndex (totalItems a) (sliceAngle a) (rotation w)) = Some itemA
  /\ selectedStation w = Some itemA.
Proof.
  vm_compute. repeat split.
Qed.

(** C3 on the code: four items, both draws 0, one frame a quarter of the
    way through the spin.  The wheel is at 67.5 degrees, so the pointer
    faces the wheel angle 292.5, inside the part [270, 360) painted for
    item D (index 3); the frame reports item A (index 0). *)
Theorem C3_highlight_is_not_under_pointer :
  let w := runFrames [750] (spinWheel 0 0 0 (mounted fourItems)) in
  rotation w == 135 # 2
  /\ pointerAngle (rotation w) == 585 # 2
  /\ underPointer 4 (rotation w) 3
  /\ ~ underPointer 4 (rotation w) 0
  /\ frameIndex 4 (360 / 4) (rotation w) = 0%Z
  /\ watcherIndex 4 (rotation w) = 0%Z
  /\ selectedStation w = Some itemA
  /\ trace w = [EvSelect itemA; EvAnimating true; EvRequestFrame;
                EvRotation (rotation w); EvSelect itemA; EvRequestFrame].
Proof.
  vm_compute. repeat split; try discriminate.
  intros [_ H]. discriminate H.
Qed.

(** ** The claims about the store *)



(** ** The station index *)

Section StationIndex.
Import Store.

Lemma mem_In (x : string) (l : list string) : mem x l = true <-> In x l.
Proof.
  induction l as [|y l IH]; simpl; [split; [discriminate|tauto]|].
  rewrite orb_true_iff, String.eqb_eq, IH. tauto.
Qed.

Lemma mem_false (x : string) (l : list string) :
  mem x l = false <-> ~ In x l.
Proof.
  rewrite <- mem_In. destruct (mem x l); split; congruence.
Qed.

Lemma mem_app (x : string) (l l' : list string) :
  mem x (l ++ l') = mem x l || mem x l'.
Proof.
  induction l as [|y l IH]; simpl; [reflexivity|].
  now rewrite IH, orb_assoc.
Qed.

Lemma mem_filter_neq (x y : string) (l : list string) :
  mem x (filter (fun z => negb (String.eqb z y)) l)
  = negb (String.eqb x y) && mem x l.
Proof.
  induction l as [|z l IH]; simpl; [now rewrite andb_false_r|].
  destruct (String.eqb_spec z y) as [->|Hzy]; simpl.
  - rewrite IH. destruct (String.eqb_spec y x) as [->|Hyx]; simpl.
    + now rewrite String.eqb_refl.
    + reflexivity.
  - rewrite IH. destruct (String.eqb_spec z x) as [->|Hzx]; simpl.
    + destruct (String.eqb_spec x y); [congruence|reflexivity].
    + reflexivity.
Qed.

Lemma mem_firstOccurrences (x : string) (l : list string) :
  mem x (firstOccurrences l) = mem x l.
Proof.
  induction l as [|y l IH]; simpl; [reflexivity|].
  rewrite mem_filter_neq, IH.
  destruct (String.eqb_spec y x) as [->|Hyx]; simpl; [reflexivity|].
  destruct (String.eqb_spec x y); [congruence|reflexivity].
Qed.

Lemma In_firstOccurrences (x : string) (l : list string) :
  In x (firstOccurrences l) <-> In x l.
Proof. now rewrite <- !mem_In, mem_firstOccurrences. Qed.

Lemma NoDup_firstOccurrences (l : list string) :
  NoDup (firstOccurrences l).
Proof.
  induction l as [|y l IH]; simpl; constructor.
  - rewrite filter_In, String.eqb_refl. simpl. intros [_ H]. discriminate.
  - now apply NoDup_filter.
Qed.

Lemma firstOccurrences_snoc (l : list string) (x : string) :
  firstOccurrences (l ++ [x])
  = if mem x l then firstOccurrences l else firstOccurrences l ++ [x].
Proof.
  induction l as [|y l IH]; simpl; [reflexivity|].
  rewrite IH. destruct (String.eqb_spec y x) as [->|Hyx]; simpl.
  - destruct (mem x l); [reflexivity|].
    rewrite filter_app. simpl. rewrite String.eqb_refl. simpl.
    now rewrite app_nil_r.
  - destruct (mem x l); [reflexivity|].
    rewrite filter_app. simpl.
    destruct (String.eqb_spec x y); [congruence|reflexivity].
Qed.

(** *** A map that holds [f k] under every key [k] *)

Lemma mapHas_keyed (f : string -> MetroStation) (keys : list string)
    (s : string) :
  mapHas (map (fun k => (k, f k)) keys) s = mem s keys.
Proof.
  induction keys as [|k keys IH]; simpl; [reflexivity|]. now rewrite IH.
Qed.

Lemma mapGet_keyed (f : string -> MetroStation) (keys : list string)
    (s : string) :
  mapGet (map (fun k => (k, f k)) keys) s
  = if mem s keys then Some (f s) else None.
Proof.
  induction keys as [|k keys IH]; simpl; [reflexivity|].
  destruct (String.eqb_spec k s) as [->|Hks]; simpl; [reflexivity|].
  exact IH.
Qed.

Lemma mapSet_keyed (f : string -> MetroStation) (keys : list string)
    (s : string) (v : MetroStation) :
  mem s keys = false ->
  mapSet (map (fun k => (k, f k)) keys) s v
  = map (fun k => (k, f k)) keys ++ [(s, v)].
Proof.
  induction keys as [|k keys IH]; simpl; [reflexivity|].
  destruct (String.eqb_spec k s) as [->|Hks]; simpl; [discriminate|].
  intro H. now rewrite IH.
Qed.

Lemma mapPush_keyed (f : string -> MetroStation) (keys : list string)
    (s : string) (tag : LineTag) :
  NoDup keys ->
  mapPush (map (fun k => (k, f k)) keys) s tag
  = map (fun k => (k, if String.eqb k s
                      then mkMetroStation (name (f k)) (lines (f k) ++ [tag])
                      else f k)) keys.
Proof.
  induction 1 as [|k keys Hk Hnd IH]; simpl; [reflexivity|].
  destruct (String.eqb_spec k s) as [->|Hks].
  - f_equal. apply map_ext_in. intros k' Hk'.
    destruct (String.eqb_spec k' s); [congruence|reflexivity].
  - now rewrite IH.
Qed.

(** *** The two loops as one *)

Lemma addStation_tagged (line : MetroLine) (m : StationMap) (s : string) :
  addStation line m s = addTagged m (s, tagOf line).
Proof. reflexivity. Qed.

Lemma fold_addStation (line : MetroLine) (names : list string) :
  forall m : StationMap,
    fold_left (addStation line) names m
    = fold_left addTagged (map (fun s => (s, tagOf line)) names) m.
Proof.
  induction names as [|s names IH]; intro m; [reflexivity|].
  simpl. now rewrite IH.
Qed.

Lemma fold_addLine (ds : list MetroLine) : forall m : StationMap,
  fold_left addLine ds m = fold_left addTagged (tagged ds) m.
Proof.
  induction ds as [|l ds IH]; intro m; [reflexivity|].
  simpl. rewrite fold_left_app, IH. unfold addLine.
  now rewrite fold_addStation.
Qed.

Lemma tagsOf_snoc (k : string) (ps : list (string * LineTag))
    (p : string * LineTag) :
  tagsOf k (ps ++ [p])
  = tagsOf k ps ++ (if String.eqb (fst p) k then [snd p] else []).
Proof.
  unfold tagsOf. rewrite filter_app, map_app. simpl.
  now destruct (String.eqb (fst p) k).
Qed.

Lemma tagsOf_absent (k : string) (ps : list (string * LineTag)) :
  mem k (map fst ps) = false -> tagsOf k ps = [].
Proof.
  unfold tagsOf. induction ps as [|[s t] ps IH]; simpl; [reflexivity|].
  destruct (String.eqb s k); simpl; [discriminate|exact IH].
Qed.

Lemma mem_filter_nonEmpty (k : string) (l : list string) :
  mem k (filter nonEmpty l) = nonEmpty k && mem k l.
Proof.
  apply eq_iff_eq_true.
  rewrite andb_true_iff, !mem_In, filter_In. tauto.
Qed.

(** One visit takes the map of the visits so far to the map of the
    visits so far and this one. *)
Lemma addTagged_indexOf (ps : list (string * LineTag))
    (p : string * LineTag) :
  addTagged (indexOf ps) p = indexOf (ps ++ [p]).
Proof.
  destruct p as [s tag]. unfold addTagged, indexOf.
  rewrite map_app, filter_app. simpl map. simpl filter.
  set (keys := firstOccurrences (filter nonEmpty (map fst ps))).
  assert (Hnd : NoDup keys) by apply NoDup_firstOccurrences.
  assert (Hkeys : forall k, In k keys -> k <> ""%string).
  { intros k Hk. unfold keys in Hk.
    apply In_firstOccurrences, filter_In in Hk. destruct Hk as [_ Hk].
    unfold nonEmpty in Hk. intros ->. discriminate. }
  unfold nonEmpty at 2.
  destruct (String.eqb_spec s "") as [->|Hs]; simpl negb; cbv iota.
  - (* an empty name is skipped *)
    rewrite app_nil_r. fold keys. apply map_ext_in. intros k Hk.
    rewrite tagsOf_snoc. simpl fst.
    destruct (String.eqb_spec "" k) as [<-|_];
      [now apply Hkeys in Hk|now rewrite app_nil_r].
  - rewrite firstOccurrences_snoc. fold keys.
    rewrite mapHas_keyed.
    assert (Hmem : mem s keys = mem s (filter nonEmpty (map fst ps)))
      by apply mem_firstOccurrences.
    rewrite <- Hmem.
    destruct (mem s keys) eqn:E; simpl negb; cbv iota.
    + (* a known station: its record gets the tag *)
      rewrite mapGet_keyed, E, mapPush_keyed by exact Hnd.
      apply map_ext_in. intros k Hk. rewrite tagsOf_snoc. simpl.
      destruct (String.eqb_spec k s) as [->|Hks].
      * now rewrite String.eqb_refl.
      * destruct (String.eqb_spec s k); [congruence|].
        now rewrite app_nil_r.
    + (* a new station: a record with this one tag goes last *)
      rewrite mapSet_keyed by exact E.
      assert (Hget : mapGet (map (fun k => (k, mkMetroStation k (tagsOf k ps)))
                               keys ++ [(s, mkMetroStation s [])]) s
                     = Some (mkMetroStation s [])).
      { clear - E. induction keys as [|k keys IH]; simpl.
        - now rewrite String.eqb_refl.
        - simpl in E. destruct (String.eqb k s); [discriminate|].
          now apply IH. }
      rewrite Hget.
      assert (Hpush : forall (m : StationMap),
                mapHas m s = false ->
                mapPush (m ++ [(s, mkMetroStation s [])]) s tag
                = m ++ [(s, mkMetroStation s [tag])]).
      { clear. induction m as [|[k v] m IH]; simpl.
        - now rewrite String.eqb_refl.
        - destruct (String.eqb k s); simpl; [discriminate|].
          intro H. now rewrite IH. }
      rewrite Hpush by (now rewrite mapHas_keyed).
      rewrite map_app. simpl. f_equal.
      * apply map_ext_in. intros k Hk. rewrite tagsOf_snoc. simpl.
        destruct (String.eqb_spec s k) as [->|_]; [|now rewrite app_nil_r].
        apply mem_In in Hk. congruence.
      * rewrite tagsOf_snoc. simpl. rewrite String.eqb_refl.
        rewrite tagsOf_absent; [reflexivity|].
        pose proof (mem_filter_nonEmpty s (map fst ps)) as Hf.
        rewrite <- Hmem in Hf. unfold nonEmpty in Hf.
        destruct (String.eqb_spec s ""); [congruence|].
        simpl in Hf. now symmetry.
Qed.

Lemma fold_addTagged (ps : list (string * LineTag)) :
  fold_left addTagged ps [] = indexOf ps.
Proof.
  induction ps as [|p ps IH] using rev_ind; [reflexivity|].
  now rewrite fold_left_app, IH, <- addTagged_indexOf.
Qed.

(** What [loadMetroData] builds from any array of lines: a record per
    distinct non-empty name, in order of first appearance, with one tag
    per occurrence of the name. *)
Lemma buildStationIndex_spec (ds : list MetroLine) :
  buildStationIndex ds = map snd (indexOf (tagged ds)).
Proof.
  unfold buildStationIndex. now rewrite fold_addLine, fold_addTagged.
Qed.

(** *** Station lists without duplicates *)

Lemma tagsOf_app (k : string) (ps qs : list (string * LineTag)) :
  tagsOf k (ps ++ qs) = tagsOf k ps ++ tagsOf k qs.
Proof. unfold tagsOf. now rewrite filter_app, map_app. Qed.

Lemma tagsOf_line (k : string) (t : LineTag) (names : list string) :
  NoDup names ->
  tagsOf k (map (fun s => (s, t)) names)
  = if mem k names then [t] else [].
Proof.
  induction 1 as [|x names Hx Hnd IH]; [reflexivity|].
  change (tagsOf k (map (fun s => (s, t)) (x :: names)))
    with (tagsOf k ([(x, t)] ++ map (fun s => (s, t)) names)).
  rewrite tagsOf_app, IH. unfold tagsOf. simpl.
  destruct (String.eqb_spec x k) as [->|Hxk]; simpl; [|reflexivity].
  apply mem_false in Hx. now rewrite Hx.
Qed.

Lemma tagsOf_tagged (k : string) (ds : list MetroLine) :
  Forall (fun l => NoDup (stations l)) ds ->
  tagsOf k (tagged ds) = servingLines k ds.
Proof.
  induction 1 as [|l ds Hl Hds IH]; [reflexivity|].
  unfold tagged. simpl flat_map. fold (tagged ds).
  rewrite tagsOf_app, IH, (tagsOf_line k (tagOf l) _ Hl).
  unfold servingLines. simpl. now destruct (mem k (stations l)).
Qed.

Lemma map_fst_tagged (ds : list MetroLine) :
  map fst (tagged ds) = flat_map stations ds.
Proof.
  induction ds as [|l ds IH]; [reflexivity|].
  unfold tagged. simpl flat_map. fold (tagged ds).
  rewrite map_app, IH, map_map. simpl. now rewrite map_id.
Qed.

Lemma filter_nonEmpty_id (l : list string) :
  Forall (fun x => x <> ""%string) l -> filter nonEmpty l = l.
Proof.
  induction 1 as [|x l Hx Hl IH]; [reflexivity|].
  simpl. unfold nonEmpty at 1.
  destruct (String.eqb_spec x ""); [congruence|]. simpl. now rewrite IH.
Qed.

(** On station lists without duplicates or empty names the index is
    the expected one. *)
Lemma buildStationIndex_expected (ds : list MetroLine) :
  Forall (fun l => NoDup (stations l)) ds ->
  Forall (fun l => Forall (fun x => x <> ""%string) (stations l)) ds ->
  buildStationIndex ds = expectedIndex ds.
Proof.
  intros Hnd Hne. rewrite buildStationIndex_spec.
  unfold indexOf, expectedIndex.
  rewrite map_fst_tagged, filter_nonEmpty_id, map_map.
  - apply map_ext. intro k. simpl. now rewrite tagsOf_tagged.
  - clear Hnd. induction Hne as [|l ds Hl Hds IH]; simpl; [constructor|].
    apply Forall_app. auto.
Qed.

(** *** Lines 49-59 of the converter *)

Section Unique.
Variable trim : string -> string.

Lemma addUnique_invariant (raw : list Converter.RawStation) :
  forall names seen : list string,
    (forall x, mem x seen = mem x names) ->
    NoDup names -> Forall (fun x => x <> ""%string) names ->
    let names' := fst (fold_left (Converter.addUnique trim) raw
                         (names, seen)) in
    NoDup names' /\ Forall (fun x => x <> ""%string) names'
    /\ forall x, In x names' <->
                 In x names
                 \/ (x <> ""%string
                     /\ exists st, In st raw
                                   /\ trim (Converter.stationName st) = x).
Proof.
  induction raw as [|st raw IH]; intros names seen Hseen Hnd Hne; simpl.
  - repeat split; auto. intros [H|[_ [st [[] _]]]]; exact H.
  - set (nm := trim (Converter.stationName st)).
    destruct (String.eqb_spec nm "") as [Hnm|Hnm]; simpl.
    + destruct (IH names seen Hseen Hnd Hne) as (H1 & H2 & H3).
      repeat split; auto.
      * intro H. apply H3 in H. destruct H as [H|[Hx [st' [Hin Ht]]]];
          [now left|right]. split; [exact Hx|]. exists st'. auto.
      * intros [H|[Hx [st' [[<-|Hin] Ht]]]]; apply H3.
        -- now left.
        -- fold nm in Ht. congruence.
        -- right. split; [exact Hx|]. exists st'. auto.
    + destruct (mem nm seen) eqn:Em; simpl.
      * destruct (IH names seen Hseen Hnd Hne) as (H1 & H2 & H3).
        repeat split; auto.
        -- intro H. apply H3 in H.
           destruct H as [H|[Hx [st' [Hin Ht]]]]; [now left|right].
           split; [exact Hx|]. exists st'. auto.
        -- intros [H|[Hx [st' [[<-|Hin] Ht]]]]; apply H3.
           ++ now left.
           ++ left. fold nm in Ht. subst x.
              rewrite Hseen in Em. now apply mem_In.
           ++ right. split; [exact Hx|]. exists st'. auto.
      * assert (Hnew : ~ In nm names)
          by (apply mem_false; now rewrite <- Hseen).
        destruct (IH (names ++ [nm]) (nm :: seen)) as (H1 & H2 & H3).
        -- intro x. simpl. rewrite mem_app, Hseen. simpl.
           now rewrite orb_false_r, orb_comm.
        -- apply NoDup_app; [exact Hnd|repeat constructor; intros []|].
           intros x Hx [<-|[]]. contradiction.
        -- apply Forall_app. split; [exact Hne|]. now repeat constructor.
        -- repeat split; auto.
           ++ intro H. apply H3 in H.
              destruct H as [H|[Hx [st' [Hin Ht]]]].
              ** apply in_app_or in H. destruct H as [H|[<-|[]]];
                   [now left|right].
                 split; [exact Hnm|]. exists st. now split; [left|].
              ** right. split; [exact Hx|]. exists st'. auto.
           ++ intros [H|[Hx [st' [[<-|Hin] Ht]]]]; apply H3.
              ** left. apply in_or_app. now left.
              ** left. apply in_or_app. right. left. exact Ht.
              ** right. split; [exact Hx|]. exists st'. auto.
Qed.

(** The names kept for a line are distinct, non-empty, and exactly
    the trimmed names of its stations. *)
Lemma uniqueStationNames_spec (raw : list Converter.RawStation) :
  NoDup (Converter.uniqueStationNames trim raw)
  /\ Forall (fun x => x <> ""%string)
            (Converter.uniqueStationNames trim raw)
  /\ forall x, In x (Converter.uniqueStationNames trim raw) <->
               (x <> ""%string
                /\ exists st, In st raw
                              /\ trim (Converter.stationName st) = x).
Proof.
  destruct (addUnique_invariant raw [] [] (fun _ => eq_refl)
              (NoDup_nil _) (Forall_nil _)) as (H1 & H2 & H3).
  repeat split; auto.
  - apply H3 in H. destruct H as [[]|[Hx _]]. exact Hx.
  - apply H3 in H. destruct H as [[]|[_ Hx]]. exact Hx.
  - intros [Hx Hst]. apply H3. right. auto.
Qed.

Lemma Converted_NoDup (ds : list MetroLine) :
  Converter.Converted trim ds ->
  Forall (fun l => NoDup (stations l)) ds
  /\ Forall (fun l => Forall (fun x => x <> ""%string) (stations l)) ds.
Proof.
  unfold Converter.Converted. intro H.
  split; (eapply Forall_impl; [|exact H]);
    intros l [raw ->]; apply uniqueStationNames_spec.
Qed.
End Unique.

End StationIndex.

(** C8: for a dataset whose station lists come out of the converter's
    de-duplication, the index built on load holds exactly one record per
    distinct station name of the dataset, in order of first appearance;
    the record of a station lists every line that serves it, once per
    line and in dataset order.  A name that is repeated among the raw
    stations of a line is kept once by the converter. *)
Theorem C8_station_index_aggregation
  (trim : string -> string) (ds : list MetroLine) (st : Store.State) :
  Converter.Converted trim ds ->
  let idx := Store.stationIndex (Store.loadMetroData ds st) in
  idx = Store.expectedIndex ds
  /\ map name idx = Store.firstOccurrences (flat_map stations ds)
  /\ NoDup (map name idx)
  /\ (forall s, In s (map name idx) <->
                exists l, In l ds /\ In s (stations l))
  /\ (forall rec, In rec idx ->
                  lines rec = Store.servingLines (name rec) ds)
  /\ (forall raw, NoDup (Converter.uniqueStationNames trim raw)).
Proof.
  intros Hc idx.
  destruct (Converted_NoDup trim ds Hc) as [Hnd Hne].
  assert (E : idx = Store.expectedIndex ds)
    by (now apply buildStationIndex_expected).
  assert (En : map name idx
               = Store.firstOccurrences (flat_map stations ds)).
  { rewrite E. unfold Store.expectedIndex. rewrite map_map. simpl.
    apply map_id. }
  split; [exact E|]. split; [exact En|]. split; [|split; [|split]].
  - rewrite En. apply NoDup_firstOccurrences.
  - intro s. rewrite En, In_firstOccurrences, in_flat_map. reflexivity.
  - intros rec Hrec. rewrite E in Hrec. unfold Store.expectedIndex in Hrec.
    apply in_map_iff in Hrec. destruct Hrec as [s [<- _]]. reflexivity.
  - intro raw. apply uniqueStationNames_spec.
Qed.

Lemma C8_station_index_aggregation_witness :
  Store.buildStationIndex [Converter.converted1; Converter.converted2]
  = [mkMetroStation "Xilang" [mkLineTag "Line 1" "#F3D03E"];
     mkMetroStation "Gongyuanqian"
       [mkLineTag "Line 1" "#F3D03E"; mkLineTag "Line 2" "#00629B"];
     mkMetroStation "Jiahewanggang" [mkLineTag "Line 2" "#00629B"]].
Proof.
  destruct (C8_station_index_aggregation Converter.asciiTrim
              [Converter.converted1; Converter.converted2]
              (Store.mkState None None None false false [] []))
    as (H & _).
  - repeat constructor.
    + exists Converter.rawStations1. reflexivity.
    + exists Converter.rawStations2. reflexivity.
  - simpl in H. rewrite H. vm_compute. reflexivity.
Defined.

(** The loader itself does not de-duplicate: a name that is twice in the
    array of a line gets the tag of that line twice. *)
Example buildStationIndex_repeated_name :
  Store.buildStationIndex [Store.loopLine]
  = [mkMetroStation "Tiyuxilu"
       [mkLineTag "Line 3" "#ECA154"; mkLineTag "Line 3" "#ECA154"];
     mkMetroStation "Linhexi" [mkLineTag "Line 3" "#ECA154"]].
Proof. reflexivity. Qed.

(** ** More about an accepted spin *)

Section SpinExtent.
Import Roulette.

Variables (its : list MetroStation) (r1 r2 now rot : Q).
Hypothesis Hits : its <> [].
Hypothesis Hr1 : 0 <= r1 < 1.
Hypothesis Hr2 : 0 <= r2 < 1.

Let a : Anim := planSpin r1 r2 now its rot.
Let n : Z := JS.length its.

Lemma easing_le_1 (p : Q) : p <= 1 -> easing p <= 1.
Proof.
  intro H. pose proof (easing_monotone p 1 H ltac:(lra)) as Hm.
  rewrite easing_one in Hm. exact Hm.
Qed.

Lemma easing_half_up (p : Q) : 1 # 2 <= p -> p <= 1 -> 1 # 2 <= easing p.
Proof.
  intros H0 H1. pose proof (easing_monotone (1 # 2) p H0 H1) as Hm.
  assert (E : easing (1 # 2) == 1 # 2) by reflexivity.
  rewrite E in Hm. exact Hm.
Qed.

Lemma easing_half_down (p : Q) : p < 1 # 2 -> easing p <= 3 # 8.
Proof.
  intro H. rewrite (easing_first_half p H).
  pose proof (cube_monotone p (1 # 2) ltac:(lra)) as Hc.
  assert (Hh : (1 # 2) * (1 # 2) * (1 # 2) == 1 # 8) by reflexivity.
  rewrite Hh in Hc.
  set (Y := p * p * p) in *.
  assert (3 * p * p * p == 3 * Y) by (unfold Y; ring).
  clearbody Y. lra.
Qed.

Lemma progressAt_half_down (t : Q) :
  2 * (t - startTime a) < duration a -> progressAt a t < 1 # 2.
Proof using Hits Hr1 Hr2.
  intro H. destruct Hr2 as [Hr20 _].
  pose proof (plan_duration_lower its r1 r2 now rot Hits Hr1 Hr20) as HD.
  fold a in HD. unfold progressAt.
  assert (Hx : t - startTime a
               == (t - startTime a) / duration a * duration a)
    by (field; lra).
  set (q := (t - startTime a) / duration a) in *.
  assert (Hq : q < 1 # 2).
  { apply (Qmult_lt_r _ _ (duration a)); lra. }
  destruct (min_spec q 1) as [[? ->]|[? ->]]; lra.
Qed.

Lemma progressAt_half_up (t : Q) :
  duration a <= 2 * (t - startTime a) -> 1 # 2 <= progressAt a t.
Proof using Hits Hr1 Hr2.
  intro H. destruct Hr2 as [Hr20 _].
  pose proof (plan_duration_lower its r1 r2 now rot Hits Hr1 Hr20) as HD.
  fold a in HD. unfold progressAt.
  assert (Hx : t - startTime a
               == (t - startTime a) / duration a * duration a)
    by (field; lra).
  set (q := (t - startTime a) / duration a) in *.
  assert (Hq : 1 # 2 <= q).
  { apply (Qmult_le_r _ _ (duration a)); lra. }
  destruct (min_spec q 1) as [[? ->]|[? ->]]; lra.
Qed.

Lemma rotationAt_upper (t : Q) : rotationAt a t <= endRotation a.
Proof using Hits Hr1 Hr2.
  destruct Hr2 as [Hr20 _].
  pose proof (plan_angleDiff_lower its r1 r2 now rot Hits Hr1 Hr20) as Hd.
  fold a in Hd.
  pose proof (easing_le_1 _ (progressAt_le_1 its r1 r2 now rot t)) as He.
  fold a in He. unfold rotationAt.
  change (endRotation a) with (startRotation a + angleDiff a).
  assert (angleDiff a * easing (progressAt a t) <= angleDiff a * 1).
  { rewrite !(Qmult_comm (angleDiff a)). apply Qmult_le_compat_r; lra. }
  lra.
Qed.

Lemma easing_nonpositive (p : Q) : p <= 0 -> easing p <= 0.
Proof.
  intro H. rewrite (easing_first_half p) by lra.
  assert (Hsq : 0 <= (- p) * (- p)) by (apply Qmult_le_0_compat; lra).
  assert (Hcu : 0 <= ((- p) * (- p)) * (- p))
    by (apply Qmult_le_0_compat; lra).
  lra.
Qed.

Lemma progressAt_nonpositive (t : Q) :
  t <= startTime a -> progressAt a t <= 0.
Proof using Hits Hr1 Hr2.
  intro H. destruct Hr2 as [Hr20 _].
  pose proof (plan_duration_lower its r1 r2 now rot Hits Hr1 Hr20) as HD.
  fold a in HD. unfold progressAt.
  assert (Hx : t - startTime a
               == (t - startTime a) / duration a * duration a)
    by (field; lra).
  set (q := (t - startTime a) / duration a) in *.
  assert (Hq : q <= 0).
  { apply (Qmult_le_r _ _ (duration a)); lra. }
  destruct (min_spec q 1) as [[? ->]|[? ->]]; lra.
Qed.

Lemma rotationAt_not_after (t : Q) :
  t <= startTime a -> rotationAt a t <= startRotation a.
Proof using Hits Hr1 Hr2.
  intro H. destruct Hr2 as [Hr20 _].
  pose proof (plan_angleDiff_lower its r1 r2 now rot Hits Hr1 Hr20) as Hd.
  fold a in Hd.
  pose proof (easing_nonpositive _ (progressAt_nonpositive t H)) as He.
  unfold rotationAt.
  assert (0 <= angleDiff a * (- easing (progressAt a t)))
    by (apply Qmult_le_0_compat; lra).
  lra.
Qed.

(** The angle a frame leaves the wheel at, whether or not it is the
    last one. *)
Lemma frame_rotation (t : Q) (w : Wheel) :
  Running its a w -> rotation (frame t w) == rotationAt a t.
Proof using Hits Hr1.
  intro Hw. destruct (JS.ltb (progressAt a t) 1) eqn:Hp.
  - destruct (frame_running its r1 r2 now rot Hits Hr1 t w Hw Hp)
      as (seen & item & ->).
    reflexivity.
  - destruct (frame_complete its r1 r2 now rot Hits Hr1 t w Hw Hp)
      as (seen & item & s & _ & _ & ->).
    simpl rotation. symmetry.
    exact (rotationAt_complete its r1 r2 now rot t Hp).
Qed.

(** After a frame the store holds the item that the lookup of the frame
    gives for the angle of the wheel. *)
Lemma frame_highlight (t : Q) (w : Wheel) :
  Running its a w ->
  selectedStation (frame t w)
  = JS.index its (frameIndex n (360 / inject_Z n) (rotation (frame t w))).
Proof using Hits Hr1.
  unfold a, n. intros (Ha & Hq & Hi).
  destruct (frame_item its Hits (rotationAt (planSpin r1 r2 now its rot) t)) as [it [Hy Hz]].
  unfold frame. rewrite Hq. simpl fold_left.
  destruct (JS.ltb (progressAt (planSpin r1 r2 now its rot) t) 1) eqn:Hp.
  - rewrite (animate_running its r1 r2 now rot t (clearRaf w) it
               Ha Hi Hy Hp).
    destruct (flushWatcher_settled its r1 Hits Hr1
                (requestAnimationFrame (planSpin r1 r2 now its rot)
                   (selectStation it
                      (setRotation (rotationAt (planSpin r1 r2 now its rot) t) (clearRaf w)))) it)
      as [seen [Hg _]]; try reflexivity; try assumption.
    rewrite Hg. simpl. now rewrite Hy.
  - destruct (plan_target its r1 r2 now rot Hits Hr1) as [s [Hs _]].
    rewrite (animate_complete its r1 r2 now rot t (clearRaf w) it s
               Ha Hi Hy Hs Hp).
    pose proof (rotationAt_complete its r1 r2 now rot t Hp) as Hend.
    destruct (flushWatcher_settled its r1 Hits Hr1
                (emitSpinComplete s
                   (setAnimating false
                      (setRotation (endRotation (planSpin r1 r2 now its rot))
                         (selectStation it
                            (setRotation (rotationAt (planSpin r1 r2 now its rot) t) (clearRaf w))))))
                it)
      as [seen [Hg _]]; try reflexivity; try assumption.
    + change (JS.index its (watcherIndex (JS.length its) (endRotation (planSpin r1 r2 now its rot)))
              = Some it).
      rewrite <- (watcherIndex_comp _ _ _ Hend). exact Hz.
    + rewrite Hg.
      change (Some it
              = JS.index its
                  (frameIndex (JS.length its)
                     (360 / inject_Z (JS.length its)) (endRotation (planSpin r1 r2 now its rot)))).
      rewrite <- (frameIndex_comp _ _ _ (Qeq_refl _) _ _ Hend).
      now rewrite Hy.
Qed.

Lemma frame_keeps_running (t : Q) (w : Wheel) :
  Running its a w -> JS.ltb (progressAt a t) 1 = true ->
  Running its a (frame t w).
Proof using Hits Hr1.
  intros Hw Hp.
  destruct (frame_running its r1 r2 now rot Hits Hr1 t w Hw Hp)
    as (seen & item & ->).
  destruct Hw as (Ha & Hq & Hi). repeat split; simpl; auto.
Qed.

Lemma frame_finishes (t : Q) (w : Wheel) :
  Running its a w -> JS.ltb (progressAt a t) 1 = false ->
  Finished its a (frame t w).
Proof using Hits Hr1.
  intros Hw Hp.
  destruct (frame_complete its r1 r2 now rot Hits Hr1 t w Hw Hp)
    as (seen & item & s & _ & Hseen & ->).
  destruct Hw as (Ha & Hq & Hi). repeat split; simpl; auto.
Qed.

Lemma run_highlight (ts : list Q) : forall w : Wheel,
  Running its a w -> ts <> [] ->
  selectedStation (runFrames ts w)
  = JS.index its
      (frameIndex n (360 / inject_Z n) (rotation (runFrames ts w))).
Proof using Hits Hr1.
  induction ts as [|t ts IH]; intros w Hw Hne; [congruence|].
  change (runFrames (t :: ts) w) with (runFrames ts (frame t w)).
  destruct (JS.ltb (progressAt a t) 1) eqn:Hp.
  - destruct ts as [|t' ts'].
    + now apply frame_highlight.
    + apply IH; [now apply frame_keeps_running|discriminate].
  - rewrite (runFrames_finished its r1 r2 now rot ts _
               (frame_finishes t w Hw Hp)).
    now apply frame_highlight.
Qed.

(** Once a frame has come at or after [startTime + duration] the spin is
    over, and its trace ends with the completion. *)
Lemma run_completes (ts : list Q) (w : Wheel) :
  Running its a w ->
  Exists (fun t => startTime a + duration a <= t) ts ->
  Finished its a (runFrames ts w)
  /\ exists upd s,
       targetItem a = Some s
       /\ trace (runFrames ts w)
          = trace w ++ upd ++ [EvRotation (endRotation a);
                               EvAnimating false; EvEmit s]
       /\ emitted upd = [].
Proof using Hits Hr1 Hr2.
  intros Hw Hex. destruct Hr2 as [Hr20 _].
  destruct (run_trace its r1 r2 now rot Hits Hr1 ts w Hw)
    as [(_ & Hall & _)|H]; [|exact H].
  exfalso. apply Exists_exists in Hex. destruct Hex as [t [Hin Ht]].
  rewrite Forall_forall in Hall. specialize (Hall t Hin).
  apply (progress_complete its r1 r2 now rot Hits Hr1 Hr20) in Ht.
  fold a in Ht. unfold a in Hall. unfold a in Ht. congruence.
Qed.

End SpinExtent.

(** X1: an accepted spin turns the wheel by more than two and at most
    six full turns and lasts more than 2000 and at most 4000
    milliseconds.  The second draw ranges over the closed interval
    [0,1]: the turn count [3 + 2 * r] is then anywhere from 3 to 5,
    the value 5 included, which the sum reaches when it is rounded up
    at the largest draw. *)
Theorem spin_extent_and_duration
  (its : list MetroStation) (r1 r2 now rot : Q) :
  its <> [] -> 0 <= r1 < 1 -> 0 <= r2 <= 1 ->
  let a := planSpin r1 r2 now its rot in
  2 * 360 < angleDiff a /\ angleDiff a <= 6 * 360
  /\ 2000 < duration a /\ duration a <= 4000.
Proof.
  intros Hits Hr1 [Hr20 Hr21] a.
  pose proof (plan_angleDiff_lower its r1 r2 now rot Hits Hr1 Hr20) as Hlo.
  pose proof (plan_duration_lower its r1 r2 now rot Hits Hr1 Hr20) as Hdl.
  fold a in Hlo, Hdl.
  assert (Hup : angleDiff a <= 6 * 360).
  { pose proof (plan_index_range its r1 r2 now rot Hits Hr1) as Hi.
    pose proof (baseTargetAngle_range _ _ Hi) as [_ Hb].
    pose proof (normalize_range rot) as [Hc _].
    unfold a. rewrite (plan_angleDiff its r1 r2 now rot Hits Hr1 Hr20).
    unfold rawAngleDiff, targetAngle, fullRotations, minRotations,
      maxRotations.
    lra. }
  assert (Hdu : duration a <= 4000).
  { change (duration a)
      with (1000 * (1 + angleDiff a * (1 # 360) * (1 # 2))).
    lra. }
  repeat split; assumption || lra.
Qed.

Lemma spin_extent_and_duration_witness :
  angleDiff (planSpin 0 1 0 fourItems 0) <= 6 * 360.
Proof.
  apply (spin_extent_and_duration fourItems 0 1 0 0).
  - discriminate.
  - split; reflexivity || discriminate.
  - split; discriminate.
Defined.

(** X2: the easing is not continuous at one half.  Between any
    timestamp before half of the duration and any timestamp from half of
    the duration on, the eased angle grows by at least an eighth of the
    whole spin, which is more than 90 degrees. *)
Theorem wheel_jumps_at_half_time
  (its : list MetroStation) (r1 r2 now rot t1 t2 : Q) :
  its <> [] -> 0 <= r1 < 1 -> 0 <= r2 < 1 ->
  let a := planSpin r1 r2 now its rot in
  2 * (t1 - startTime a) < duration a ->
  duration a <= 2 * (t2 - startTime a) ->
  angleDiff a * (1 # 8) <= rotationAt a t2 - rotationAt a t1
  /\ 90 < rotationAt a t2 - rotationAt a t1.
Proof.
  intros Hits Hr1 Hr2 a H1 H2.
  pose proof (plan_angleDiff_lower its r1 r2 now rot Hits Hr1
                (proj1 Hr2)) as Hd.
  pose proof (progressAt_half_down its r1 r2 now rot Hits Hr1 Hr2 t1 H1)
    as Hp1.
  pose proof (progressAt_half_up its r1 r2 now rot Hits Hr1 Hr2 t2 H2)
    as Hp2.
  pose proof (easing_half_down _ Hp1) as He1.
  pose proof (easing_half_up _ Hp2 (progressAt_le_1 its r1 r2 now rot t2))
    as He2.
  fold a in Hd, He1, He2. unfold rotationAt.
  set (e1 := easing (progressAt a t1)) in *.
  set (e2 := easing (progressAt a t2)) in *.
  assert (angleDiff a * (1 # 8) <= angleDiff a * (e2 - e1)).
  { rewrite !(Qmult_comm (angleDiff a)). apply Qmult_le_compat_r; lra. }
  split; lra.
Qed.

Lemma wheel_jumps_at_half_time_witness :
  90 < rotationAt (planSpin 0 0 0 fourItems 0) 1500
       - rotationAt (planSpin 0 0 0 fourItems 0) 1499.
Proof.
  apply (wheel_jumps_at_half_time fourItems 0 0 0 0 1499 1500).
  - discriminate.
  - split; reflexivity || discriminate.
  - split; reflexivity || discriminate.
  - reflexivity.
  - discriminate.
Defined.

(** X3: the first frame of an accepted spin leaves the wheel between
    bounds: never past the final angle; at or after the starting angle
    when its timestamp is not before [performance.now()] of the call;
    and at or before the starting angle when its timestamp is not after
    it, so that a frame stamped earlier than the call never advances
    the wheel. *)
Theorem first_frame_rotation
  (r1 r2 now t : Q) (w : Wheel) :
  Idle w -> items w <> [] -> 0 <= r1 < 1 -> 0 <= r2 < 1 ->
  let a := planSpin r1 r2 now (items w) (rotation w) in
  let w' := frame t (spinWheel r1 r2 now w) in
  rotation w' <= rotation w + angleDiff a
  /\ (now <= t -> rotation w <= rotation w')
  /\ (t <= now -> rotation w' <= rotation w).
Proof.
  intros Hidle Hits Hr1 Hr2 a w'.
  pose proof (spinWheel_running (items w) r1 r2 now (rotation w)
                Hits w Hidle eq_refl eq_refl) as Hrun.
  pose proof (frame_rotation (items w) r1 r2 now (rotation w) Hits Hr1
                t _ Hrun) as Hrot.
  fold w' a in Hrot.
  pose proof (rotationAt_upper (items w) r1 r2 now (rotation w)
                Hits Hr1 Hr2 t) as Hup.
  fold a in Hup. change (endRotation a) with (rotation w + angleDiff a) in Hup.
  split; [lra|]. split; intro Ht.
  - pose proof (rotationAt_from_start (items w) r1 r2 now (rotation w)
                  Hits Hr1 (proj1 Hr2) t Ht) as Hlo.
    fold a in Hlo. change (startRotation a) with (rotation w) in Hlo. lra.
  - pose proof (rotationAt_not_after (items w) r1 r2 now (rotation w)
                  Hits Hr1 Hr2 t Ht) as Hlo.
    fold a in Hlo. change (startRotation a) with (rotation w) in Hlo. lra.
Qed.

Lemma first_frame_rotation_witness :
  rotation (frame (-16) (spinWheel 0 0 0 (mounted fourItems)))
  <= rotation (mounted fourItems).
Proof.
  apply (first_frame_rotation 0 0 0 (-16) (mounted fourItems)).
  - split; reflexivity.
  - discriminate.
  - split; reflexivity || discriminate.
  - split; reflexivity || discriminate.
  - discriminate.
Defined.

(** X4: after every frame of an accepted spin, the last one included,
    the station held by the store is the item that the sector lookup of
    the frame gives for the angle the wheel is left at.  What the store
    shows at the end is therefore read off the final angle; it is not
    the emitted item as such. *)
Theorem highlight_follows_rotation
  (r1 r2 now : Q) (w : Wheel) (ts : list Q) :
  Idle w -> items w <> [] -> 0 <= r1 < 1 -> ts <> [] ->
  let a := planSpin r1 r2 now (items w) (rotation w) in
  let w' := runFrames ts (spinWheel r1 r2 now w) in
  selectedStation w'
  = JS.index (items w)
      (frameIndex (totalItems a) (sliceAngle a) (rotation w'))
  /\ exists s, selectedStation w' = Some s /\ In s (items w).
Proof.
  intros Hidle Hits Hr1 Hts a w'.
  pose proof (spinWheel_running (items w) r1 r2 now (rotation w)
                Hits w Hidle eq_refl eq_refl) as Hrun.
  pose proof (run_highlight (items w) r1 r2 now (rotation w) Hits Hr1
                ts _ Hrun Hts) as H.
  fold w' in H. split; [exact H|].
  rewrite H. apply index_in_range.
  apply frameIndex_range. now apply length_pos.
Qed.

Lemma highlight_follows_rotation_witness :
  selectedStation
    (runFrames [1500; 3000]
       (spinWheel (1 # 2) (1 # 4) 0 (mounted fourItems)))
  = Some itemA.
Proof.
  destruct (highlight_follows_rotation (1 # 2) (1 # 4) 0
              (mounted fourItems) [1500; 3000]) as [H _].
  - split; reflexivity.
  - discriminate.
  - split; reflexivity || discriminate.
  - discriminate.
  - rewrite H. vm_compute. reflexivity.
Defined.

(** X5: the rotation is never reset.  A spin that has completed leaves
    the wheel idle at its starting angle plus the angle of the spin; the
    next call of [spinWheel] is accepted and starts from there, so that
    after two completed spins two events have been emitted and the
    wheel is further on each time. *)
Theorem consecutive_spins
  (r1 r2 now r1' r2' now' : Q) (w : Wheel) (ts ts' : list Q) :
  Idle w -> items w <> [] ->
  0 <= r1 < 1 -> 0 <= r2 < 1 -> 0 <= r1' < 1 -> 0 <= r2' < 1 ->
  let a := planSpin r1 r2 now (items w) (rotation w) in
  let w1 := runFrames ts (spinWheel r1 r2 now w) in
  let a' := planSpin r1' r2' now' (items w) (rotation w1) in
  let w2 := runFrames ts' (spinWheel r1' r2' now' w1) in
  Exists (fun t => startTime a + duration a <= t) ts ->
  Exists (fun t => startTime a' + duration a' <= t) ts' ->
  Idle w1 /\ rotation w1 = rotation w + angleDiff a
  /\ Idle w2 /\ rotation w2 = rotation w1 + angleDiff a'
  /\ rotation w < rotation w1 /\ rotation w1 < rotation w2
  /\ exists s s', targetItem a = Some s /\ targetItem a' = Some s'
                  /\ emitted (trace w2) = emitted (trace w) ++ [s; s'].
Proof.
  intros Hidle Hits Hr1 Hr2 Hr1' Hr2' a w1 a' w2 Hex Hex'.
  pose proof (spinWheel_running (items w) r1 r2 now (rotation w)
                Hits w Hidle eq_refl eq_refl) as Hrun.
  destruct (run_completes (items w) r1 r2 now (rotation w) Hits Hr1 Hr2
              ts _ Hrun Hex)
    as ((Ha & Hq & Hi & Hrot & _) & upd & s & Hs & Ht & He).
  fold w1 in Ha, Hq, Hi, Hrot, Ht.
  assert (Hidle1 : Idle w1) by (split; assumption).
  assert (Hits1 : items w1 <> []) by (now rewrite Hi).
  pose proof (spinWheel_running (items w1) r1' r2' now' (rotation w1)
                Hits1 w1 Hidle1 eq_refl eq_refl) as Hrun'.
  rewrite Hi in Hrun'. rewrite <- Hi in Hits.
  assert (Hex1 : Exists
                   (fun t => startTime (planSpin r1' r2' now' (items w1)
                                          (rotation w1))
                             + duration (planSpin r1' r2' now' (items w1)
                                           (rotation w1)) <= t) ts')
    by (now rewrite Hi).
  rewrite Hi in Hits.
  destruct (run_completes (items w) r1' r2' now' (rotation w1) Hits Hr1' Hr2'
              ts' _ Hrun' Hex')
    as ((Ha' & Hq' & Hi' & Hrot' & _) & upd' & s' & Hs' & Ht' & He').
  fold a' w2 in Ha', Hq', Hi', Hrot', Ht', Hs'.
  pose proof (plan_angleDiff_lower (items w) r1 r2 now (rotation w)
                Hits Hr1 (proj1 Hr2)) as Hd.
  pose proof (plan_angleDiff_lower (items w) r1' r2' now' (rotation w1)
                Hits Hr1' (proj1 Hr2')) as Hd'.
  fold a in Hd. fold a' in Hd'.
  assert (E1 : rotation w1 = rotation w + angleDiff a) by exact Hrot.
  assert (E2 : rotation w2 = rotation w1 + angleDiff a') by exact Hrot'.
  split; [exact Hidle1|]. split; [exact E1|].
  split; [split; assumption|]. split; [exact E2|].
  split; [rewrite E1; lra|]. split; [rewrite E2; lra|].
  exists s, s'. split; [exact Hs|]. split; [exact Hs'|].
  rewrite Ht'.
  assert (Ht1 : trace (spinWheel r1' r2' now' w1)
                = trace w1 ++ [EvAnimating true; EvRequestFrame]).
  { rewrite (spinWheel_accepted (items w1) r1' r2' now' (rotation w1)
               Hits1 w1 Hidle1 eq_refl eq_refl).
    simpl. now rewrite <- app_assoc. }
  assert (Ht0 : trace (spinWheel r1 r2 now w)
                = trace w ++ [EvAnimating true; EvRequestFrame]).
  { rewrite (spinWheel_accepted (items w) r1 r2 now (rotation w)
               Hits w Hidle eq_refl eq_refl).
    simpl. now rewrite <- app_assoc. }
  rewrite Ht1, Ht, Ht0, !emitted_app, He, He'. simpl.
  now rewrite !app_nil_r, <- app_assoc.
Qed.

Lemma consecutive_spins_witness :
  emitted
    (trace
       (runFrames [9000]
          (spinWheel (3 # 4) 0 5000
             (runFrames [4000]
                (spinWheel (1 # 2) (1 # 4) 0 (mounted fourItems))))))
  = [itemC; itemD].
Proof.
  destruct (consecutive_spins (1 # 2) (1 # 4) 0 (3 # 4) 0 5000
              (mounted fourItems) [4000] [9000])
    as (_ & _ & _ & _ & _ & _ & s & s' & Hs & Hs' & H).
  - split; reflexivity.
  - discriminate.
  - split; reflexivity || discriminate.
  - split; reflexivity || discriminate.
  - split; reflexivity || discriminate.
  - split; reflexivity || discriminate.
  - apply Exists_cons_hd. vm_compute. discriminate.
  - apply Exists_cons_hd. vm_compute. discriminate.
  - rewrite H. injection Hs as <-. vm_compute in Hs'. injection Hs' as <-.
    reflexivity.
Defined.

(** X6: on a non-empty list [updateCurrentItem] leaves in the store a
    station with the name of the item at the current rotation, and
    running it again changes nothing.  It compares names only: a store
    that already holds a station of that name is not written, and
    otherwise the item itself is stored. *)
Theorem updateCurrentItem_settles (w : Wheel) :
  items w <> [] ->
  exists item,
    JS.index (items w)
      (watcherIndex (JS.length (items w)) (currentRotation w)) = Some item
    /\ (exists s, selectedStation (updateCurrentItem w) = Some s
                  /\ name s = name item)
    /\ updateCurrentItem (updateCurrentItem w) = updateCurrentItem w
    /\ (forall s, selectedStation w = Some s -> name s = name item ->
                  updateCurrentItem w = w)
    /\ ((forall s, selectedStation w = Some s -> name s <> name item) ->
        updateCurrentItem w = selectStation item w).
Proof.
  intro Hits. pose proof (length_pos _ Hits) as Hn.
  destruct (index_in_range (items w)
              (watcherIndex (JS.length (items w)) (currentRotation w)))
    as [item [Hx _]]; [now apply watcherIndex_range|].
  exists item. split; [exact Hx|].
  assert (Hstep : forall v : Wheel,
             items v = items w -> currentRotation v = currentRotation w ->
             updateCurrentItem v
             = if sameName item (selectedStation v) then v
               else selectStation item v).
  { intros v Hi Hc. unfold updateCurrentItem. rewrite Hi, Hc.
    destruct (Z.eqb_spec (JS.length (items w)) 0); [lia|].
    now rewrite Hx. }
  rewrite (Hstep w eq_refl eq_refl).
  destruct (selectedStation w) as [s0|] eqn:Hsel; simpl sameName.
  - destruct (String.eqb_spec (name item) (name s0)) as [E|E].
    + split; [exists s0; auto|]. split.
      * rewrite (Hstep w eq_refl eq_refl), Hsel. simpl.
        destruct (String.eqb_spec (name item) (name s0)); congruence.
      * split; [reflexivity|]. intro H. exfalso.
        apply (H s0 eq_refl). now symmetry.
    + split; [exists item; simpl; auto|]. split.
      * rewrite (Hstep (selectStation item w) eq_refl eq_refl). simpl.
        now rewrite String.eqb_refl.
      * split; [|reflexivity]. intros s Hs Hname.
        injection Hs as <-. congruence.
  - split; [exists item; simpl; auto|]. split.
    + rewrite (Hstep (selectStation item w) eq_refl eq_refl). simpl.
      now rewrite String.eqb_refl.
    + split; [|reflexivity]. intros s Hs. discriminate.
Qed.

Lemma updateCurrentItem_settles_witness :
  updateCurrentItem (updateCurrentItem (initialWheel fourItems))
  = updateCurrentItem (initialWheel fourItems).
Proof.
  destruct (updateCurrentItem_settles (initialWheel fourItems))
    as (item & _ & _ & H & _).
  - discriminate.
  - exact H.
Defined.

(** ** The gradient of the wheel *)

Section Gradient.
Import Background.

Lemma chained_comp (l : list Stop) : forall x x' y y' : Q,
  x == x' -> y == y' -> chained x l y -> chained x' l y'.
Proof.
  induction l as [|s l IH]; intros x x' y y' Hx Hy; simpl.
  - intro H. now rewrite <- Hx, <- Hy.
  - intros [H1 H2]. split; [now rewrite H1|].
    exact (IH _ _ _ _ (Qeq_refl _) Hy H2).
Qed.

Lemma chained_app (l l' : list Stop) : forall x y z : Q,
  chained x l y -> chained y l' z -> chained x (l ++ l') z.
Proof.
  induction l as [|s l IH]; intros x y z; simpl.
  - intros Hxy H. exact (chained_comp l' _ _ _ _ (Qeq_sym _ _ Hxy)
                           (Qeq_refl _) H).
  - intros [H1 H2] H. split; [exact H1|]. exact (IH _ _ _ H2 H).
Qed.

Lemma length_cons {A : Type} (x : A) (l : list A) :
  JS.length (x :: l) = (1 + JS.length l)%Z.
Proof. unfold JS.length. simpl List.length. lia. Qed.

Lemma length_nonneg {A : Type} (l : list A) : (0 <= JS.length l)%Z.
Proof. unfold JS.length. lia. Qed.

(** The bands of one item, from the band of index [k] on. *)
Lemma bands_chained (S W : Q) (c : Z) (l : list LineTag) : forall k : Z,
  chained (S + W * (inject_Z k / inject_Z c))
    (mapi (fun idx line =>
             mkStop (Some (tag_color line))
               (S + W * (inject_Z idx / inject_Z c))
               (S + W * (inject_Z (idx + 1) / inject_Z c))) k l)
    (S + W * (inject_Z (k + JS.length l) / inject_Z c)).
Proof.
  induction l as [|x l IH]; intro k; simpl.
  - unfold JS.length. simpl. now rewrite Z.add_0_r.
  - split; [reflexivity|].
    eapply chained_comp; [reflexivity| |exact (IH (k + 1)%Z)].
    rewrite length_cons. now rewrite Z.add_assoc.
Qed.

Lemma itemStops_chained (n i : Z) (item : MetroStation) :
  (0 < n)%Z ->
  chained ((inject_Z i / inject_Z n) * 360) (itemStops n i item)
    ((inject_Z (i + 1) / inject_Z n) * 360).
Proof.
  intro Hn. unfold itemStops.
  destruct (Z.ltb_spec 1 (JS.length (lines item))) as [Hc|Hc].
  - set (S := (inject_Z i / inject_Z n) * 360).
    set (E := (inject_Z (i + 1) / inject_Z n) * 360).
    assert (Hc' : 0 < inject_Z (JS.length (lines item)))
      by (apply inject_Z_pos; lia).
    eapply chained_comp;
      [| |exact (bands_chained S (E - S) (JS.length (lines item))
                   (lines item) 0)].
    + change (inject_Z 0) with 0. field. lra.
    + rewrite Z.add_0_l. field. lra.
  - simpl. split; reflexivity.
Qed.

Lemma gradientStops_chained (n : Z) (its : list MetroStation) :
  (0 < n)%Z -> forall k : Z,
  chained ((inject_Z k / inject_Z n) * 360)
    (List.concat (mapi (itemStops n) k its))
    ((inject_Z (k + JS.length its) / inject_Z n) * 360).
Proof.
  intro Hn. induction its as [|item its IH]; intro k; simpl.
  - unfold JS.length. simpl. now rewrite Z.add_0_r.
  - eapply chained_app; [exact (itemStops_chained n k item Hn)|].
    eapply chained_comp; [reflexivity| |exact (IH (k + 1)%Z)].
    rewrite length_cons. now rewrite Z.add_assoc.
Qed.

Lemma bands_width (S W : Q) (c : Z) (l : list LineTag) :
  0 <= W -> (0 < c)%Z -> forall k : Z,
  Forall (fun s => stop_from s <= stop_to s)
    (mapi (fun idx line =>
             mkStop (Some (tag_color line))
               (S + W * (inject_Z idx / inject_Z c))
               (S + W * (inject_Z (idx + 1) / inject_Z c))) k l).
Proof.
  intros HW Hc. apply inject_Z_pos in Hc.
  induction l as [|x l IH]; intro k; simpl; constructor; [|apply IH].
  simpl. rewrite inject_Z_plus. change (inject_Z 1) with 1.
  assert (inject_Z k / inject_Z c <= (inject_Z k + 1) / inject_Z c).
  { unfold Qdiv. apply Qmult_le_compat_r; [lra|].
    apply Qinv_le_0_compat. lra. }
  assert (W * (inject_Z k / inject_Z c)
          <= W * ((inject_Z k + 1) / inject_Z c)).
  { rewrite !(Qmult_comm W). apply Qmult_le_compat_r; assumption. }
  lra.
Qed.

Lemma turn_width (n i : Z) :
  (0 < n)%Z ->
  0 <= (inject_Z (i + 1) / inject_Z n) * 360
       - (inject_Z i / inject_Z n) * 360.
Proof.
  intro Hn. pose proof (slice_pos n Hn) as Hs.
  assert (E : (inject_Z (i + 1) / inject_Z n) * 360
              - (inject_Z i / inject_Z n) * 360 == 360 / inject_Z n).
  { rewrite inject_Z_plus. change (inject_Z 1) with 1.
    apply inject_Z_pos in Hn. field. lra. }
  rewrite E. lra.
Qed.

Lemma itemStops_width (n i : Z) (item : MetroStation) :
  (0 < n)%Z ->
  Forall (fun s => stop_from s <= stop_to s) (itemStops n i item).
Proof.
  intro Hn. pose proof (turn_width n i Hn) as HW. unfold itemStops.
  destruct (Z.ltb_spec 1 (JS.length (lines item))) as [Hc|Hc].
  - apply bands_width; [exact HW|lia].
  - repeat constructor. simpl. lra.
Qed.

Lemma mapi_length {A B : Type} (f : Z -> A -> B) (l : list A) :
  forall k, List.length (mapi f k l) = List.length l.
Proof. induction l as [|x l IH]; intro k; simpl; [reflexivity|now rewrite IH]. Qed.

Lemma itemStops_length (n i : Z) (item : MetroStation) :
  List.length (itemStops n i item) = bands item.
Proof.
  unfold itemStops, bands, JS.length.
  destruct (Z.ltb_spec 1 (Z.of_nat (List.length (lines item)))) as [Hc|Hc].
  - rewrite mapi_length. lia.
  - simpl List.length. lia.
Qed.

Lemma mapi_In {A B : Type} (f : Z -> A -> B) (l : list A) (y : B) :
  forall k, In y (mapi f k l) -> exists idx x, In x l /\ y = f idx x.
Proof.
  induction l as [|x l IH]; intros k Hin; [contradiction|].
  destruct Hin as [<-|Hin].
  - exists k, x. split; [now left|reflexivity].
  - destruct (IH _ Hin) as (idx & x' & Hx & ->).
    exists idx, x'. split; [now right|reflexivity].
Qed.

(** A stop without colour comes from an item without lines. *)
Lemma itemStops_colour (n i : Z) (item : MetroStation) :
  (exists s, In s (itemStops n i item) /\ stop_color s = None)
  <-> lines item = [].
Proof.
  unfold itemStops.
  destruct (Z.ltb_spec 1 (JS.length (lines item))) as [Hc|Hc].
  - split.
    + intros [s [Hin Hs]]. exfalso.
      apply mapi_In in Hin. destruct Hin as (idx & x & _ & ->).
      discriminate.
    + intro E. rewrite E in Hc. unfold JS.length in Hc. simpl in Hc. lia.
  - split.
    + intros [s [[<-|[]] Hs]]. simpl in Hs.
      destruct (lines item) as [|x l]; [reflexivity|discriminate].
    + intro E. rewrite E. eexists. split; [left; reflexivity|reflexivity].
Qed.

End Gradient.

(** X8: for a non-empty item list the stops of the conic gradient go
    round the whole circle without gap or overlap: the first starts at 0
    degrees, each one starts where the one before ends, the last ends at
    360, none has a negative width, and an item is painted with as many
    stops as it has lines (one when it has none). *)
Theorem wheelBackground_tiles_the_circle (its : list MetroStation) :
  its <> [] ->
  exists stops,
    Background.wheelBackground its = Background.ConicGradient stops
    /\ Background.chained 0 stops 360
    /\ Forall (fun s => Background.stop_from s <= Background.stop_to s) stops
    /\ List.length stops = list_sum (map Background.bands its).
Proof.
  intro Hits. pose proof (length_pos its Hits) as Hn.
  exists (Background.gradientStops its).
  split.
  { unfold Background.wheelBackground.
    destruct (Z.eqb_spec (JS.length its) 0); [lia|reflexivity]. }
  split.
  { unfold Background.gradientStops.
    eapply chained_comp;
      [| |exact (gradientStops_chained (JS.length its) its Hn 0)].
    - change (inject_Z 0) with 0. unfold Qdiv. ring.
    - rewrite Z.add_0_l. apply inject_Z_pos in Hn. field. lra. }
  split.
  { unfold Background.gradientStops. generalize 0%Z.
    generalize (JS.length its) Hn. intros n Hn'. clear Hits Hn.
    induction its as [|item its IH]; intro k; simpl; [constructor|].
    apply Forall_app. split; [now apply itemStops_width|apply IH]. }
  unfold Background.gradientStops. generalize 0%Z.
  generalize (JS.length its). intros n. clear Hits Hn.
  induction its as [|item its IH]; intro k; simpl; [reflexivity|].
  now rewrite length_app, itemStops_length, IH.
Qed.

Lemma wheelBackground_tiles_the_circle_witness :
  exists stops,
    Background.wheelBackground Background.threeItems
    = Background.ConicGradient stops
    /\ Background.chained 0 stops 360.
Proof.
  destruct (wheelBackground_tiles_the_circle Background.threeItems)
    as (stops & H1 & H2 & _).
  - discriminate.
  - exists stops. split; assumption.
Defined.

Lemma gradient_missing_colour (its : list MetroStation) :
  (exists s, In s (Background.gradientStops its)
             /\ Background.stop_color s = None)
  <-> exists item, In item its /\ lines item = [].
Proof.
  unfold Background.gradientStops. generalize 0%Z.
  generalize (JS.length its). intro n.
  induction its as [|item its IH]; intro k; simpl.
  - split; intros [x [[] _]].
  - split.
    + intros [s [Hin Hs]]. apply in_app_or in Hin.
      destruct Hin as [Hin|Hin].
      * exists item. split; [now left|].
        apply (itemStops_colour n k item). eauto.
      * destruct (proj1 (IH (k + 1)%Z)) as [it [Hit Hl]]; [eauto|].
        exists it. split; [now right|exact Hl].
    + intros [it [[<-|Hit] Hl]].
      * destruct (proj2 (itemStops_colour n k item) Hl) as [s [Hin Hs]].
        exists s. split; [apply in_or_app; now left|exact Hs].
      * destruct (proj2 (IH (k + 1)%Z)) as [s [Hin Hs]]; [eauto|].
        exists s. split; [apply in_or_app; now right|exact Hs].
Qed.

(** X9: the gradient holds a stop without colour, printed as
    [undefined], exactly when some item has no lines; the stop is then
    the only one of that item. *)
Theorem gradient_colour_is_missing (its : list MetroStation) :
  ((exists s, In s (Background.gradientStops its)
              /\ Background.stop_color s = None)
   <-> exists item, In item its /\ lines item = [])
  /\ forall n i item,
       lines item = [] ->
       Background.itemStops n i item
       = [Background.mkStop None ((inject_Z i / inject_Z n) * 360)
            ((inject_Z (i + 1) / inject_Z n) * 360)].
Proof.
  split; [apply gradient_missing_colour|].
  intros n i item E. unfold Background.itemStops. now rewrite E.
Qed.

(** ** The index of any dataset *)

Section IndexOfAnyDataset.
Import Store.

Lemma tagsOf_In (k : string) (tag : LineTag) (ps : list (string * LineTag)) :
  In tag (tagsOf k ps) <-> In (k, tag) ps.
Proof.
  unfold tagsOf. rewrite in_map_iff. split.
  - intros [[s t] [<- Hin]]. apply filter_In in Hin.
    destruct Hin as [Hin Hs]. simpl in Hs. apply String.eqb_eq in Hs.
    simpl. now subst s.
  - intro Hin. exists (k, tag). split; [reflexivity|].
    apply filter_In. split; [exact Hin|]. simpl. apply String.eqb_refl.
Qed.

Lemma tagged_In (k : string) (tag : LineTag) (ds : list MetroLine) :
  In (k, tag) (tagged ds)
  <-> exists l, In l ds /\ tag = tagOf l /\ In k (stations l).
Proof.
  unfold tagged. rewrite in_flat_map. split.
  - intros [l [Hl Hin]]. apply in_map_iff in Hin.
    destruct Hin as [s [E Hs]]. injection E as <- <-.
    exists l. auto.
  - intros [l [Hl [-> Hk]]]. exists l. split; [exact Hl|].
    apply in_map_iff. exists k. auto.
Qed.

Lemma tagsOf_count (k : string) (ds : list MetroLine) :
  List.length (tagsOf k (tagged ds))
  = count_occ string_dec (flat_map stations ds) k.
Proof.
  induction ds as [|l ds IH]; [reflexivity|].
  unfold tagged. simpl flat_map. fold (tagged ds).
  rewrite tagsOf_app, length_app, count_occ_app, IH. f_equal.
  unfold tagsOf. induction (stations l) as [|s names IHn]; [reflexivity|].
  simpl. destruct (String.eqb_spec s k) as [->|Hsk].
  - destruct (string_dec k k); [|congruence]. simpl. now rewrite IHn.
  - destruct (string_dec s k); [congruence|]. exact IHn.
Qed.

Lemma index_records (ds : list MetroLine) :
  buildStationIndex ds
  = map (fun k => mkMetroStation k (tagsOf k (tagged ds)))
        (firstOccurrences (filter nonEmpty (flat_map stations ds))).
Proof.
  rewrite buildStationIndex_spec. unfold indexOf.
  now rewrite map_map, map_fst_tagged.
Qed.

Lemma index_names (ds : list MetroLine) :
  map name (buildStationIndex ds)
  = firstOccurrences (filter nonEmpty (flat_map stations ds)).
Proof.
  rewrite index_records, map_map. simpl. apply map_id.
Qed.

Lemma nonEmpty_true (s : string) : nonEmpty s = true <-> s <> ""%string.
Proof.
  unfold nonEmpty. destruct (String.eqb_spec s ""); simpl; split;
    congruence.
Qed.

Lemma index_name_In (ds : list MetroLine) (s : string) :
  In s (map name (buildStationIndex ds))
  <-> s <> ""%string /\ exists l, In l ds /\ In s (stations l).
Proof.
  rewrite index_names, In_firstOccurrences, filter_In, in_flat_map,
    nonEmpty_true.
  tauto.
Qed.

Lemma find_keyed (f : string -> list LineTag) (keys : list string)
    (s : string) :
  find (fun x => String.eqb (name x) s)
       (map (fun k => mkMetroStation k (f k)) keys)
  = if mem s keys then Some (mkMetroStation s (f s)) else None.
Proof.
  induction keys as [|k keys IH]; simpl; [reflexivity|].
  destruct (String.eqb_spec k s) as [->|Hks]; simpl; [reflexivity|].
  exact IH.
Qed.

(** The lookup that [selectRandomStationFromLine] makes. *)
Lemma index_find (ds : list MetroLine) (s : string) :
  find (fun x => String.eqb (name x) s) (buildStationIndex ds)
  = if mem s (filter nonEmpty (flat_map stations ds))
    then Some (mkMetroStation s (tagsOf s (tagged ds)))
    else None.
Proof.
  rewrite index_records, find_keyed. now rewrite mem_firstOccurrences.
Qed.

End IndexOfAnyDataset.

(** X10: for any array of lines, the index built on load has one record
    per distinct non-empty station name, in the order in which the names
    first appear in the arrays of the lines; the record of a name holds
    one tag per occurrence of the name in those arrays, so at least one,
    and every tag is that of a line that lists the name. *)
Theorem station_index_of_any_dataset (ds : list MetroLine) :
  let idx := Store.buildStationIndex ds in
  map name idx
  = Store.firstOccurrences (filter Store.nonEmpty (flat_map stations ds))
  /\ NoDup (map name idx)
  /\ (forall s, In s (map name idx)
                <-> s <> ""%string /\ exists l, In l ds /\ In s (stations l))
  /\ forall rec, In rec idx ->
       lines rec <> []
       /\ List.length (lines rec)
          = count_occ string_dec (flat_map stations ds) (name rec)
       /\ forall tag, In tag (lines rec)
                      <-> exists l, In l ds /\ tag = Store.tagOf l
                                    /\ In (name rec) (stations l).
Proof.
  intro idx. split; [apply index_names|]. split; [|split].
  - unfold idx. rewrite index_names. apply NoDup_firstOccurrences.
  - intro s. apply index_name_In.
  - intros rec Hrec.
    assert (Hname : In (name rec) (map name idx)) by now apply in_map.
    apply index_name_In in Hname. destruct Hname as [Hne [l [Hl Hs]]].
    unfold idx in Hrec. rewrite index_records in Hrec.
    apply in_map_iff in Hrec. destruct Hrec as [k [<- Hk]]. simpl in *.
    assert (Htag : forall tag,
               In tag (Store.tagsOf k (Store.tagged ds))
               <-> exists l0, In l0 ds /\ tag = Store.tagOf l0
                              /\ In k (stations l0)).
    { intro tag. now rewrite tagsOf_In, tagged_In. }
    split; [|split; [apply tagsOf_count|exact Htag]].
    intro E. assert (Hin : In (Store.tagOf l) (Store.tagsOf k (Store.tagged ds)))
      by (apply Htag; eauto).
    rewrite E in Hin. contradiction.
Qed.

(** A non-empty name that a line lists is found in the index, with the
    tag of the line in its record. *)
Lemma index_lookup (ds : list MetroLine) (s : string) (l : MetroLine) :
  In l ds -> In s (stations l) -> s <> ""%string ->
  exists rec,
    find (fun x => String.eqb (name x) s) (Store.buildStationIndex ds)
    = Some rec
    /\ name rec = s
    /\ In rec (Store.buildStationIndex ds)
    /\ In (Store.tagOf l) (lines rec).
Proof.
  intros Hl Hs Hne. rewrite index_find.
  assert (Hmem : Store.mem s (filter Store.nonEmpty (flat_map stations ds))
                 = true).
  { apply mem_In, filter_In. split.
    - apply in_flat_map. eauto.
    - now apply nonEmpty_true. }
  rewrite Hmem. eexists. split; [reflexivity|]. split; [reflexivity|].
  split.
  - rewrite index_records. apply in_map_iff. exists s.
    split; [reflexivity|]. apply In_firstOccurrences. now apply mem_In.
  - simpl. apply tagsOf_In, tagged_In. eauto.
Qed.

(** X11: looking a station up in the index by name, as the second stage
    does, finds the record of that name for every non-empty name that a
    line of the dataset lists, with the tag of that line in it, and
    finds nothing for any other name. *)
Theorem station_index_lookup (ds : list MetroLine) (s : string) :
  let found := find (fun x => String.eqb (name x) s)
                    (Store.buildStationIndex ds) in
  (forall l, In l ds -> In s (stations l) -> s <> ""%string ->
     exists rec, found = Some rec /\ name rec = s
                 /\ In rec (Store.buildStationIndex ds)
                 /\ In (Store.tagOf l) (lines rec))
  /\ ((s = ""%string \/ forall l, In l ds -> ~ In s (stations l)) ->
      found = None).
Proof.
  intro found. unfold found. split.
  - intros l Hl Hs Hne. now apply index_lookup.
  - intro H. rewrite index_find.
    destruct (Store.mem s (filter Store.nonEmpty (flat_map stations ds)))
      eqn:E; [|reflexivity].
    exfalso. apply mem_In, filter_In in E. destruct E as [Hin Hne].
    apply nonEmpty_true in Hne. apply in_flat_map in Hin.
    destruct Hin as [l [Hl Hs]].
    destruct H as [H|H]; [congruence|exact (H l Hl Hs)].
Qed.

(** ** Drawing in the store *)

Lemma getRandomElement_in_range {T : Type} (r : Q) (l : list T) :
  l <> [] -> 0 <= r < 1 ->
  exists x, Store.getRandomElement r l = Some x /\ In x l.
Proof.
  intros Hne Hr. unfold Store.getRandomElement.
  pose proof (length_pos l Hne) as Hn.
  destruct (Z.eqb_spec (JS.length l) 0); [lia|].
  apply index_in_range. now apply drawIndex_range.
Qed.

(** X12: [getRandomElement] returns [null] on the empty array and only
    there: on a non-empty array and a random number of [0,1) it returns
    an element of the array, the first one when the number is 0; and a
    larger random number never gives an earlier position. *)
Theorem getRandomElement_returns_an_element
  {T : Type} (r : Q) (l : list T) :
  0 <= r < 1 ->
  (Store.getRandomElement r l = None <-> l = [])
  /\ (forall x, Store.getRandomElement r l = Some x -> In x l)
  /\ Store.getRandomElement 0 l = hd_error l
  /\ forall r', r <= r' ->
       (JS.floor (r * inject_Z (JS.length l))
        <= JS.floor (r' * inject_Z (JS.length l)))%Z.
Proof.
  intro Hr. split; [|split; [|split]].
  - split.
    + intro E. destruct l as [|y l]; [reflexivity|].
      destruct (getRandomElement_in_range r (y :: l) ltac:(discriminate) Hr)
        as [x [Hx _]].
      congruence.
    + intros ->. reflexivity.
  - intros x Hx. destruct l as [|y l]; [discriminate|].
    destruct (getRandomElement_in_range r (y :: l) ltac:(discriminate) Hr)
      as [x' [Hx' Hin]].
    congruence.
  - destruct l; reflexivity.
  - intros r' Hle. unfold JS.floor. apply Qfloor_resp_le.
    apply Qmult_le_compat_r; [exact Hle|].
    unfold JS.length. rewrite <- (Zle_Qle 0). lia.
Qed.

Lemma getRandomElement_returns_an_element_witness :
  In Store.line2 [Store.line1; Store.line2].
Proof.
  apply (proj1 (proj2 (getRandomElement_returns_an_element (1 # 2)
                         [Store.line1; Store.line2]
                         ltac:(split; reflexivity || discriminate)))).
  reflexivity.
Defined.

(** X13: [spin] of the store never touches the mode, the loaded lines,
    the index or [isInitialized]; called while [isSpinning] it changes
    nothing at all, and otherwise it leaves [isSpinning] false. *)
Theorem store_spin_frame (r : Q) (st : Store.State) :
  let st' := Store.spin r st in
  Store.mode st' = Store.mode st
  /\ Store.metroData st' = Store.metroData st
  /\ Store.stationIndex st' = Store.stationIndex st
  /\ Store.isInitialized st' = Store.isInitialized st
  /\ (Store.isSpinning st = true -> st' = st)
  /\ (Store.isSpinning st = false -> Store.isSpinning st' = false).
Proof.
  intro st'. unfold st', Store.spin, Store.spinBegin.
  destruct (Store.isSpinning st) eqn:Hs.
  - repeat split; intros; try reflexivity; congruence.
  - unfold Store.spinResume. simpl Store.mode.
    destruct (Store.mode st) as [[|]|] eqn:Hm; simpl;
      repeat match goal with
             | |- context [match ?x with _ => _ end] => destruct x; simpl
             end;
      repeat split; intros; try reflexivity; congruence.
Qed.



(** The second stage on a loaded store. *)
Lemma second_stage_draw (r : Q) (line : MetroLine) (st : Store.State) :
  Store.stationIndex st = Store.buildStationIndex (Store.metroData st) ->
  In line (Store.metroData st) ->
  stations line <> [] ->
  Forall (fun s => s <> ""%string) (stations line) ->
  0 <= r < 1 ->
  exists rec,
    Store.selectRandomStationFromLine r line st = Some rec
    /\ In (name rec) (stations line)
    /\ In (Store.tagOf line) (lines rec)
    /\ In rec (Store.stationIndex st).
Proof.
  intros Hidx Hl Hne Hnames Hr.
  unfold Store.selectRandomStationFromLine.
  pose proof (length_pos _ Hne) as Hn.
  destruct (Z.eqb_spec (JS.length (stations line)) 0); [lia|].
  destruct (getRandomElement_in_range r _ Hne Hr) as [s [E Hin]].
  rewrite E, Hidx.
  rewrite Forall_forall in Hnames.
  destruct (index_lookup (Store.metroData st) s line Hl Hin
              (Hnames s Hin))
    as (rec & Hf & Hname & Hrec & Htag).
  exists rec. rewrite Hf. subst s. auto.
Qed.




(** X17: an element of the fetched array whose [stations] is missing
    or not an array is skipped: the index is the one of the elements
    that have a [stations] array. *)
Theorem malformed_lines_are_skipped (ps : list Loader.ParsedLine) :
  Loader.buildStationIndexParsed ps
  = Store.buildStationIndex (Loader.wellFormed ps).
Proof.
  unfold Loader.buildStationIndexParsed, Store.buildStationIndex.
  f_equal. generalize (@nil (string * MetroStation)).
  induction ps as [|p ps IH]; intro m; [reflexivity|].
  simpl. unfold Loader.addParsedLine at 2.
  destruct (Loader.parsed_stations p) as [names|]; simpl.
  - rewrite IH. reflexivity.
  - apply IH.
Qed.

(** ** The page and the wheel *)

Lemma mounted_idle (its : list MetroStation) :
  Idle (mounted its) /\ items (mounted its) = its
  /\ rotation (mounted its) = 0 /\ trace (mounted its) = match its with
                                                        | [] => []
                                                        | x :: _ => [EvSelect x]
                                                        end.
Proof.
  unfold mounted, updateCurrentItem. simpl items.
  destruct its as [|x its]; [repeat split|].
  destruct (Z.eqb_spec (JS.length (x :: its)) 0) as [E|E];
    [unfold JS.length in E; simpl in E; lia|].
  assert (Hw : watcherIndex (JS.length (x :: its)) 0 = 0%Z).
  { unfold watcherIndex.
    assert (Hq : normalize 0 / (360 / inject_Z (JS.length (x :: its)))
                 == inject_Z 0).
    { assert (Hn : normalize 0 == 0) by reflexivity. rewrite Hn.
      unfold Qdiv. change (inject_Z 0) with 0. ring. }
    rewrite (floor_comp _ _ Hq). unfold JS.floor. rewrite Qfloor_Z.
    rewrite Z.sub_0_r. apply Z.rem_same. exact E. }
  simpl currentRotation. rewrite Hw. simpl. repeat split.
Qed.

Lemma idle_wheel_is_inert (w : Wheel) (ts : list Q) :
  Idle w -> Qeq_bool (currentRotation w) (watched w) = true ->
  runFrames ts w = w.
Proof.
  intros [Ha Hq] Hw. induction ts as [|t ts IH]; [reflexivity|].
  change (runFrames (t :: ts) w) with (runFrames ts (frame t w)).
  assert (E : frame t w = w).
  { unfold frame. rewrite Hq. simpl fold_left.
    rewrite (clearRaf_same w Hq). unfold flushWatcher. now rewrite Hw. }
  now rewrite E.
Qed.

Lemma map_nil_iff {A B : Type} (f : A -> B) (l : list A) :
  map f l = [] <-> l = [].
Proof. destruct l; simpl; split; congruence. Qed.

(** X18: the page gives the wheel no items exactly when it is not
    initialised, no mode is chosen, or the list of the current stage is
    empty (the index in single mode, the lines in the first stage, the
    stations of the selected line in the second).  The wheel then
    rejects every spin: it stays as mounted whatever frames follow, so
    it never emits [spin-complete]. *)
Theorem wheel_without_items_is_inert
  (isInitialized : bool) (st : Store.State) (r1 r2 now : Q) (ts : list Q) :
  let its := App.rouletteItems isInitialized st in
  (its = [] <->
   isInitialized = false
   \/ Store.mode st = None
   \/ (Store.mode st = Some single /\ Store.stationIndex st = [])
   \/ (Store.mode st = Some double /\ Store.selectedLine st = None
       /\ Store.metroData st = [])
   \/ (Store.mode st = Some double
       /\ exists line, Store.selectedLine st = Some line
                       /\ stations line = []))
  /\ (its = [] ->
      runFrames ts (spinWheel r1 r2 now (App.wheelOf isInitialized st))
      = App.wheelOf isInitialized st
      /\ trace (App.wheelOf isInitialized st) = []).
Proof.
  intro its. split.
  - unfold its, App.rouletteItems.
    destruct isInitialized; simpl; [|split; auto].
    destruct (Store.mode st) as [[|]|] eqn:Hm.
    + rewrite map_nil_iff. split.
      * intro E. right. right. left. auto.
      * intros [H|[H|[[_ H]|[[H _]|[H _]]]]]; congruence.
    + destruct (Store.selectedLine st) as [line|] eqn:Hl;
        rewrite map_nil_iff; split.
      * intro E. do 4 right. split; [reflexivity|]. exists line. auto.
      * intros [H|[H|[[H _]|[[_ [H _]]|[_ [l [H E]]]]]]]; try congruence.
      * intro E. do 3 right. left. auto.
      * intros [H|[H|[[H _]|[[_ [_ H]]|[_ [l [H _]]]]]]]; congruence.
    + split; auto.
  - intro E. unfold App.wheelOf. fold its. rewrite E.
    split; [|reflexivity].
    assert (Hs : spinWheel r1 r2 now (mounted []) = mounted [])
      by reflexivity.
    rewrite Hs. apply idle_wheel_is_inert; [split|]; reflexivity.
Qed.

Lemma wheel_without_items_is_inert_witness :
  runFrames [16; 33]
    (spinWheel (1 # 2) (1 # 2) 0
       (App.wheelOf false
          (Store.loadMetroData [Store.line1; Store.line2]
             StoreActions.emptyStore)))
  = App.wheelOf false
      (Store.loadMetroData [Store.line1; Store.line2]
         StoreActions.emptyStore).
Proof.
  apply (wheel_without_items_is_inert false
           (Store.loadMetroData [Store.line1; Store.line2]
              StoreActions.emptyStore) (1 # 2) (1 # 2) 0 [16; 33]).
  reflexivity.
Defined.

Lemma index_record_filled (ds : list MetroLine) (rec : MetroStation) :
  In rec (Store.buildStationIndex ds) ->
  name rec <> ""%string /\ lines rec <> [].
Proof.
  intro Hrec.
  assert (Hname : In (name rec) (map name (Store.buildStationIndex ds)))
    by now apply in_map.
  apply (proj1 (index_name_In ds (name rec))) in Hname.
  destruct Hname as [Hne [l [Hl Hs]]].
  split; [exact Hne|].
  rewrite index_records in Hrec. apply in_map_iff in Hrec.
  destruct Hrec as [k [<- _]]. simpl in *.
  intro E.
  assert (Hin : In (Store.tagOf l) (Store.tagsOf k (Store.tagged ds))).
  { apply tagsOf_In, tagged_In. eauto. }
  rewrite E in Hin. contradiction.
Qed.

Lemma orElse_filled (s fallback : string) :
  s <> ""%string -> App.orElse s fallback = s.
Proof.
  intro H. unfold App.orElse. destruct (String.eqb_spec s ""); congruence.
Qed.

(** X19: in single mode on a loaded store the items of the wheel are the
    records of the index, name for name and with their lines, so every
    item has a name and at least one line and no stop of the gradient is
    without colour. *)
Theorem single_mode_wheel_is_coloured
  (ds : list MetroLine) (st : Store.State) :
  let st' := StoreActions.setMode single (Store.loadMetroData ds st) in
  let its := App.rouletteItems true st' in
  its = Store.buildStationIndex ds
  /\ Forall (fun it => name it <> ""%string /\ lines it <> []) its
  /\ forall s, In s (Background.gradientStops its) ->
               Background.stop_color s <> None.
Proof.
  intros st' its.
  assert (E : its = Store.buildStationIndex ds).
  { unfold its, App.rouletteItems, st'. simpl.
    rewrite <- (map_id (Store.buildStationIndex ds)) at 2.
    apply map_ext_in. intros rec Hrec.
    destruct (index_record_filled ds rec Hrec) as [Hn _].
    unfold App.indexItem. rewrite (orElse_filled _ _ Hn). now destruct rec. }
  assert (F : Forall (fun it => name it <> ""%string /\ lines it <> []) its).
  { rewrite E. apply Forall_forall. intros rec Hrec.
    exact (index_record_filled ds rec Hrec). }
  split; [exact E|]. split; [exact F|].
  intros s Hs Hnone.
  destruct (proj1 (gradient_missing_colour its)) as [it [Hit Hl]]; [eauto|].
  rewrite Forall_forall in F. destruct (F it Hit) as [_ Hne]. contradiction.
Qed.

(** ** The conversion script *)

Section Conversion.
Variables trim toUpperCase toLowerCase : string -> string.

Lemma uniqueStationNames_fold (raw : list Converter.RawStation) :
  exists seen,
    fold_left (Converter.addUnique trim) raw ([], [])
    = (Store.firstOccurrences
         (filter Store.nonEmpty
            (map (fun st => trim (Converter.stationName st)) raw)),
       seen)
    /\ forall x, Store.mem x seen
                 = Store.mem x
                     (filter Store.nonEmpty
                        (map (fun st => trim (Converter.stationName st))
                             raw)).
Proof.
  induction raw as [|st raw IH] using rev_ind.
  - exists []. split; reflexivity.
  - destruct IH as [seen [E Hseen]].
    rewrite fold_left_app, E. simpl fold_left.
    rewrite map_app, filter_app. simpl map. simpl filter.
    unfold Converter.addUnique.
    set (nm := trim (Converter.stationName st)).
    set (names := filter Store.nonEmpty
                    (map (fun st => trim (Converter.stationName st)) raw))
      in *.
    change (negb (String.eqb nm "")) with (Store.nonEmpty nm).
    destruct (Store.nonEmpty nm) eqn:Hnm; simpl.
    + rewrite firstOccurrences_snoc, Hseen.
      destruct (Store.mem nm names) eqn:Hm; simpl.
      * exists seen. split; [reflexivity|]. intro x.
        rewrite mem_app, Hseen. simpl.
        destruct (String.eqb_spec nm x) as [<-|_];
          [now rewrite Hm|now rewrite orb_false_r].
      * exists (nm :: seen). split; [reflexivity|]. intro x. simpl.
        rewrite mem_app, Hseen. simpl.
        now rewrite orb_false_r, orb_comm.
    + rewrite app_nil_r. exists seen. auto.
Qed.

Lemma uniqueStationNames_is_firstOccurrences
    (raw : list Converter.RawStation) :
  Converter.uniqueStationNames trim raw
  = Store.firstOccurrences
      (filter Store.nonEmpty
         (map (fun st => trim (Converter.stationName st)) raw)).
Proof.
  unfold Converter.uniqueStationNames.
  destruct (uniqueStationNames_fold raw) as [seen [E _]]. now rewrite E.
Qed.

Lemma convertLine_cases (line : Script.RawLine) :
  (Script.hasStations line = false
   /\ Script.convertLine trim toUpperCase toLowerCase line = None)
  \/ (Script.hasStations line = true
      /\ exists sts,
           Script.rawStations line = Some sts
           /\ Script.convertLine trim toUpperCase toLowerCase line
              = Some (mkMetroLine (toLowerCase (Script.lineShowCode line))
                        (Script.convertName line)
                        (Script.convertColor toUpperCase
                           (Script.lineColor line))
                        (Converter.uniqueStationNames trim sts))).
Proof.
  unfold Script.hasStations, Script.convertLine.
  destruct (Script.rawStations line) as [[|s sts]|]; auto.
  right. split; [reflexivity|]. eexists. split; reflexivity.
Qed.

Lemma convert_cons (line : Script.RawLine) (raws : list Script.RawLine) :
  Script.convert trim toUpperCase toLowerCase (line :: raws)
  = match Script.convertLine trim toUpperCase toLowerCase line with
    | Some l => l :: Script.convert trim toUpperCase toLowerCase raws
    | None => Script.convert trim toUpperCase toLowerCase raws
    end.
Proof.
  unfold Script.convert. simpl.
  now destruct (Script.convertLine trim toUpperCase toLowerCase line).
Qed.

Lemma convert_Converted (raws : list Script.RawLine) :
  Converter.Converted trim
    (Script.convert trim toUpperCase toLowerCase raws).
Proof.
  unfold Converter.Converted.
  induction raws as [|line raws IH]; [constructor|].
  rewrite convert_cons.
  destruct (convertLine_cases line) as [[_ ->]|[_ [sts [_ ->]]]];
    [exact IH|].
  constructor; [|exact IH]. exists sts. reflexivity.
Qed.

Lemma convert_ids (raws : list Script.RawLine) :
  map line_id (Script.convert trim toUpperCase toLowerCase raws)
  = map (fun l => toLowerCase (Script.lineShowCode l))
        (filter Script.hasStations raws).
Proof.
  induction raws as [|line raws IH]; [reflexivity|].
  rewrite convert_cons. simpl filter.
  destruct (convertLine_cases line) as [[-> ->]|[-> [sts [_ ->]]]];
    [exact IH|].
  simpl. now rewrite IH.
Qed.

Lemma substring_prefix (s t : string) :
  String.substring 0 (String.length s) (String.append s t) = s.
Proof.
  induction s as [|c s IH]; simpl.
  - now destruct t.
  - now rewrite IH.
Qed.

Lemma length_append (s t : string) :
  String.length (String.append s t) = (String.length s + String.length t)%nat.
Proof. induction s as [|c s IH]; simpl; [reflexivity|now rewrite IH]. Qed.

End Conversion.

(** X21: the names kept for a line by the script are the distinct
    non-empty trimmed names of its stations, in the order in which each
    first appears: no name is kept twice, none is empty, and every
    non-empty trimmed name is kept. *)
Theorem unique_station_names_keep_first_occurrences
  (trim : string -> string) (raw : list Converter.RawStation) :
  Converter.uniqueStationNames trim raw
  = Store.firstOccurrences
      (filter Store.nonEmpty
         (map (fun st => trim (Converter.stationName st)) raw))
  /\ NoDup (Converter.uniqueStationNames trim raw)
  /\ forall x, In x (Converter.uniqueStationNames trim raw) <->
               (x <> ""%string
                /\ exists st, In st raw
                              /\ trim (Converter.stationName st) = x).
Proof.
  split; [apply uniqueStationNames_is_firstOccurrences|].
  destruct (uniqueStationNames_spec trim raw) as (H1 & _ & H3). auto.
Qed.

(** X22: the script keeps exactly the raw lines that have at least one
    station, in their order, with the lower-cased code as id; a kept
    line may still end up with no station, when all its names are blank.
    On the dataset it writes, the index built on load is the expected
    one: one record per distinct station, each with the lines that
    serve it. *)
Theorem converted_dataset_feeds_the_index
  (trim toUpperCase toLowerCase : string -> string)
  (raws : list Script.RawLine) (st : Store.State) :
  let ds := Script.convert trim toUpperCase toLowerCase raws in
  map line_id ds
  = map (fun l => toLowerCase (Script.lineShowCode l))
        (filter Script.hasStations raws)
  /\ Forall (fun l => NoDup (stations l) /\ ~ In ""%string (stations l)) ds
  /\ (forall line sts,
        Script.rawStations line = Some sts -> sts <> [] ->
        Forall (fun s => trim (Converter.stationName s) = ""%string) sts ->
        exists l,
          Script.convertLine trim toUpperCase toLowerCase line = Some l
          /\ stations l = [])
  /\ Store.stationIndex (Store.loadMetroData ds st)
     = Store.expectedIndex ds.
Proof.
  intro ds.
  assert (Hc : Converter.Converted trim ds) by apply convert_Converted.
  destruct (Converted_NoDup trim ds Hc) as [Hnd Hne].
  split; [apply convert_ids|]. split; [|split].
  - apply Forall_forall. intros l Hl. split.
    + exact (proj1 (Forall_forall _ _) Hnd l Hl).
    + intro Hin.
      exact (proj1 (Forall_forall _ _)
               (proj1 (Forall_forall _ _) Hne l Hl) _ Hin eq_refl).
  - intros line sts Hs Hne' Hblank.
    destruct (convertLine_cases trim toUpperCase toLowerCase line)
      as [[Hh _]|[_ [sts' [Hs' ->]]]].
    + unfold Script.hasStations in Hh. rewrite Hs in Hh.
      destruct sts; [congruence|discriminate].
    + eexists. split; [reflexivity|]. simpl.
      rewrite Hs in Hs'. injection Hs' as <-.
      destruct (Converter.uniqueStationNames trim sts) as [|x xs] eqn:E;
        [reflexivity|].
      assert (Hx : In x (Converter.uniqueStationNames trim sts))
        by (rewrite E; now left).
      apply (uniqueStationNames_spec trim) in Hx.
      destruct Hx as [Hx [s [Hs1 Hs2]]].
      rewrite (proj1 (Forall_forall _ _) Hblank s Hs1) in Hs2. congruence.
  - now apply buildStationIndex_expected.
Qed.

Lemma converted_dataset_feeds_the_index_witness :
  map line_id
    (Script.convert Converter.asciiTrim Script.asciiUpper Script.asciiLower
       [Script.rawLine1; Script.rawLine2; Script.rawLine3])
  = ["l1"%string; "l2"%string]
  /\ exists l,
       Script.convertLine Converter.asciiTrim Script.asciiUpper
         Script.asciiLower
         (Script.mkRawLine "L7" "7" "Line 7" None
            (Some [Converter.mkRawStation " "]))
       = Some l
       /\ stations l = [].
Proof.
  split.
  - exact (proj1 (converted_dataset_feeds_the_index Converter.asciiTrim
                    Script.asciiUpper Script.asciiLower
                    [Script.rawLine1; Script.rawLine2; Script.rawLine3]
                    StoreActions.emptyStore)).
  - apply (proj1 (proj2 (proj2
             (converted_dataset_feeds_the_index Converter.asciiTrim
                Script.asciiUpper Script.asciiLower [] StoreActions.emptyStore)))
             _ [Converter.mkRawStation " "]).
    + reflexivity.
    + discriminate.
    + repeat constructor.
Defined.

(** X23: the colour written by the script.  An eight-character colour
    loses its last two characters; any other colour is kept whole; in
    both cases a [#] is put in front and the text is upper-cased, so a
    colour that already starts with [#] gets a second one.  A line
    without colour gets the text [##000000], upper-cased. *)
Theorem converted_colour
  (toUpperCase : string -> string) :
  (forall rgb alpha : string,
      String.length rgb = 6%nat -> String.length alpha = 2%nat ->
      Script.convertColor toUpperCase (Some (String.append rgb alpha))
      = toUpperCase (String.append "#"%string rgb))
  /\ (forall c : string,
        c <> ""%string -> String.length c <> 8%nat ->
        Script.convertColor toUpperCase (Some c)
        = toUpperCase (String.append "#"%string c))
  /\ Script.convertColor toUpperCase None = toUpperCase "##000000"%string
  /\ Script.convertColor toUpperCase (Some ""%string)
     = toUpperCase "##000000"%string.
Proof.
  split; [|split; [|split]]; try reflexivity.
  - intros rgb alpha Hr Ha. unfold Script.convertColor.
    destruct (String.eqb_spec (String.append rgb alpha) "") as [E|_].
    + apply (f_equal String.length) in E. rewrite length_append in E.
      simpl in E. lia.
    + rewrite length_append, Hr, Ha. simpl Nat.eqb. cbv iota.
      rewrite <- Hr at 1. now rewrite substring_prefix.
  - intros c Hc Hlen. unfold Script.convertColor.
    destruct (String.eqb_spec c "") as [E|_]; [contradiction|].
    destruct (Nat.eqb_spec (String.length c) 8); [contradiction|].
    reflexivity.
Qed.

Lemma converted_colour_witness :
  Script.convertColor Script.asciiUpper (Some "f3d03eff"%string)
  = "#F3D03E"%string
  /\ Script.convertColor Script.asciiUpper (Some "#71cc98"%string)
     = "##71CC98"%string.
Proof.
  split.
  - exact (proj1 (converted_colour Script.asciiUpper)
             "f3d03e"%string "ff"%string eq_refl eq_refl).
  - apply (proj1 (proj2 (converted_colour Script.asciiUpper))
             "#71cc98"%string); [discriminate|simpl; lia].
Defined.

(** ** The page at work *)

Section PageFacts.
Import Roulette.

Lemma index_In {A : Type} (l : list A) (k : Z) (x : A) :
  JS.index l k = Some x -> In x l.
Proof.
  unfold JS.index. destruct (k <? 0)%Z; [discriminate|].
  apply nth_error_In.
Qed.

Lemma Keeps_refl (w : Wheel) : Page.Keeps w w.
Proof. split; auto. Qed.

Lemma Keeps_trans (w1 w2 w3 : Wheel) :
  Page.Keeps w1 w2 -> Page.Keeps w2 w3 -> Page.Keeps w1 w3.
Proof.
  intros [Hi [Hs|[s [Hs Hin]]]] [Hi' [Hs'|[s' [Hs' Hin']]]];
    (split; [congruence|]).
  - left. congruence.
  - right. exists s'. rewrite <- Hi. auto.
  - right. exists s. split; [congruence|exact Hin].
  - right. exists s'. rewrite <- Hi. auto.
Qed.

Lemma Keeps_Named (w w' : Wheel) :
  Page.Keeps w w' -> Page.Named w -> Page.Named w'.
Proof.
  intros [Hi [Hs|[s [Hs Hin]]]] [t [Ht Hn]]; unfold Page.Named;
    rewrite Hi.
  - exists t. split; [congruence|exact Hn].
  - exists s. split; [exact Hs|]. now apply in_map.
Qed.

Lemma animate_Keeps (a : Anim) (t : Q) (w : Wheel) :
  Page.Keeps w (animate a t w).
Proof.
  unfold animate. destruct (isAnimating w); [|apply Keeps_refl].
  cbn [negb]. cbv zeta.
  change (items (setRotation (rotationAt a t) w)) with (items w).
  destruct (JS.index (items w)
              (frameIndex (totalItems a) (sliceAngle a) (rotationAt a t)))
    as [x|] eqn:E;
    destruct (JS.ltb (progressAt a t) 1);
    destruct (targetItem a);
    (split; [reflexivity|]); simpl;
    solve [left; reflexivity
          |right; exists x; split; [reflexivity|exact (index_In _ _ _ E)]].
Qed.

Lemma fold_animate_Keeps (t : Q) (l : list Anim) : forall w : Wheel,
  Page.Keeps w (fold_left (fun s a => animate a t s) l w).
Proof.
  induction l as [|a l IH]; intro w; [apply Keeps_refl|].
  simpl. eapply Keeps_trans; [apply animate_Keeps|apply IH].
Qed.

Lemma updateCurrentItem_Keeps (w : Wheel) :
  Page.Keeps w (updateCurrentItem w).
Proof.
  unfold updateCurrentItem.
  destruct (JS.length (items w) =? 0)%Z; [apply Keeps_refl|].
  destruct (JS.index (items w)
              (watcherIndex (JS.length (items w)) (currentRotation w)))
    as [x|] eqn:E; [|apply Keeps_refl].
  destruct (sameName x (selectedStation w)); [apply Keeps_refl|].
  split; [reflexivity|]. right. exists x.
  split; [reflexivity|exact (index_In _ _ _ E)].
Qed.

(** On a non-empty list [updateCurrentItem] leaves a station named
    after an item, whatever was shown before. *)
Lemma updateCurrentItem_Named (w : Wheel) :
  items w <> [] -> Page.Named (updateCurrentItem w).
Proof.
  intro Hne. pose proof (length_pos _ Hne) as Hn.
  unfold updateCurrentItem.
  destruct (Z.eqb_spec (JS.length (items w)) 0); [lia|].
  destruct (index_in_range (items w)
              (watcherIndex (JS.length (items w)) (currentRotation w))
              (watcherIndex_range _ _ Hn)) as [x [E Hin]].
  rewrite E. unfold sameName.
  destruct (selectedStation w) as [s|] eqn:Hs.
  - destruct (String.eqb_spec (name x) (name s)) as [En|_].
    + exists s. split; [exact Hs|]. rewrite <- En. now apply in_map.
    + exists x. split; [reflexivity|]. now apply in_map.
  - exists x. split; [reflexivity|]. now apply in_map.
Qed.

Lemma frame_Keeps (t : Q) (w : Wheel) : Page.Keeps w (frame t w).
Proof.
  unfold frame, flushWatcher.
  set (w1 := fold_left (fun s a => animate a t s) (raf w) (clearRaf w)).
  assert (H1 : Page.Keeps w w1).
  { apply (Keeps_trans w (clearRaf w)); [split; auto|].
    apply fold_animate_Keeps. }
  destruct (Qeq_bool (currentRotation w1) (watched w1)); [exact H1|].
  eapply Keeps_trans; [exact H1|].
  apply (Keeps_trans w1 (setWatched (currentRotation w1) w1));
    [split; auto|apply updateCurrentItem_Keeps].
Qed.

Lemma runFrames_Keeps (ts : list Q) : forall w : Wheel,
  Page.Keeps w (runFrames ts w).
Proof.
  induction ts as [|t ts IH]; intro w; [apply Keeps_refl|].
  change (runFrames (t :: ts) w) with (runFrames ts (frame t w)).
  eapply Keeps_trans; [apply frame_Keeps|apply IH].
Qed.

Lemma run_app (l l' : list Page.Action) (p : Page.State) :
  Page.run (l ++ l') p = Page.run l' (Page.run l p).
Proof. apply fold_left_app. Qed.

(** Frames leave the stage of the store and the timers alone, never set
    [isSpinning], and are the frames of the wheel. *)
Lemma frames_run (ds : list MetroLine) (sel : option MetroLine)
    (ts : list Q) : forall p : Page.State,
  Page.Stage ds sel (Page.store p) ->
  let p' := Page.run (map Page.Frame ts) p in
  Page.Stage ds sel (Page.store p')
  /\ Page.timers p' = Page.timers p
  /\ (Store.isSpinning (Page.store p) = false ->
      Store.isSpinning (Page.store p') = false)
  /\ Page.wheel p' = runFrames ts (Page.wheel p)
  /\ (Page.Synced p -> Page.Synced p').
Proof.
  induction ts as [|t ts IH]; intros p Hst; [simpl; auto|].
  change (Page.run (map Page.Frame (t :: ts)) p)
    with (Page.run (map Page.Frame ts) (Page.onFrame t p)).
  assert (H1 : Page.Stage ds sel (Page.store (Page.onFrame t p))
               /\ Page.timers (Page.onFrame t p) = Page.timers p
               /\ (Store.isSpinning (Page.store p) = false ->
                   Store.isSpinning (Page.store (Page.onFrame t p))
                   = false)
               /\ Page.wheel (Page.onFrame t p) = frame t (Page.wheel p)
               /\ Page.Synced (Page.onFrame t p)).
  { unfold Page.onFrame, Page.Synced, Page.Stage in *.
    destruct (_ <? _)%nat; simpl; repeat split; tauto. }
  destruct H1 as (S1 & T1 & B1 & W1 & Y1).
  destruct (IH _ S1) as (S2 & T2 & B2 & W2 & Y2).
  split; [exact S2|]. split; [congruence|]. split; [auto|].
  split; [|auto].
  rewrite W2, W1. reflexivity.
Qed.

(** A click on a page that is not spinning. *)
Lemma click_run (ds : list MetroLine) (sel : option MetroLine)
    (r1 r2 now : Q) (p : Page.State) :
  Page.Stage ds sel (Page.store p) ->
  Store.isSpinning (Page.store p) = false ->
  let p' := Page.onClick r1 r2 now p in
  Page.Stage ds sel (Page.store p')
  /\ Page.timers p' = S (Page.timers p)
  /\ Page.wheel p' = spinWheel r1 r2 now (Page.wheel p)
  /\ (Page.Synced p -> Page.Synced p').
Proof.
  intros Hst Hs. unfold Page.onClick, Store.spinBegin. rewrite Hs.
  unfold Page.Stage, Page.Synced in *. simpl.
  repeat split; try tauto.
  intro Hy. rewrite Hy. unfold spinWheel.
  destruct ((JS.length (items (Page.wheel p)) =? 0)%Z
            || isAnimating (Page.wheel p)); reflexivity.
Qed.

End PageFacts.

Section PageStages.
Import Roulette.

Lemma run_cons (a : Page.Action) (l : list Page.Action) (p : Page.State) :
  Page.run (a :: l) p = Page.run l (Page.act p a).
Proof. reflexivity. Qed.

(** The page as it starts in double mode on a loaded dataset. *)
Lemma start_double (ds : list MetroLine) (st : Store.State) :
  Store.isSpinning st = false ->
  let p0 := Page.start (App.selectMode double (Store.loadMetroData ds st)) in
  Page.Stage ds None (Page.store p0)
  /\ Store.isSpinning (Page.store p0) = false
  /\ Page.timers p0 = O
  /\ Page.wheel p0 = mounted (map App.lineItem ds)
  /\ Page.Synced p0.
Proof.
  intros Hs p0. unfold Page.Stage, Page.Synced.
  repeat split; try reflexivity. exact Hs.
Qed.

(** The timer in the first stage: a line of the dataset gets selected
    and the wheel gets the stations of the line as items. *)
Lemma timer_first_stage (ds : list MetroLine) (r : Q) (p : Page.State)
    (k : nat) :
  Page.Stage ds None (Page.store p) -> ds <> [] -> 0 <= r < 1 ->
  Page.timers p = S k ->
  exists line,
    In line ds
    /\ Page.Stage ds (Some line) (Page.store (Page.onTimer r p))
    /\ Store.isSpinning (Page.store (Page.onTimer r p)) = false
    /\ Page.timers (Page.onTimer r p) = k
    /\ items (Page.wheel (Page.onTimer r p))
       = map (App.stationItem line) (stations line)
    /\ (stations line <> [] -> Page.Named (Page.wheel (Page.onTimer r p)))
    /\ Page.Synced (Page.onTimer r p).
Proof.
  intros (Hm & Hl & Hd & Hi) Hne Hr Ht.
  destruct (getRandomElement_in_range r ds Hne Hr) as [line [Hdraw Hin]].
  exists line. split; [exact Hin|].
  assert (E : Store.spinResume r (Page.store p)
              = Store.setSpinning false
                  (Store.setSelectedLine (Some line) (Page.store p))).
  { unfold Store.spinResume. rewrite Hm, Hl.
    unfold Store.selectRandomLine. rewrite Hd.
    pose proof (length_pos ds Hne).
    destruct (Z.eqb_spec (JS.length ds) 0); [lia|]. now rewrite Hdraw. }
  unfold Page.onTimer. rewrite Ht. cbv zeta. rewrite E.
  assert (Hrep : Page.itemsReplaced (Page.store p)
                   (Store.setSpinning false
                      (Store.setSelectedLine (Some line) (Page.store p)))
                 = true).
  { unfold Page.itemsReplaced. simpl. now rewrite Hm, Hl. }
  rewrite Hrep.
  assert (Hits : App.rouletteItems true
                   (Store.setSpinning false
                      (Store.setSelectedLine (Some line) (Page.store p)))
                 = map (App.stationItem line) (stations line)).
  { unfold App.rouletteItems. simpl. now rewrite Hm. }
  rewrite Hits.
  set (w1 := Page.wheelSees _ (Page.wheel p)).
  assert (Hitems : items (setItems (map (App.stationItem line)
                                      (stations line)) w1)
                   = map (App.stationItem line) (stations line)).
  { unfold setItems.
    rewrite (proj1 (updateCurrentItem_Keeps _)). reflexivity. }
  unfold Page.Stage, Page.Synced. simpl.
  repeat split; auto.
  intro Hst. unfold setItems. apply updateCurrentItem_Named. simpl.
  intro E'. apply map_nil_iff in E'. contradiction.
Qed.

(** The timer in the second stage: a station of the selected line gets
    selected, and the wheel keeps its items. *)
Lemma timer_second_stage (ds : list MetroLine) (line : MetroLine) (r : Q)
    (p : Page.State) (k : nat) :
  Page.Stage ds (Some line) (Page.store p) -> In line ds ->
  stations line <> [] ->
  Forall (fun s => s <> ""%string) (stations line) -> 0 <= r < 1 ->
  Page.timers p = S k ->
  exists rec,
    Page.Stage ds (Some line) (Page.store (Page.onTimer r p))
    /\ Store.selectedStation (Page.store (Page.onTimer r p)) = Some rec
    /\ In rec (Store.buildStationIndex ds)
    /\ In (name rec) (stations line)
    /\ In (Store.tagOf line) (lines rec)
    /\ Store.isSpinning (Page.store (Page.onTimer r p)) = false
    /\ Page.timers (Page.onTimer r p) = k
    /\ items (Page.wheel (Page.onTimer r p)) = items (Page.wheel p).
Proof.
  intros (Hm & Hl & Hd & Hi) Hin Hne Hnames Hr Ht.
  destruct (second_stage_draw r line (Page.store p))
    as (rec & Hrec & H1 & H2 & H3); try assumption;
    try (rewrite Hd; assumption).
  exists rec.
  assert (E : Store.spinResume r (Page.store p)
              = Store.setSpinning false
                  (Store.setSelectedStation (Some rec) (Page.store p))).
  { unfold Store.spinResume. now rewrite Hm, Hl, Hrec. }
  unfold Page.onTimer. rewrite Ht. cbv zeta. rewrite E.
  assert (Hrep : Page.itemsReplaced (Page.store p)
                   (Store.setSpinning false
                      (Store.setSelectedStation (Some rec) (Page.store p)))
                 = false).
  { unfold Page.itemsReplaced. simpl. now rewrite Hm, Hl. }
  rewrite Hrep. unfold Page.Stage. simpl.
  rewrite Hi in H3. repeat split; auto.
Qed.

End PageStages.

(** C6 on the code: double mode on a dataset of three lines, the third
    with a single station.  The wheel is mounted over the three line
    items.  A click starts the spin of the store and that of the wheel
    (draws 0 and 1/2: 1800 degrees in 3500 ms, with [totalItems] 3 and
    [sliceAngle] 120 captured).  After the frames at 1000 and 2000 ms
    the timer of the store fires, at 3000 ms, with the draw 5/6: the
    third line is selected and the items of the wheel become its single
    station, while the spin is still in flight.  The frame at 3150 ms
    computes from the rotation 1798.56 the index (3 - 2) % 3 = 1 and
    reads [props.items[1]] on a list of one item: out of bounds. *)
Theorem C6_stale_length_indexes_replaced_items :
  let p0 := Page.start (Page.doubleMode Page.threeLines) in
  let a := Roulette.planSpin 0 (1 # 2) 0
             (Roulette.items (Page.wheel p0))
             (Roulette.rotation (Page.wheel p0)) in
  let p1 := Page.run [Page.Click 0 (1 # 2) 0; Page.Frame 1000;
                      Page.Frame 2000] p0 in
  let p2 := Page.run [Page.Timer (5 # 6)] p1 in
  let p3 := Page.run [Page.Frame 3150] p2 in
  let k := Roulette.frameIndex (Roulette.totalItems a)
             (Roulette.sliceAngle a) (Roulette.rotationAt a 3150) in
  JS.length (Roulette.items (Page.wheel p0)) = 3%Z
  /\ Roulette.totalItems a = 3%Z /\ Roulette.sliceAngle a == 120
  /\ Roulette.duration a == 3500
  /\ Roulette.raf (Page.wheel p2) = [a]
  /\ Roulette.isAnimating (Page.wheel p2) = true
  /\ Store.selectedLine (Page.store p2) = Some Page.apm
  /\ Roulette.items (Page.wheel p2) = [App.stationItem Page.apm "Linhexi"]
  /\ JS.length (Roulette.items (Page.wheel p2)) = 1%Z
  /\ Roulette.rotationAt a 3150 == 44964 # 25
  /\ k = 1%Z
  /\ ~ (k < JS.length (Roulette.items (Page.wheel p2)))%Z
  /\ JS.index (Roulette.items (Page.wheel p2)) k = None
  /\ Roulette.rotation (Page.wheel p3) == Roulette.rotationAt a 3150
  /\ Roulette.isAnimating (Page.wheel p3) = true.
Proof.
  vm_compute. repeat split; try discriminate.
Qed.

(** X16: the two stages in a row on the page.  Double mode is chosen on
    a loaded dataset whose lines all have stations with non-empty
    names.  A click, any frames, and the timer of the store: a line of
    the dataset is selected.  Then any frames, a second click, any
    frames, and the timer again: the line is kept and the store selects
    a record of the index that is a station of that line, whatever the
    wheel wrote to the store in between; no call of [spin] is left
    waiting. *)
Theorem two_stage_flow
  (ds : list MetroLine) (st : Store.State) (r1 r2 : Q)
  (a1 b1 n1 a2 b2 n2 : Q) (f1 f2 f3 : list Q) :
  ds <> [] ->
  Forall (fun l => stations l <> []
                   /\ Forall (fun s => s <> ""%string) (stations l)) ds ->
  Store.isSpinning st = false -> 0 <= r1 < 1 -> 0 <= r2 < 1 ->
  let p0 := Page.start
              (App.selectMode double (Store.loadMetroData ds st)) in
  let p1 := Page.run (Page.Click a1 b1 n1 :: map Page.Frame f1
                      ++ [Page.Timer r1]) p0 in
  let p2 := Page.run (map Page.Frame f2
                      ++ Page.Click a2 b2 n2 :: map Page.Frame f3
                      ++ [Page.Timer r2]) p1 in
  exists line rec,
    In line ds
    /\ Store.selectedLine (Page.store p1) = Some line
    /\ Roulette.items (Page.wheel p1)
       = map (App.stationItem line) (stations line)
    /\ Store.selectedLine (Page.store p2) = Some line
    /\ Store.selectedStation (Page.store p2) = Some rec
    /\ In rec (Store.stationIndex (Page.store p2))
    /\ In (name rec) (stations line)
    /\ In (Store.tagOf line) (lines rec)
    /\ Store.isSpinning (Page.store p2) = false
    /\ Page.timers p2 = O.
Proof.
  intros Hne Hall Hs Hr1 Hr2 p0 p1 p2.
  destruct (start_double ds st Hs) as (S0 & B0 & T0 & _ & _).
  fold p0 in S0, B0, T0.
  destruct (click_run ds None a1 b1 n1 p0 S0 B0) as (S1 & T1 & _ & _).
  destruct (frames_run ds None f1 _ S1) as (S2 & T2 & _ & _ & _).
  rewrite T1, T0 in T2.
  destruct (timer_first_stage ds r1 _ O S2 Hne Hr1 T2)
    as (line & Hin & S3 & B3 & T3 & I3 & _ & _).
  assert (E1 : p1 = Page.onTimer r1
                      (Page.run (map Page.Frame f1)
                         (Page.onClick a1 b1 n1 p0))).
  { unfold p1. rewrite run_cons, run_app. reflexivity. }
  rewrite <- E1 in S3, B3, T3, I3.
  destruct (frames_run ds (Some line) f2 _ S3) as (S4 & T4 & B4 & _ & _).
  specialize (B4 B3). rewrite T3 in T4.
  destruct (click_run ds (Some line) a2 b2 n2 _ S4 B4)
    as (S5 & T5 & _ & _).
  rewrite T4 in T5.
  destruct (frames_run ds (Some line) f3 _ S5) as (S6 & T6 & _ & _ & _).
  rewrite T5 in T6.
  rewrite Forall_forall in Hall. destruct (Hall line Hin) as [Hst Hnames].
  destruct (timer_second_stage ds line r2 _ O S6 Hin Hst Hnames Hr2 T6)
    as (rec & S7 & Hrec & Hidx & Hname & Htag & B7 & T7 & _).
  assert (E2 : p2 = Page.onTimer r2
                      (Page.run (map Page.Frame f3)
                         (Page.onClick a2 b2 n2
                            (Page.run (map Page.Frame f2) p1)))).
  { unfold p2. rewrite run_app, run_cons, run_app. reflexivity. }
  rewrite <- E2 in S7, Hrec, B7, T7.
  exists line, rec. destruct S3 as (_ & L3 & _).
  destruct S7 as (_ & L7 & _ & X7).
  rewrite X7. repeat split; assumption.
Qed.

Lemma two_stage_flow_witness :
  exists line rec,
    In line [Store.line1; Store.line2]
    /\ Store.selectedStation
         (Page.store
            (Page.run (map Page.Frame [3150; 4000]
                       ++ Page.Click 0 0 5000 :: map Page.Frame [6000]
                       ++ [Page.Timer 0])
               (Page.run (Page.Click 0 (1 # 2) 0
                          :: map Page.Frame [1000; 2000]
                          ++ [Page.Timer (1 # 2)])
                  (Page.start
                     (App.selectMode double
                        (Store.loadMetroData [Store.line1; Store.line2]
                           StoreActions.emptyStore))))))
       = Some rec
    /\ In (name rec) (stations line).
Proof.
  destruct (two_stage_flow [Store.line1; Store.line2]
              StoreActions.emptyStore (1 # 2) 0
              0 (1 # 2) 0 0 0 5000 [1000; 2000] [3150; 4000] [6000])
    as (line & rec & H1 & _ & _ & _ & H3 & _ & H4 & _).
  - discriminate.
  - repeat constructor; discriminate.
  - reflexivity.
  - split; reflexivity || discriminate.
  - split; reflexivity || discriminate.
  - exists line, rec. split; [exact H1|]. split; [exact H3|exact H4].
Defined.

(** X20: the first stage of double mode on the page.  The items of the
    wheel stand for the lines, and the wheel writes them to the store as
    stations: after a click and any frames, as long as the timer of the
    store has not fired, the station held by the store is the item of a
    line of the dataset, while no line is selected.  When the timer
    fires, the drawn line is selected and the wheel gets its stations as
    items; from then on, after any frames, the station held by the store
    is named after a station of the selected line. *)
Theorem first_stage_wheel_highlights_lines
  (ds : list MetroLine) (st : Store.State) (r1 r2 now r : Q)
  (f1 f2 : list Q) :
  ds <> [] -> Forall (fun l => stations l <> []) ds ->
  Store.isSpinning st = false -> 0 <= r1 < 1 -> 0 <= r < 1 -> f1 <> [] ->
  let p0 := Page.start
              (App.selectMode double (Store.loadMetroData ds st)) in
  let p1 := Page.run (Page.Click r1 r2 now :: map Page.Frame f1) p0 in
  let p2 := Page.run (Page.Timer r :: map Page.Frame f2) p1 in
  (exists line,
      In line ds
      /\ Store.selectedStation (Page.store p1) = Some (App.lineItem line)
      /\ Store.selectedLine (Page.store p1) = None)
  /\ (exists line s,
        In line ds
        /\ Store.selectedLine (Page.store p2) = Some line
        /\ Roulette.items (Page.wheel p2)
           = map (App.stationItem line) (stations line)
        /\ Store.selectedStation (Page.store p2) = Some s
        /\ In (name s) (stations line)).
Proof.
  intros Hne Hall Hs Hr1 Hr Hf1 p0 p1 p2.
  destruct (start_double ds st Hs) as (S0 & B0 & T0 & W0 & Y0).
  fold p0 in S0, B0, T0, W0, Y0.
  destruct (click_run ds None r1 r2 now p0 S0 B0) as (S1 & T1 & W1 & Y1).
  specialize (Y1 Y0).
  destruct (frames_run ds None f1 _ S1) as (S2 & T2 & _ & W2 & Y2).
  specialize (Y2 Y1). rewrite T1, T0 in T2.
  change (Page.run (map Page.Frame f1) (Page.onClick r1 r2 now p0))
    with p1 in S2, T2, W2, Y2.
  split.
  - assert (Hits : map App.lineItem ds <> []).
    { intro E. apply map_nil_iff in E. contradiction. }
    destruct (mounted_idle (map App.lineItem ds))
      as (Hidle & Hitems & Hrot & _).
    pose proof (spinWheel_running (map App.lineItem ds) r1 r2 now 0
                  Hits (Roulette.mounted (map App.lineItem ds))
                  Hidle Hitems Hrot) as Hrun.
    pose proof (run_highlight (map App.lineItem ds) r1 r2 now 0
                  Hits Hr1 f1 _ Hrun Hf1) as H.
    rewrite W1, W0 in W2. rewrite <- W2 in H.
    destruct (index_in_range (map App.lineItem ds)
                (Roulette.frameIndex (JS.length (map App.lineItem ds))
                   (360 / inject_Z (JS.length (map App.lineItem ds)))
                   (Roulette.rotation (Page.wheel p1))))
      as [s [Hsel Hin]].
    { apply frameIndex_range. now apply length_pos. }
    rewrite Hsel in H. apply in_map_iff in Hin.
    destruct Hin as [line [<- Hline]].
    exists line. split; [exact Hline|]. split.
    + unfold Page.Synced in Y2. now rewrite Y2.
    + now destruct S2 as (_ & L & _).
  - destruct (timer_first_stage ds r _ O S2 Hne Hr T2)
      as (line & Hin & S3 & _ & _ & I3 & N3 & Y3).
    destruct (frames_run ds (Some line) f2 _ S3)
      as (S4 & _ & _ & W4 & Y4).
    specialize (Y4 Y3).
    change (Page.run (map Page.Frame f2) (Page.onTimer r p1))
      with p2 in S4, W4, Y4.
    rewrite Forall_forall in Hall. specialize (N3 (Hall line Hin)).
    pose proof (runFrames_Keeps f2 (Page.wheel (Page.onTimer r p1)))
      as K.
    rewrite <- W4 in K.
    destruct (Keeps_Named _ _ K N3) as [s [Hsel Hname]].
    destruct K as [Ki _]. rewrite Ki, I3 in Hname.
    rewrite map_map in Hname. simpl in Hname. rewrite map_id in Hname.
    exists line, s. split; [exact Hin|]. split.
    + now destruct S4 as (_ & L & _).
    + split; [now rewrite Ki|]. split; [|exact Hname].
      unfold Page.Synced in Y4. now rewrite Y4.
Qed.

Lemma first_stage_wheel_highlights_lines_witness :
  exists line,
    In line Page.threeLines
    /\ Store.selectedStation
         (Page.store
            (Page.run (Page.Click 0 (1 # 2) 0
                       :: map Page.Frame [1000; 2000])
               (Page.start
                  (App.selectMode double
                     (Store.loadMetroData Page.threeLines
                        StoreActions.emptyStore)))))
       = Some (App.lineItem line).
Proof.
  destruct (first_stage_wheel_highlights_lines Page.threeLines
              StoreActions.emptyStore 0 (1 # 2) 0 (5 # 6)
              [1000; 2000] [3150])
    as [(line & H1 & H2 & _) _].
  - discriminate.
  - repeat constructor; discriminate.
  - reflexivity.
  - split; reflexivity || discriminate.
  - split; reflexivity || discriminate.
  - discriminate.
  - exists line. split; [exact H1|exact H2].
Defined.
